(** * The component graph-wiring engine of yarl/components/component.py

    A shallow embedding of [Component]: its constructor's scope check,
    sockets, the component tree with its global scopes, the variable
    registry and the connect/disconnect dispatcher, followed by the
    properties of the specification stated over that embedding.

    Python objects live in a store and are named by their index, so that
    aliasing ([component.parent_component = self], a socket's
    [component]) is the aliasing of the source.  An exception is a
    [Raise] result; Python's recursion limit is the [limit] argument of
    the two recursive methods. *)

From Stdlib Require Import String Ascii List Bool Arith ZArith Lia.
From stdpp Require Import base option list strings gmap.
Import ListNotations.
Local Open Scope string_scope.

(** ** Characters and the two regular expressions of the source *)

(** A character of the model is the code point of the same number, and
    a string is a text over the code points below 256:
    [ascii_of_nat 233] is the letter e with an acute accent.  A string
    literal is the sequence of its bytes, so that a literal written with
    a character above 127 stands for the text that has one character per
    byte of its UTF-8 form.  Texts with a code point from 256 on have no
    counterpart here.  The two patterns are str patterns, which Python 3
    reads with the Unicode classes. *)

(** [\d]: the decimal digits, which below 256 are [0] to [9]. *)
Definition is_digit (c : ascii) : bool :=
  let n := nat_of_ascii c in ((48 <=? n) && (n <=? 57))%nat.

(** [\w]: the alphanumeric code points and the underscore.  Below 128
    these are the letters, the digits and the underscore; from 128 to
    255 they are the two ordinal indicators (170, 186), the superscript
    digits (178, 179, 185), the micro sign (181), the three fractions
    (188 to 190) and the letters 192 to 255, which leave out the
    multiplication sign (215) and the division sign (247). *)
Definition is_word (c : ascii) : bool :=
  let n := nat_of_ascii c in
  (((48 <=? n) && (n <=? 57)) || ((65 <=? n) && (n <=? 90)) ||
   ((97 <=? n) && (n <=? 122)) || (n =? 95) ||
   (n =? 170) || (n =? 178) || (n =? 179) || (n =? 181) ||
   (n =? 185) || (n =? 186) || ((188 <=? n) && (n <=? 190)) ||
   ((192 <=? n) && (n <=? 214)) || ((216 <=? n) && (n <=? 246)) ||
   ((248 <=? n) && (n <=? 255)))%nat.

(** The class [[\w\-]] of the scope pattern. *)
Definition is_scope_char (c : ascii) : bool :=
  is_word c || (nat_of_ascii c =? 45)%nat.

(** The class [[\d_]] of the socket-name pattern. *)
Definition is_digit_or_underscore (c : ascii) : bool :=
  is_digit c || (nat_of_ascii c =? 95)%nat.

Definition newline : ascii := ascii_of_nat 10.

(** [$] without re.MULTILINE: at the end of the string, or just before a
    newline that is the last character of the string. *)
Definition at_dollar (rest : string) : bool :=
  match rest with
  | EmptyString => true
  | String c EmptyString => (nat_of_ascii c =? 10)%nat
  | _ => false
  end.

(** [[\w\-]*$] from the current position: the star is greedy and gives
    characters back when what follows does not match. *)
Fixpoint match_scope_star (s : string) : bool :=
  match s with
  | EmptyString => at_dollar s
  | String c rest =>
      (is_scope_char c && match_scope_star rest) || at_dollar s
  end.

(** [re.match(r'^[\w\-]*$', scope)] as a truth value. *)
Definition scope_pattern_matches (scope : string) : bool :=
  match_scope_star scope.

(** Every character of the string is in the class [[\w\-]].  The class
    of the specification, [[A-Za-z0-9_-]], is the part of [[\w\-]]
    below 128: a string for which this fails has a character outside
    [[A-Za-z0-9_-]]. *)
Fixpoint all_scope_chars (s : string) : bool :=
  match s with
  | EmptyString => true
  | String c rest => is_scope_char c && all_scope_chars rest
  end.

(** [\b] between the character before a position and the one after it
    ([None] at either end of the string). *)
Definition word_boundary (prev next : option ascii) : bool :=
  xorb (from_option is_word false prev) (from_option is_word false next).

Definition head_char (s : string) : option ascii :=
  match s with
  | EmptyString => None
  | String c _ => Some c
  end.

(** [s] without the prefix [p], when it starts with it. *)
Fixpoint strip_prefix (p s : string) : option string :=
  match p, s with
  | EmptyString, _ => Some s
  | String a p', String b s' =>
      if Ascii.eqb a b then strip_prefix p' s' else None
  | String _ _, EmptyString => None
  end.

(** [(in|out)put] at the head of [s]: group 2 and what is left. *)
Definition match_in_out_put (s : string) : option (string * string) :=
  match strip_prefix "input" s with
  | Some rest => Some ("in", rest)
  | None =>
      match strip_prefix "output" s with
      | Some rest => Some ("out", rest)
      | None => None
      end
  end.

(** The closing [([\d_]|\b)]; the character before it is the [t] of
    [put]. *)
Definition match_closing (rest : string) : bool :=
  match rest with
  | String c _ =>
      is_digit_or_underscore c ||
      word_boundary (Some "t"%char) (Some c)
  | EmptyString => word_boundary (Some "t"%char) None
  end.

Definition match_put_and_closing (s : string) : option string :=
  match match_in_out_put s with
  | Some (g, rest) => if match_closing rest then Some g else None
  | None => None
  end.

(** The whole pattern [([\d_]|\b)(in|out)put([\d_]|\b)] tried at one
    start position: first the alternative that consumes a character,
    then the boundary. *)
Definition match_direction_at (prev : option ascii) (s : string)
  : option string :=
  let consuming :=
    match s with
    | String c rest =>
        if is_digit_or_underscore c then match_put_and_closing rest
        else None
    | EmptyString => None
    end in
  match consuming with
  | Some g => Some g
  | None =>
      if word_boundary prev (head_char s) then match_put_and_closing s
      else None
  end.

(** [re.search]: the leftmost start position that matches; the result is
    [mo.group(2)]. *)
Fixpoint search_direction_from (prev : option ascii) (s : string)
  : option string :=
  match match_direction_at prev s with
  | Some g => Some g
  | None =>
      match s with
      | String c rest => search_direction_from (Some c) rest
      | EmptyString => None
      end
  end.

Definition search_direction (name : string) : option string :=
  search_direction_from None name.

(** [needle in s] for strings. *)
Fixpoint contains (needle s : string) : bool :=
  match strip_prefix needle s with
  | Some _ => true
  | None =>
      match s with
      | String _ rest => contains needle rest
      | EmptyString => false
      end
  end.

(** ** Exceptions *)

(** The exceptions the modelled methods raise.  [NoSuchObject] is not a
    Python exception: it is the result of following a store index that
    names no object, which a Python reference never does. *)
Inductive exn : Set :=
| YARLError | AssertionError | KeyError | TypeError | RecursionError
| NoSuchObject.

Inductive result (A : Type) : Type :=
| Ok (a : A)
| Raise (e : exn).
Arguments Ok {A} a.
Arguments Raise {A} e.

Definition bind {A B : Type} (r : result A) (k : A -> result B)
  : result B :=
  match r with
  | Ok a => k a
  | Raise e => Raise e
  end.

Notation "x <- r ;; k" := (bind r (fun x => k))
  (at level 100, r at next level, right associativity).

Definition raises {A : Type} (r : result A) : Prop :=
  exists e, r = Raise e.

(** [assert cond] *)
Definition assert (cond : bool) : result unit :=
  if cond then Ok tt else Raise AssertionError.

(** A left-to-right [for] loop whose body may raise. *)
Fixpoint for_each {A S : Type} (body : A -> S -> result S)
  (items : list A) (s : S) : result S :=
  match items with
  | [] => Ok s
  | x :: rest => s' <- body x s ;; for_each body rest s'
  end.

(** ** Objects *)

(** Objects are named by their index in the store. *)
Abbreviation CompId := nat (only parsing).
Abbreviation SockId := nat (only parsing).
Abbreviation GraphFnId := nat (only parsing).

(** Opaque handles of the execution backend. *)
Inductive Space : Set := SpaceObj (descr : string).
Inductive DataOp : Set := SingleDataOp (constant_value : Z).
Inductive Var : Set := VarHandle (handle : nat).

#[global] Instance Space_eq_dec : EqDecision Space.
Proof. solve_decision. Defined.
#[global] Instance DataOp_eq_dec : EqDecision DataOp.
Proof. solve_decision. Defined.
#[global] Instance Var_eq_dec : EqDecision Var.
Proof. solve_decision. Defined.

(** What a socket's connection list holds. *)
Inductive Endpoint : Set :=
| ToSocket (s : SockId)
| ToSpace (sp : Space)
| ToDataOp (op : DataOp)
| ToGraphFn (g : GraphFnId).

#[global] Instance Endpoint_eq_dec : EqDecision Endpoint.
Proof. solve_decision. Defined.

(** Modelled from the spec: the class [Socket] of
    yarl/components/socket_and_graph_fn.py is not among the sources.  A
    socket belongs to one component, has a direction fixed at creation,
    holds zero or more connections and, once resolved, a space. *)
Record Socket : Set := mkSocket {
  sock_name : string;
  sock_component : CompId;
  sock_type : string;
  space : option Space;
  incoming_connections : list Endpoint;
  outgoing_connections : list Endpoint
}.

(** The structural flags of an operation binding. *)
Record OpsFlags : Set := mkOpsFlags {
  flatten_ops : bool;
  split_ops : bool;
  add_auto_key_as_first_param : bool;
  unflatten_ops : bool
}.

(** Modelled from the spec: the class [GraphFunction] of
    yarl/components/socket_and_graph_fn.py is not among the sources.  An
    operation binding is the tuple of its ordered input sockets, its
    ordered output sockets, the transformation handle and the
    structural flags. *)
Record GraphFunction : Set := mkGraphFunction {
  gf_method : string;
  gf_component : CompId;
  gf_input_sockets : list SockId;
  gf_output_sockets : list SockId;
  gf_flags : OpsFlags
}.

(** The attributes of a [Component] set by [__init__].  [sub_components]
    is the OrderedDict in insertion order; [graph_methods] lists the
    names of the callable members that start with [_graph_] (what
    [dir(self)] is filtered down to in [add_graph_fn]).  [device] and
    [global_component] are stored and never read by the methods below. *)
Record Component : Type := mkComponent {
  scope : string;
  global_scope : string;
  name : string;
  default_flags : OpsFlags;
  sub_components : list (string * CompId);
  graph_fns : list GraphFnId;
  parent_component : option CompId;
  input_sockets : list SockId;
  output_sockets : list SockId;
  internal_sockets : list SockId;
  input_complete : bool;
  no_input_entry_points : list GraphFnId;
  variables : gmap string Var;
  graph_methods : list string
}.

(** The store: every object created so far, named by its index. *)
Record Heap : Type := mkHeap {
  components : list Component;
  sockets : list Socket;
  graph_functions : list GraphFunction
}.

Definition empty_heap : Heap := mkHeap [] [] [].

(** *** Attribute assignment *)

Definition set_global_scope (g : string) (c : Component) : Component :=
  mkComponent (scope c) g (name c) (default_flags c) (sub_components c)
    (graph_fns c) (parent_component c) (input_sockets c)
    (output_sockets c) (internal_sockets c) (input_complete c)
    (no_input_entry_points c) (variables c) (graph_methods c).

Definition set_sub_components (subs : list (string * CompId))
  (c : Component) : Component :=
  mkComponent (scope c) (global_scope c) (name c) (default_flags c) subs
    (graph_fns c) (parent_component c) (input_sockets c)
    (output_sockets c) (internal_sockets c) (input_complete c)
    (no_input_entry_points c) (variables c) (graph_methods c).

Definition set_graph_fns (fns : list GraphFnId) (c : Component)
  : Component :=
  mkComponent (scope c) (global_scope c) (name c) (default_flags c)
    (sub_components c) fns (parent_component c) (input_sockets c)
    (output_sockets c) (internal_sockets c) (input_complete c)
    (no_input_entry_points c) (variables c) (graph_methods c).

Definition set_parent_component (p : option CompId) (c : Component)
  : Component :=
  mkComponent (scope c) (global_scope c) (name c) (default_flags c)
    (sub_components c) (graph_fns c) p (input_sockets c)
    (output_sockets c) (internal_sockets c) (input_complete c)
    (no_input_entry_points c) (variables c) (graph_methods c).

Definition set_input_sockets (l : list SockId) (c : Component)
  : Component :=
  mkComponent (scope c) (global_scope c) (name c) (default_flags c)
    (sub_components c) (graph_fns c) (parent_component c) l
    (output_sockets c) (internal_sockets c) (input_complete c)
    (no_input_entry_points c) (variables c) (graph_methods c).

Definition set_output_sockets (l : list SockId) (c : Component)
  : Component :=
  mkComponent (scope c) (global_scope c) (name c) (default_flags c)
    (sub_components c) (graph_fns c) (parent_component c)
    (input_sockets c) l (internal_sockets c) (input_complete c)
    (no_input_entry_points c) (variables c) (graph_methods c).

Definition set_internal_sockets (l : list SockId) (c : Component)
  : Component :=
  mkComponent (scope c) (global_scope c) (name c) (default_flags c)
    (sub_components c) (graph_fns c) (parent_component c)
    (input_sockets c) (output_sockets c) l (input_complete c)
    (no_input_entry_points c) (variables c) (graph_methods c).

Definition set_input_complete (b : bool) (c : Component) : Component :=
  mkComponent (scope c) (global_scope c) (name c) (default_flags c)
    (sub_components c) (graph_fns c) (parent_component c)
    (input_sockets c) (output_sockets c) (internal_sockets c) b
    (no_input_entry_points c) (variables c) (graph_methods c).

Definition set_no_input_entry_points (l : list GraphFnId)
  (c : Component) : Component :=
  mkComponent (scope c) (global_scope c) (name c) (default_flags c)
    (sub_components c) (graph_fns c) (parent_component c)
    (input_sockets c) (output_sockets c) (internal_sockets c)
    (input_complete c) l (variables c) (graph_methods c).

Definition set_variables (vars : gmap string Var) (c : Component)
  : Component :=
  mkComponent (scope c) (global_scope c) (name c) (default_flags c)
    (sub_components c) (graph_fns c) (parent_component c)
    (input_sockets c) (output_sockets c) (internal_sockets c)
    (input_complete c) (no_input_entry_points c) vars (graph_methods c).

Definition set_incoming_connections (l : list Endpoint) (s : Socket)
  : Socket :=
  mkSocket (sock_name s) (sock_component s) (sock_type s) (space s) l
    (outgoing_connections s).

Definition set_outgoing_connections (l : list Endpoint) (s : Socket)
  : Socket :=
  mkSocket (sock_name s) (sock_component s) (sock_type s) (space s)
    (incoming_connections s) l.

(** *** Reading and writing the store *)

Definition get_component (h : Heap) (c : CompId) : result Component :=
  match components h !! c with
  | Some x => Ok x
  | None => Raise NoSuchObject
  end.

Definition get_sock (h : Heap) (s : SockId) : result Socket :=
  match sockets h !! s with
  | Some x => Ok x
  | None => Raise NoSuchObject
  end.

Definition put_component (c : CompId) (x : Component) (h : Heap) : Heap :=
  mkHeap (<[c := x]> (components h)) (sockets h) (graph_functions h).

Definition put_sock (s : SockId) (x : Socket) (h : Heap) : Heap :=
  mkHeap (components h) (<[s := x]> (sockets h)) (graph_functions h).

(** [update_component c f h]: one attribute assignment on object [c]. *)
Definition update_component (c : CompId) (f : Component -> Component)
  (h : Heap) : result Heap :=
  x <- get_component h c ;; Ok (put_component c (f x) h).

Definition update_sock (s : SockId) (f : Socket -> Socket) (h : Heap)
  : result Heap :=
  x <- get_sock h s ;; Ok (put_sock s (f x) h).

Definition alloc_component (x : Component) (h : Heap) : CompId * Heap :=
  (length (components h),
   mkHeap (components h ++ [x]) (sockets h) (graph_functions h)).

Definition alloc_sock (x : Socket) (h : Heap) : SockId * Heap :=
  (length (sockets h),
   mkHeap (components h) (sockets h ++ [x]) (graph_functions h)).

Definition alloc_graph_fn (x : GraphFunction) (h : Heap)
  : GraphFnId * Heap :=
  (length (graph_functions h),
   mkHeap (components h) (sockets h) (graph_functions h ++ [x])).

(** ** Socket methods *)

(** Modelled from the spec: [Socket.connect_to], [connect_from],
    [disconnect_to] and [disconnect_from] are methods of the missing
    class; they mutate the socket's two connection lists.  The label of
    a connection is accepted and not stored. *)
Definition connect_to (s : SockId) (to_ : Endpoint) (h : Heap)
  : result Heap :=
  update_sock s
    (fun x => set_outgoing_connections (outgoing_connections x ++ [to_]) x)
    h.

Definition connect_from (s : SockId) (from_ : Endpoint)
  (label : option string) (h : Heap) : result Heap :=
  update_sock s
    (fun x => set_incoming_connections (incoming_connections x ++ [from_]) x)
    h.

Definition remove_endpoint (e : Endpoint) (l : list Endpoint)
  : list Endpoint :=
  filter (fun x => x <> e) l.

Definition disconnect_to (s : SockId) (to_ : Endpoint) (h : Heap)
  : result Heap :=
  update_sock s
    (fun x =>
       set_outgoing_connections
         (remove_endpoint to_ (outgoing_connections x)) x)
    h.

Definition disconnect_from (s : SockId) (from_ : Endpoint)
  (label : option string) (h : Heap) : result Heap :=
  update_sock s
    (fun x =>
       set_incoming_connections
         (remove_endpoint from_ (incoming_connections x)) x)
    h.

(** ** Sockets of a component *)

(** The names of the sockets in a list of socket objects. *)
Definition names_of (h : Heap) (socks : list SockId) : list string :=
  omap (fun s => sock_name <$> sockets h !! s) socks.

(** [next((x for x in socks if x.name == name), None)] *)
Definition first_named (h : Heap) (sname : string) (socks : list SockId)
  : option SockId :=
  List.find
    (fun s =>
       match sockets h !! s with
       | Some x => String.eqb (sock_name x) sname
       | None => false
       end)
    socks.

(** The three-way [if internal: ... elif type_ == "in": ... else: ...]
    of [add_socket], which appends the new socket to one collection. *)
Definition append_socket (internal : bool) (type_ : string)
  (sock : SockId) (c : Component) : Component :=
  if internal then set_internal_sockets (internal_sockets c ++ [sock]) c
  else if String.eqb type_ "in" then
    set_input_sockets (input_sockets c ++ [sock]) c
  else set_output_sockets (output_sockets c ++ [sock]) c.

(** [add_socket(name, value=None, type=None, internal=False)] *)
Definition add_socket (self : CompId) (sname : string) (value : option Z)
  (type_ : option string) (internal : bool) (h : Heap) : result Heap :=
  c <- get_component h self ;;
  let all_names :=
    names_of h (input_sockets c ++ output_sockets c ++ internal_sockets c) in
  type_ <- match type_ with
           | Some t => Ok t
           | None =>
               match search_direction sname with
               | Some g => Ok g
               | None => Raise YARLError
               end
           end ;;
  if bool_decide (sname ∈ all_names) then Raise YARLError
  else
    let (sock, h1) := alloc_sock (mkSocket sname self type_ None [] []) h in
    h2 <- update_component self (append_socket internal type_ sock) h1 ;;
    match value with
    | Some v => connect_from sock (ToDataOp (SingleDataOp v)) None h2
    | None => Ok h2
    end.

(** [add_sockets] over the given socket names, with its keyword
    arguments [type] and [internal]. *)
Definition add_sockets (self : CompId) (socket_names : list string)
  (type_ : option string) (internal : bool) (h : Heap) : result Heap :=
  for_each (fun n h => add_socket self n None type_ internal h)
    socket_names h.

(** [get_socket_by_name(component, name, type_=None)] (a static method) *)
Definition get_socket_by_name (h : Heap) (component : CompId)
  (sname : string) (type_ : option string) : result (option SockId) :=
  c <- get_component h component ;;
  if bool_decide (type_ <> Some "in") then
    let socket_obj :=
      first_named h sname (output_sockets c ++ internal_sockets c) in
    match type_, socket_obj with
    | None, None => Ok (first_named h sname (input_sockets c))
    | _, _ => Ok socket_obj
    end
  else
    Ok (first_named h sname (input_sockets c ++ internal_sockets c)).

(** ** Socket specifiers *)

(** The first item of a two-item specifier: a sub-component's name or a
    Component object. *)
Inductive CompRef : Set :=
| CompByName (n : string)
| CompObj (c : CompId).

(** Its second item: a socket name or a Socket object. *)
Inductive SockRef : Set :=
| SockByName (n : string)
| SockObj (s : SockId).

(** What [connect] and [get_socket] tell apart with [isinstance].
    [SpecSpaceSpec] is a dict or a key of [Space.__lookup_classes__],
    which [Space.from_spec] turns into a Space.  Numeric constants, whose
    socket is named after a fresh uuid, are left out. *)
Inductive Specifier : Set :=
| SpecNone
| SpecStr (n : string)
| SpecSocket (s : SockId)
| SpecPair (c : CompRef) (s : SockRef)
| SpecSpace (sp : Space)
| SpecSpaceSpec (d : string)
| SpecDataOp (op : DataOp)
| SpecComponent (c : CompId).

(** [Space.from_spec] on the opaque descriptor. *)
Definition Space_from_spec (d : string) : Space := SpaceObj d.

(** [self.sub_components.get(name)] *)
Definition dict_get {V : Type} (k : string) (d : list (string * V))
  : option V :=
  snd <$> List.find (fun kv => String.eqb (fst kv) k) d.

(** [k in d] *)
Definition dict_has {V : Type} (k : string) (d : list (string * V))
  : bool :=
  bool_decide (k ∈ map fst d).

(** The end of [get_socket], from [# No Socket found]: [socket_obj] is
    what the specifier resolved to and [socket_name] the name it gave. *)
Definition get_socket_finish (self : CompId) (socket_name : string)
  (socket_obj : option SockId) (create_internal_if_not_found : bool)
  (h : Heap) : result (SockId * Heap) :=
  match socket_obj with
  | Some s => Ok (s, h)
  | None =>
      if create_internal_if_not_found then
        h1 <- add_socket self socket_name None (Some "in") true h ;;
        (* socket_obj = self.get_socket(socket_name) *)
        again <- get_socket_by_name h1 self socket_name None ;;
        match again with
        | Some s => Ok (s, h1)
        | None => Raise YARLError
        end
      else Raise YARLError
  end.

(** [get_socket(socket=None, type_=None,
    create_internal_if_not_found=False)] *)
Definition get_socket (self : CompId) (socket : Specifier)
  (type_ : option string) (create_internal_if_not_found : bool)
  (h : Heap) : result (SockId * Heap) :=
  match socket with
  | SpecNone =>
      _ <- assert (bool_decide (type_ <> None)) ;;
      c <- get_component h self ;;
      let list_ :=
        if bool_decide (type_ = Some "out") then output_sockets c
        else input_sockets c in
      match list_ with
      | [s] => Ok (s, h)
      | _ => Raise AssertionError
      end
  | SpecStr n =>
      socket_obj <- get_socket_by_name h self n type_ ;;
      get_socket_finish self n socket_obj create_internal_if_not_found h
  | SpecSocket s => Ok (s, h)
  | SpecPair cref sref =>
      component <-
        match cref with
        | CompByName cn =>
            c <- get_component h self ;;
            match dict_get cn (sub_components c) with
            | Some x => Ok x
            | None => Raise YARLError
            end
        | CompObj x => Ok x
        end ;;
      match sref with
      | SockObj s => Ok (s, h)
      | SockByName n =>
          socket_obj <- get_socket_by_name h component n type_ ;;
          get_socket_finish self n socket_obj
            create_internal_if_not_found h
      end
  | SpecSpace _ | SpecSpaceSpec _ | SpecDataOp _ | SpecComponent _ =>
      (* not a two-item sequence: [len(socket)] or the assertion on it
         fails *)
      Raise TypeError
  end.

(** ** connect and disconnect *)

(** The first test of [_connect_disconnect]: [from_] is a Space, a dict,
    a SingleDataOp or a key of the lookup classes. *)
Definition space_or_data_op (from_ : Specifier) : option Endpoint :=
  match from_ with
  | SpecSpace sp => Some (ToSpace sp)
  | SpecSpaceSpec d => Some (ToSpace (Space_from_spec d))
  | SpecDataOp op => Some (ToDataOp op)
  | _ => None
  end.

(** The second test: [to_] is a Space, a dict or a key of the lookup
    classes. *)
Definition space_of (to_ : Specifier) : option Space :=
  match to_ with
  | SpecSpace sp => Some sp
  | SpecSpaceSpec d => Some (Space_from_spec d)
  | _ => None
  end.

(** The end of [_connect_disconnect], from
    [# (Dis)connect the two Sockets in both ways]. *)
Definition link_sockets (from_socket_obj to_socket_obj : SockId)
  (disconnect : bool) (label : option string) (h : Heap) : result Heap :=
  f <- get_sock h from_socket_obj ;;
  t <- get_sock h to_socket_obj ;;
  if disconnect then
    if bool_decide (sock_component f = sock_component t) then
      Raise YARLError
    else
      h1 <- disconnect_to from_socket_obj (ToSocket to_socket_obj) h ;;
      disconnect_from to_socket_obj (ToSocket from_socket_obj) label h1
  else
    h1 <- connect_to from_socket_obj (ToSocket to_socket_obj) h ;;
    connect_from to_socket_obj (ToSocket from_socket_obj) label h1.

(** [_connect_disconnect(from_, to_, disconnect=False, label=None)].
    In the Component-to-Component case the source calls
    [self.connect(out_sock, in_sock)] on Socket objects, which reaches
    the end of this method with [disconnect=False]: that call is
    [link_sockets _ _ false None]. *)
Definition _connect_disconnect (self : CompId) (from_ to_ : Specifier)
  (disconnect : bool) (label : option string) (h : Heap) : result Heap :=
  match space_or_data_op from_ with
  | Some from_obj =>
      p <- get_socket self to_ None false h ;;
      let '(to_socket_obj, h1) := p in
      t <- get_sock h1 to_socket_obj ;;
      _ <- assert (String.eqb (sock_type t) "in") ;;
      if negb disconnect then connect_from to_socket_obj from_obj label h1
      else disconnect_from to_socket_obj from_obj label h1
  | None =>
      match space_of to_ with
      | Some to_space =>
          p <- get_socket self from_ None false h ;;
          let '(from_socket_obj, h1) := p in
          f <- get_sock h1 from_socket_obj ;;
          _ <- assert (String.eqb (sock_type f) "out") ;;
          if negb disconnect then
            connect_to from_socket_obj (ToSpace to_space) h1
          else disconnect_to from_socket_obj (ToSpace to_space) h1
      | None =>
          match from_, to_ with
          | SpecComponent fc, SpecComponent tc =>
              f <- get_component h fc ;;
              t <- get_component h tc ;;
              _ <- assert (length (output_sockets f) =?
                           length (input_sockets t))%nat ;;
              for_each
                (fun pair h => link_sockets (fst pair) (snd pair) false None h)
                (combine (output_sockets f) (input_sockets t)) h
          | _, _ =>
              p <- match from_ with
                   | SpecComponent fc =>
                       get_socket fc SpecNone (Some "out") false h
                   | _ => get_socket self from_ None false h
                   end ;;
              let '(from_socket_obj, h1) := p in
              q <- match to_ with
                   | SpecComponent tc =>
                       get_socket tc SpecNone (Some "in") false h1
                   | _ => get_socket self to_ None false h1
                   end ;;
              let '(to_socket_obj, h2) := q in
              link_sockets from_socket_obj to_socket_obj disconnect label h2
          end
      end
  end.

(** [connect(from_, to_)] *)
Definition connect (self : CompId) (from_ to_ : Specifier) (h : Heap)
  : result Heap :=
  _connect_disconnect self from_ to_ false None h.

(** [disconnect(from_, to_)] *)
Definition disconnect (self : CompId) (from_ to_ : Specifier) (h : Heap)
  : result Heap :=
  _connect_disconnect self from_ to_ true None h.

(** ** Construction *)

(** [define_inputs( *sockets, space=None)] *)
Definition define_inputs (self : CompId) (socks : list string)
  (space_ : option Space) (h : Heap) : result Heap :=
  h1 <- add_sockets self socks (Some "in") false h ;;
  match space_ with
  | None => Ok h1
  | Some sp =>
      for_each
        (fun socket h =>
           p <- get_socket self (SpecStr socket) None false h ;;
           let '(s, h') := p in
           x <- get_sock h' s ;;
           connect self (SpecSpace sp) (SpecStr (sock_name x)) h')
        socks h1
  end.

(** [define_outputs( *sockets)] *)
Definition define_outputs (self : CompId) (socks : list string)
  (h : Heap) : result Heap :=
  add_sockets self socks (Some "out") false h.

(** The defaults of the four flags in [__init__]. *)
Definition default_ops_flags : OpsFlags := mkOpsFlags true false false true.

(** [Component.__init__] with the keyword arguments [scope], [name]
    ([None]: not given, the scope is used), the four flags, [inputs] and
    [outputs]; no sub-component specifications and no connections are
    passed.  [methods] are the [_graph_] members of the class. *)
Definition Component_init (scope_ : string) (name_ : option string)
  (flags : OpsFlags) (methods : list string)
  (inputs outputs : list string) (h : Heap) : result (CompId * Heap) :=
  _ <- assert (scope_pattern_matches scope_) ;;
  let (self, h1) :=
    alloc_component
      (mkComponent scope_ scope_ (default scope_ name_) flags [] [] None
         [] [] [] false [] ∅ methods) h in
  h2 <- define_inputs self inputs None h1 ;;
  h3 <- define_outputs self outputs h2 ;;
  Ok (self, h3).

(** ** Operation bindings *)

(** [[self.get_socket(s, create_internal_if_not_found=True) for s in
    specs]] *)
Fixpoint get_sockets_or_create (self : CompId) (specs : list Specifier)
  (h : Heap) : result (list SockId * Heap) :=
  match specs with
  | [] => Ok ([], h)
  | s :: rest =>
      p <- get_socket self s None true h ;;
      let '(x, h1) := p in
      q <- get_sockets_or_create self rest h1 ;;
      let '(xs, h2) := q in
      Ok (x :: xs, h2)
  end.

(** [re.sub(r'^_graph_', "", m)] *)
Definition strip_graph_prefix (m : string) : string :=
  default m (strip_prefix "_graph_" m).

(** [add_graph_fn(inputs, outputs, method=None, flatten_ops=None,
    split_ops=None, add_auto_key_as_first_param=None,
    unflatten_ops=None)], the two lists already forced to lists. *)
Definition add_graph_fn (self : CompId) (inputs outputs : list Specifier)
  (method : option string)
  (flatten_ops_ split_ops_ add_auto_key_ unflatten_ops_ : option bool)
  (h : Heap) : result Heap :=
  c <- get_component h self ;;
  method <- match method with
            | Some m => Ok m
            | None =>
                match graph_methods c with
                | [m] => Ok (strip_graph_prefix m)
                | _ => Raise YARLError
                end
            end ;;
  p <- get_sockets_or_create self inputs h ;;
  let '(input_socks, h1) := p in
  q <- get_sockets_or_create self outputs h1 ;;
  let '(output_socks, h2) := q in
  let flags :=
    mkOpsFlags
      (default (flatten_ops (default_flags c)) flatten_ops_)
      (default (split_ops (default_flags c)) split_ops_)
      (default (add_auto_key_as_first_param (default_flags c))
         add_auto_key_)
      (default (unflatten_ops (default_flags c)) unflatten_ops_) in
  let (graph_fn, h3) :=
    alloc_graph_fn
      (mkGraphFunction method self input_socks output_socks flags) h2 in
  h4 <- update_component self
          (fun c => set_graph_fns (graph_fns c ++ [graph_fn]) c) h3 ;;
  h5 <- for_each (fun s h => connect_to s (ToGraphFn graph_fn) h)
          input_socks h4 ;;
  h6 <- for_each (fun s h => connect_from s (ToGraphFn graph_fn) None h)
          output_socks h5 ;;
  if (length input_socks =? 0)%nat then
    update_component self
      (fun c =>
         set_no_input_entry_points (no_input_entry_points c ++ [graph_fn])
           c)
      h6
  else Ok h6.

(** ** Input completeness *)

(** [check_input_completeness()] *)
Definition check_input_completeness (self : CompId) (h : Heap)
  : result Heap :=
  c <- get_component h self ;;
  if negb (input_complete c) then
    h1 <- update_component self (set_input_complete true) h ;;
    for_each
      (fun in_sock h =>
         s <- get_sock h in_sock ;;
         match space s with
         | None => update_component self (set_input_complete false) h
         | Some _ => Ok h
         end)
      (input_sockets c) h1
  else Ok h.

(** ** The component tree *)

(** [propagate_scope(sub_component)]; [limit] is the recursion limit of
    the interpreter. *)
Fixpoint propagate_scope (limit : nat) (self sub_component : CompId)
  (h : Heap) : result Heap :=
  match limit with
  | O => Raise RecursionError
  | S limit' =>
      me <- get_component h self ;;
      sub <- get_component h sub_component ;;
      let h1 :=
        if bool_decide (global_scope me <> "") then
          put_component sub_component
            (set_global_scope
               (global_scope me ++
                (if bool_decide (scope sub <> "") then "/" ++ scope sub
                 else ""))
               sub)
            h
        else h in
      for_each (fun sc h => propagate_scope limit' sub_component sc h)
        (map snd (sub_components sub)) h1
  end.

(** [self.sub_components[name] = component] *)
Definition dict_set {V : Type} (k : string) (v : V)
  (d : list (string * V)) : list (string * V) :=
  if dict_has k d then
    map (fun kv => if String.eqb (fst kv) k then (k, v) else kv) d
  else d ++ [(k, v)].

(** [add_component(component, connections=None)]: the connection
    specification is left at its default, so that [connect_spec] stays
    empty and the loop that exposes sockets does not run. *)
Definition add_component (limit : nat) (self component : CompId)
  (h : Heap) : result Heap :=
  me <- get_component h self ;;
  sub <- get_component h component ;;
  if dict_has (name sub) (sub_components me) then Raise YARLError
  else if bool_decide (parent_component sub <> None) then Raise YARLError
  else
    h1 <- update_component component (set_parent_component (Some self)) h ;;
    h2 <- update_component self
            (fun c =>
               set_sub_components
                 (dict_set (name sub) component (sub_components c)) c)
            h1 ;;
    propagate_scope limit self component h2.

(** ** The variable registry *)

(** The key under which [get_variable] registers a variable. *)
Definition variable_key (c : Component) (vname : string) : string :=
  (if bool_decide (global_scope c <> "") then global_scope c ++ "/"
   else "") ++ vname.

(** [get_variable(name, ...)].  [created = None] is the call as a getter
    ([shape], [initializer] and [from_space] all [None]); [Some var] is
    the call as a setter, [var] being the handle the backend returns. *)
Definition get_variable (self : CompId) (vname : string)
  (created : option Var) (h : Heap) : result (Var * Heap) :=
  c <- get_component h self ;;
  match created with
  | None =>
      match variables c !! vname with
      | Some v => Ok (v, h)
      | None => Raise KeyError
      end
  | Some var =>
      h1 <- update_component self
              (fun c =>
                 set_variables (<[variable_key c vname := var]> (variables c))
                   c)
              h ;;
      Ok (var, h1)
  end.

(** [d.keys()] *)
Definition dict_keys (d : gmap string Var) : list string :=
  map fst (map_to_list d).

(** The body of the loop of [propagate_variables]: the assertion and
    [self.parent_component.variables[key] = self.variables[key]]. *)
Definition propagate_key (self parent : CompId) (key : string) (h : Heap)
  : result Heap :=
  p <- get_component h parent ;;
  _ <- assert (bool_decide (variables p !! key = None)) ;;
  me <- get_component h self ;;
  match variables me !! key with
  | Some v =>
      update_component parent
        (fun p => set_variables (<[key := v]> (variables p)) p) h
  | None => Raise KeyError
  end.

(** [propagate_variables(keys=None)]; [limit] is the recursion limit.
    [keys or self.variables.keys()] takes the component's own keys when
    [keys] is [None] or empty. *)
Fixpoint propagate_variables (limit : nat) (self : CompId)
  (keys : option (list string)) (h : Heap) : result Heap :=
  match limit with
  | O => Raise RecursionError
  | S limit' =>
      me <- get_component h self ;;
      match parent_component me with
      | None => Ok h
      | Some parent =>
          let keys :=
            match keys with
            | Some (k :: ks) => k :: ks
            | _ => dict_keys (variables me)
            end in
          h1 <- for_each (propagate_key self parent) keys h ;;
          propagate_variables limit' parent (Some keys) h1
      end
  end.

(** [when_input_complete(input_spaces)]: [check_input_spaces] does
    nothing in the base class, [create_variables] is the hook a subclass
    overrides, and the created variables are then propagated. *)
Definition when_input_complete (limit : nat) (self : CompId)
  (create_variables : CompId -> Heap -> result Heap) (h : Heap)
  : result Heap :=
  h1 <- create_variables self h ;;
  propagate_variables limit self None h1.

(** ** Notions used by the statements *)

(** The direction [add_socket] works with: the one given, or the one the
    name pattern yields. *)
Definition socket_direction (type_ : option string) (sname : string)
  : option string :=
  match type_ with
  | Some t => Some t
  | None => search_direction sname
  end.

(** A character next to which the name pattern accepts a keyword: a
    digit or an underscore (which the pattern consumes) or a character
    that is no word character (a boundary); every other word character
    (a letter, for one) glues the keyword to its neighbour. *)
Definition delimits (c : ascii) : bool :=
  is_digit_or_underscore c || negb (is_word c).

(** The last character before a position, given the text [pre] up to it
    and the character [prev] before that text. *)
Fixpoint last_char (prev : option ascii) (pre : string) : option ascii :=
  match pre with
  | EmptyString => prev
  | String c rest => last_char (Some c) rest
  end.

(** [s], read after the character [prev], has the keyword [g ++ "put"]
    ([g] is [in] or [out]) after the prefix [pre], with a delimiting
    character, or nothing, on either side of it. *)
Definition delimited_keyword (prev : option ascii) (s : string)
  (pre : string) (g : string) : Prop :=
  exists post,
    s = pre ++ g ++ "put" ++ post /\
    (g = "in" \/ g = "out") /\
    from_option delimits true (last_char prev pre) = true /\
    from_option delimits true (head_char post) = true.

(** The occurrence after [pre] is the leftmost one. *)
Definition leftmost_delimited_keyword (s pre g : string) : Prop :=
  delimited_keyword None s pre g /\
  forall pre' g',
    delimited_keyword None s pre' g' ->
    String.length pre <= String.length pre'.


(** The left-hand condition on an occurrence found by a search that
    starts after the character [prev]: an occurrence at the very start
    needs a boundary there (a digit or underscore before it belongs to
    an earlier start position); any later one needs a delimiting
    character before it. *)
Definition left_ok (prev : option ascii) (pre : string) : bool :=
  match pre with
  | EmptyString => from_option (fun c => negb (is_word c)) true prev
  | String c rest => from_option delimits true (last_char (Some c) rest)
  end.

(** An occurrence that [search_direction_from prev s] can find after the
    prefix [pre]. *)
Definition found_keyword (prev : option ascii) (s pre g : string) : Prop :=
  exists s', s = pre ++ s' /\ match_put_and_closing s' = Some g /\
             left_ok prev pre = true.

(** The socket object [add_socket] leaves in the store: created
    unconnected, and connected from the constant when one is given. *)
Definition new_socket (self : CompId) (sname type_ : string)
  (value : option Z) : Socket :=
  mkSocket sname self type_ None
    (match value with
     | Some v => [ToDataOp (SingleDataOp v)]
     | None => []
     end)
    [].

(** A store holding one component, built by the constructor with the
    scope and name [c] and no sockets. *)
Definition one_component_heap : Heap :=
  mkHeap
    [mkComponent "c" "c" "c" default_ops_flags [] [] None [] [] [] false []
       ∅ []]
    [] [].

(** A store holding one component with one input socket [x]. *)
Definition heap_with_input_x : Heap :=
  mkHeap
    [mkComponent "c" "c" "c" default_ops_flags [] [] None [0] [] [] false []
       ∅ []]
    [mkSocket "x" 0 "in" None [] []] [].

(** [in_sock.space is not None] for a socket of the store. *)
Definition resolved (h : Heap) (s : SockId) : bool :=
  match sockets h !! s with
  | Some x => bool_decide (space x <> None)
  | None => false
  end.

(** Every socket object listed as an input socket is in the store. *)
Definition input_sockets_exist (h : Heap) : Prop :=
  forall k x s,
    components h !! k = Some x -> s ∈ input_sockets x ->
    is_Some (sockets h !! s).

(** A store with one component whose two input sockets are resolved. *)
Definition heap_with_resolved_inputs : Heap :=
  mkHeap
    [mkComponent "c" "c" "c" default_ops_flags [] [] None [0; 1] [] []
       false [] ∅ []]
    [mkSocket "x" 0 "in" (Some (SpaceObj "float")) [] [];
     mkSocket "z" 0 "in" (Some (SpaceObj "int")) [] []]
    [].

(** A store holding one component with an input socket [x] (object 0)
    and an output socket [y] (object 1). *)
Definition heap_with_in_and_out : Heap :=
  mkHeap
    [mkComponent "c" "c" "c" default_ops_flags [] [] None [0] [1] [] false
       [] ∅ []]
    [mkSocket "x" 0 "in" None [] []; mkSocket "y" 0 "out" None [] []]
    [].

(** What [connect]/[disconnect] with a space or constant does to the
    incoming connections of the target socket. *)
Definition attach_incoming (disconnect : bool) (from_obj : Endpoint)
  (x : Socket) : Socket :=
  if disconnect then
    set_incoming_connections
      (remove_endpoint from_obj (incoming_connections x)) x
  else set_incoming_connections (incoming_connections x ++ [from_obj]) x.

(** The same for the outgoing connections of the source socket. *)
Definition attach_outgoing (disconnect : bool) (to_obj : Endpoint)
  (x : Socket) : Socket :=
  if disconnect then
    set_outgoing_connections
      (remove_endpoint to_obj (outgoing_connections x)) x
  else set_outgoing_connections (outgoing_connections x ++ [to_obj]) x.

(** All socket objects of a component, in the order in which
    [add_socket] concatenates the three collections. *)
Definition all_sockets (c : Component) : list SockId :=
  input_sockets c ++ output_sockets c ++ internal_sockets c.

(** What never changes on a socket after its creation. *)
Definition sock_sig (x : Socket) : string * nat * string :=
  (sock_name x, sock_component x, sock_type x).

(** [h] is [h0] after component [self] has been given further internal
    sockets of type [in], and nothing else has changed. *)
Definition grown (self : CompId) (h0 h : Heap) : Prop :=
  exists c0 news,
    components h0 !! self = Some c0 /\
    components h =
      <[self := set_internal_sockets
                  (internal_sockets c0 ++
                   seq (length (sockets h0)) (length news)) c0]>
        (components h0) /\
    sockets h = (sockets h0 ++ news)%list /\
    graph_functions h = graph_functions h0 /\
    Forall (fun x => sock_type x = "in" /\ sock_component x = self) news.

(** The notes kept about each resolved name: the socket object that
    carries it, and that this object is new when the name was. *)
Definition resolved_as (h0 h : Heap) (self : CompId) (n : string)
  (s : SockId) : Prop :=
  (exists x, sockets h !! s = Some x /\ sock_name x = n) /\
  (forall c0,
     components h0 !! self = Some c0 ->
     n ∉ names_of h0 (all_sockets c0) -> length (sockets h0) <= s).

(** A store with one component that has an input socket [x] (object 0),
    an output socket [y] (object 1) and one [_graph_] method. *)
Definition heap_with_graph_method : Heap :=
  mkHeap
    [mkComponent "c" "c" "c" default_ops_flags [] [] None [0] [1] [] false
       [] ∅ ["_graph_f"]]
    [mkSocket "x" 0 "in" None [] []; mkSocket "y" 0 "out" None [] []]
    [].

(** ** The tree read off the store *)

(** The sub-component objects of a component, in insertion order. *)
Definition children (x : Component) : list CompId :=
  map snd (sub_components x).

(** [a] is [x] or one of its ancestors along [parent_component]. *)
Inductive anc (cs : list Component) (a : CompId) : CompId -> Prop :=
| anc_refl : anc cs a a
| anc_step (x : CompId) (xx : Component) (p : CompId) :
    cs !! x = Some xx -> parent_component xx = Some p ->
    anc cs a p -> anc cs a x.

(** The number of ancestors of a component. *)
Inductive has_depth (cs : list Component) : CompId -> nat -> Prop :=
| has_depth_root (c : CompId) (x : Component) :
    cs !! c = Some x -> parent_component x = None -> has_depth cs c 0
| has_depth_child (c : CompId) (x : Component) (p : CompId) (n : nat) :
    cs !! c = Some x -> parent_component x = Some p ->
    has_depth cs p n -> has_depth cs c (S n).

(** There is a chain of [n] sub-component links that starts at [c]. *)
Inductive descends (cs : list Component) : CompId -> nat -> Prop :=
| descends_O (c : CompId) : descends cs c 0
| descends_S (c : CompId) (x : Component) (d : CompId) (n : nat) :
    cs !! c = Some x -> d ∈ children x -> descends cs d n ->
    descends cs c (S n).

(** The components of a store form a forest: [sub_components] and
    [parent_component] mirror each other, no component is listed twice
    by its parent, and every component is finitely far from a root. *)
Record forest (cs : list Component) : Prop := mkForest {
  forest_child_parent :
    forall p px c,
      cs !! p = Some px -> c ∈ children px ->
      exists cx, cs !! c = Some cx /\ parent_component cx = Some p;
  forest_parent_child :
    forall c cx p,
      cs !! c = Some cx -> parent_component cx = Some p ->
      exists px, cs !! p = Some px /\ c ∈ children px;
  forest_children_nodup :
    forall p px, cs !! p = Some px -> NoDup (children px);
  forest_depth :
    forall c cx, cs !! c = Some cx -> exists n, has_depth cs c n
}.

(** Two lists of components that differ in global scopes only. *)
Definition same_shape (cs cs' : list Component) : Prop :=
  map (set_global_scope "") cs = map (set_global_scope "") cs'.

(** The global scope [propagate_scope] gives a component whose parent
    has the global scope [g]; under a parent with an empty global scope
    the component keeps its own, which is its scope. *)
Definition join_scope (g s : string) : string :=
  if bool_decide (g <> "") then
    g ++ (if bool_decide (s <> "") then "/" ++ s else "")
  else s.

(** The global scope of component [k] fits that of its parent. *)
Definition scope_ok (cs : list Component) (k : CompId) : Prop :=
  forall x,
    cs !! k = Some x ->
    match parent_component x with
    | None => global_scope x = scope x
    | Some p =>
        exists px,
          cs !! p = Some px /\
          global_scope x = join_scope (global_scope px) (scope x)
    end.

(** The invariant of the component tree. *)
Definition tree_inv (h : Heap) : Prop :=
  forest (components h) /\ forall k, scope_ok (components h) k.

(** The scopes on the way from the root of a tree down to a component. *)
Inductive scope_path (cs : list Component) : CompId -> list string -> Prop :=
| scope_path_root (c : CompId) (x : Component) :
    cs !! c = Some x -> parent_component x = None ->
    scope_path cs c [scope x]
| scope_path_child (c : CompId) (x : Component) (p : CompId)
    (l : list string) :
    cs !! c = Some x -> parent_component x = Some p ->
    scope_path cs p l -> scope_path cs c (l ++ [scope x]).

(** ["/".join(l)] *)
Fixpoint join_slash (l : list string) : string :=
  match l with
  | [] => ""
  | [s] => s
  | s :: rest => s ++ "/" ++ join_slash rest
  end.

(** The scopes of a path that are not empty. *)
Definition nonempty_scopes (l : list string) : list string :=
  filter (fun s => s <> "") l.

(** The stores reached by successful calls of the constructor and of
    [add_component], in any order and on any components. *)
Inductive assembled : Heap -> Prop :=
| assembled_empty : assembled empty_heap
| assembled_init (h h' : Heap) (scope_ : string) (name_ : option string)
    (flags : OpsFlags) (methods inputs outputs : list string)
    (c : CompId) :
    assembled h ->
    Component_init scope_ name_ flags methods inputs outputs h = Ok (c, h') ->
    assembled h'
| assembled_add (h h' : Heap) (limit : nat) (self component : CompId) :
    assembled h ->
    add_component limit self component h = Ok h' ->
    assembled h'.

(** The assignment at the head of [propagate_scope]: [me] is the
    component [self] and [sub] the component [c] before it. *)
Definition rescoped (me sub : Component) (c : CompId) (h : Heap) : Heap :=
  if bool_decide (global_scope me <> "") then
    put_component c
      (set_global_scope
         (global_scope me ++
          (if bool_decide (scope sub <> "") then "/" ++ scope sub else ""))
         sub)
      h
  else h.

(** Two stores that differ in global scopes only. *)
Definition only_scopes (h h' : Heap) : Prop :=
  same_shape (components h) (components h') /\
  sockets h' = sockets h /\
  graph_functions h' = graph_functions h.

(** What [propagate_scope(c)] called on [p] expects of the store: the
    components strictly below [c] fit their parents, and [c] fits [p]
    already when [p] has an empty global scope.  [S] is the tree. *)
Definition propagate_scope_pre (S : list Component) (p c : CompId)
  (h : Heap) : Prop :=
  (forall x, anc S c x -> x <> c -> scope_ok (components h) x) /\
  (forall px,
     components h !! p = Some px -> global_scope px = "" ->
     scope_ok (components h) c).

(** What it leaves: only global scopes have changed, and only at [c] and
    below, where every component now fits its parent. *)
Definition propagate_scope_post (S : list Component) (c : CompId)
  (h h' : Heap) : Prop :=
  only_scopes h h' /\
  (forall x, ~ anc S c x -> components h' !! x = components h !! x) /\
  (forall x, anc S c x -> scope_ok (components h') x).

Definition propagate_scope_correct (S : list Component) (limit : nat)
  : Prop :=
  forall p c h h' sc,
    same_shape S (components h) ->
    S !! c = Some sc -> parent_component sc = Some p ->
    propagate_scope_pre S p c h ->
    propagate_scope limit p c h = Ok h' ->
    propagate_scope_post S c h h'.

(** The state of the loop over the sub-components of [c] after those in
    [done]; [h1] is the store at the start of the loop. *)
Definition loop_inv (S : list Component) (h1 : Heap)
  (done : list CompId) (hk : Heap) : Prop :=
  only_scopes h1 hk /\
  (forall x,
     (forall d, d ∈ done -> ~ anc S d x) ->
     components hk !! x = components h1 !! x) /\
  (forall d x, d ∈ done -> anc S d x -> scope_ok (components hk) x).

(** The two assignments of [add_component] before [propagate_scope], as
    they show on the component object [k]: [component] gets [self] as
    its parent, and [self] gets [component] as a further sub-component
    under the name [n]. *)
Definition linked_entry (self component : CompId) (n : string)
  (k : CompId) (x : Component) : Component :=
  let x1 :=
    if bool_decide (k = component) then
      set_parent_component (Some self) x
    else x in
  if bool_decide (k = self) then
    set_sub_components (sub_components x1 ++ [(n, component)]) x1
  else x1.

Definition linked (self component : CompId) (n : string) (h : Heap)
  : Heap :=
  mkHeap (imap (linked_entry self component n) (components h))
    (sockets h) (graph_functions h).

(** The attributes of a component that make up the tree. *)
Definition struct_view (x : Component)
  : string * string * option CompId * list (string * CompId) :=
  (scope x, name x, parent_component x, sub_components x).

(** Two lists of components with the same tree. *)
Definition same_struct (cs cs' : list Component) : Prop :=
  map struct_view cs = map struct_view cs'.

(** Two lists of components with the same tree and global scopes. *)
Definition same_tree (cs cs' : list Component) : Prop :=
  map (fun x => (struct_view x, global_scope x)) cs =
  map (fun x => (struct_view x, global_scope x)) cs'.

(** The store after [P = Component(scope="")], [C = Component(scope="c")]
    and [P.add_component(C)]. *)
Definition heap_root_without_scope : Heap :=
  mkHeap
    [mkComponent "" "" "" default_ops_flags [("c", 1)] [] None [] [] []
       false [] ∅ [];
     mkComponent "c" "c" "c" default_ops_flags [] [] (Some 0) [] [] []
       false [] ∅ []]
    [] [].

(** The store after [A = Component(scope="a")], [B = Component(scope="b")],
    [G = Component(scope="g")], [B.add_component(G)] and then
    [A.add_component(B)]: the grandchild was attached first. *)
Definition heap_grandchild_first : Heap :=
  mkHeap
    [mkComponent "a" "a" "a" default_ops_flags [("b", 1)] [] None [] [] []
       false [] ∅ [];
     mkComponent "b" "a/b" "b" default_ops_flags [("g", 2)] [] (Some 0) []
       [] [] false [] ∅ [];
     mkComponent "g" "a/b/g" "g" default_ops_flags [] [] (Some 1) [] [] []
       false [] ∅ []]
    [] [].

(** The component object that [Component(scope=s)] creates. *)
Definition fresh_component (s : string) : Component :=
  mkComponent s s s default_ops_flags [] [] None [] [] [] false [] ∅ [].

(** The store after [Component(scope="p")] and [Component(scope="c")]. *)
Definition heap_two_roots : Heap :=
  mkHeap [fresh_component "p"; fresh_component "c"] [] [].

(** ** The registries along the ancestors *)

(** [a] is an ancestor of [x], and not [x] itself. *)
Definition proper_anc (cs : list Component) (a x : CompId) : Prop :=
  exists xx p,
    cs !! x = Some xx /\ parent_component xx = Some p /\ anc cs a p.

(** From [h] to [h'] no component has changed its parent, and a
    registry entry that agreed with [m] on one of [keys] still does. *)
Definition registry_grows (keys : list string) (m : gmap string Var)
  (h h' : Heap) : Prop :=
  forall y yy,
    components h !! y = Some yy ->
    exists yy',
      components h' !! y = Some yy' /\
      parent_component yy' = parent_component yy /\
      forall k, k ∈ keys -> variables yy !! k = m !! k ->
                variables yy' !! k = m !! k.

(** The store after [P = Component(scope="p")], [C = Component(scope="c")]
    and [P.add_component(C)]. *)
Definition heap_parent_child : Heap :=
  mkHeap
    [set_sub_components [("c", 1)] (fresh_component "p");
     set_global_scope "p/c"
       (set_parent_component (Some 0) (fresh_component "c"))]
    [] [].

(** [heap_parent_child] after the child has created the variable [w]. *)
Definition heap_child_variable : Heap :=
  mkHeap
    [set_sub_components [("c", 1)] (fresh_component "p");
     set_variables {["p/c/w" := VarHandle 1]}
       (set_global_scope "p/c"
          (set_parent_component (Some 0) (fresh_component "c")))]
    [] [].

(** * Further methods and the notions their properties use *)

(** The store after [G = Component(scope="g")], [P = Component(scope="p")],
    [C = Component(scope="c")], [P.add_component(C)],
    [G.add_component(P)], the creation of the variable [w] by [P] and
    [P.propagate_variables()]: the registry of [C] is empty. *)
Definition heap_completed_parent : Heap :=
  mkHeap
    [set_variables {["g/p/w" := VarHandle 1]}
       (set_sub_components [("p", 1)] (fresh_component "g"));
     set_variables {["g/p/w" := VarHandle 1]}
       (set_sub_components [("c", 2)]
          (set_global_scope "g/p"
             (set_parent_component (Some 0) (fresh_component "p"))));
     set_global_scope "g/p/c"
       (set_parent_component (Some 1) (fresh_component "c"))]
    [] [].

(** Every sub-component listed in the store is an object of the store. *)
Definition children_exist (cs : list Component) : Prop :=
  forall p px c, cs !! p = Some px -> c ∈ children px -> is_Some (cs !! c).

(** The collection that [add_socket] selects by [internal] and the
    type, extended by several socket objects at once. *)
Definition append_sockets (internal : bool) (type_ : string)
  (socks : list SockId) (c : Component) : Component :=
  if internal then set_internal_sockets (internal_sockets c ++ socks) c
  else if String.eqb type_ "in" then
    set_input_sockets (input_sockets c ++ socks) c
  else set_output_sockets (output_sockets c ++ socks) c.

(** Every socket object listed by the component is in the store. *)
Definition sockets_exist (h : Heap) (c : Component) : Prop :=
  forall s, s ∈ all_sockets c -> s < length (sockets h).

(** The names are pairwise different and none is the name of a socket
    of the component. *)
Definition fresh_names (h : Heap) (c : Component) (names : list string)
  : Prop :=
  NoDup names /\ forall n, n ∈ names -> n ∉ names_of h (all_sockets c).

(** The store after [add_sockets] has created the sockets [names] of
    type [type_] on component [self], which was [c]. *)
Definition with_new_sockets (self : CompId) (c : Component)
  (names : list string) (type_ : string) (internal : bool) (h : Heap)
  : Heap :=
  mkHeap
    (<[self := append_sockets internal type_
                 (seq (length (sockets h)) (length names)) c]>
       (components h))
    (sockets h ++ map (fun n => new_socket self n type_ None) names)
    (graph_functions h).

(** The component object that the constructor leaves in the store when
    the first of its sockets is the object [first]. *)
Definition constructed (scope_ : string) (name_ : option string)
  (flags : OpsFlags) (methods : list string) (first : SockId)
  (inputs outputs : list string) : Component :=
  mkComponent scope_ scope_ (default scope_ name_) flags [] [] None
    (seq first (length inputs))
    (seq (first + length inputs) (length outputs))
    [] false [] ∅ methods.

(** [get_input(socket=None)] *)
Definition get_input (self : CompId) (socket : Specifier) (h : Heap)
  : result (SockId * Heap) :=
  get_socket self socket (Some "in") false h.

(** [get_output(socket=None)] *)
Definition get_output (self : CompId) (socket : Specifier) (h : Heap)
  : result (SockId * Heap) :=
  get_socket self socket (Some "out") false h.
(** * Properties *)

(** String concatenation unfolds on a literal prefix. *)
#[local] Arguments String.append !s1 s2 : simpl nomatch.

(** ** The result monad *)

Lemma bind_ok {A B : Type} (r : result A) (k : A -> result B) (b : B) :
  bind r k = Ok b -> exists a, r = Ok a /\ k a = Ok b.
Proof. destruct r as [a|e]; simpl; [eauto | discriminate]. Qed.

Lemma bind_raise {A B : Type} (r : result A) (k : A -> result B) e :
  r = Raise e -> bind r k = Raise e.
Proof. intros ->. reflexivity. Qed.

Lemma assert_ok (b : bool) (u : unit) : assert b = Ok u -> b = true.
Proof. destruct b; [reflexivity | discriminate]. Qed.

Lemma for_each_cons {A S : Type} (body : A -> S -> result S) (x : A)
  (l : list A) (s : S) :
  for_each body (x :: l) s = (s' <- body x s ;; for_each body l s').
Proof. reflexivity. Qed.

Lemma for_each_app {A S : Type} (body : A -> S -> result S)
  (l1 l2 : list A) (s : S) :
  for_each body (l1 ++ l2)%list s =
  (s' <- for_each body l1 s ;; for_each body l2 s').
Proof.
  revert s. induction l1 as [|x l1 IH]; intros s; simpl; [reflexivity | ].
  destruct (body x s) as [s1|e]; simpl; [apply IH | reflexivity].
Qed.

Tactic Notation "inv_bind" hyp(H) "as" ident(a) ident(Ha) :=
  apply bind_ok in H; destruct H as (a & Ha & H).

(** ** The scope pattern *)

Lemma at_dollar_cases (s : string) :
  at_dollar s = true <-> s = "" \/ s = String newline "".
Proof.
  destruct s as [|c [|c' s']]; simpl.
  - split; [auto | reflexivity].
  - split.
    + intros H. right. apply Nat.eqb_eq in H. f_equal.
      rewrite <- (ascii_nat_embedding c), H. reflexivity.
    + intros [H|H]; [discriminate | ]. injection H as ->. reflexivity.
  - split; [discriminate | intros [H|H]; discriminate].
Qed.

Lemma newline_not_scope_char : is_scope_char newline = false.
Proof. reflexivity. Qed.

(** What the source's pattern accepts: the strings of the class, and
    those followed by one newline. *)
Lemma scope_pattern_matches_iff (s : string) :
  scope_pattern_matches s = true <->
  all_scope_chars s = true \/
  exists s', s = s' ++ String newline "" /\ all_scope_chars s' = true.
Proof.
  unfold scope_pattern_matches. induction s as [|c s IH].
  - simpl. split; [auto | reflexivity].
  - change (match_scope_star (String c s))
      with ((is_scope_char c && match_scope_star s) || at_dollar (String c s)).
    rewrite orb_true_iff, andb_true_iff, IH, at_dollar_cases. simpl.
    rewrite andb_true_iff. split.
    + intros [[Hc [Hs | (s' & -> & Hs')]] | [H | H]].
      * left; auto.
      * right. exists (String c s'). simpl. rewrite Hc, Hs'. auto.
      * discriminate.
      * injection H as -> ->. right. exists "". auto.
    + intros [[Hc Hs] | (s' & Heq & Hs')].
      * left; auto.
      * destruct s' as [|c' s'']; simpl in *.
        -- injection Heq as -> ->. right; right; reflexivity.
        -- injection Heq as -> ->. apply andb_true_iff in Hs' as [Hc Hs'].
           left. split; [assumption | right; eauto].
Qed.

(** C9 (the code departs from the claim): the scope assertion of the
    constructor lets a scope through that ends in a newline, a character
    outside [[A-Za-z0-9_-]]: [$] also matches just before a final
    newline.  The claim says that such a scope fails the assertion. *)
Theorem scope_with_final_newline_is_accepted :
  let scope_ := "abc" ++ String newline "" in
  all_scope_chars scope_ = false /\
  scope_pattern_matches scope_ = true /\
  exists h,
    Component_init scope_ None default_ops_flags [] [] [] empty_heap
    = Ok (0, h).
Proof.
  cbv zeta. split; [reflexivity | split; [reflexivity | ]].
  eexists. reflexivity.
Qed.

(** ** The socket-name pattern *)

(** The search on a few names: a bare keyword, a keyword between an
    underscore and a digit, a keyword glued to letters, and a name with
    both keywords (the leftmost decides). *)
Example search_direction_input : search_direction "input" = Some "in".
Proof. reflexivity. Qed.

Example search_direction_my_output_2 :
  search_direction "my_output2" = Some "out".
Proof. reflexivity. Qed.

Example search_direction_myinput : search_direction "myinput" = None.
Proof. reflexivity. Qed.

Example search_direction_outputs : search_direction "outputs" = None.
Proof. reflexivity. Qed.

Example search_direction_output_input :
  search_direction "output_input" = Some "out".
Proof. reflexivity. Qed.

(** The letter e with an acute accent (code point 233) is a word
    character: it may stand in a scope, and a keyword that follows it
    is glued to it.  The copyright sign (169) is none: a scope with it
    fails the pattern, and it delimits a keyword. *)
Example scope_with_e_acute :
  scope_pattern_matches (String (ascii_of_nat 233) "") = true.
Proof. reflexivity. Qed.

Example search_direction_e_acute_input :
  search_direction (String (ascii_of_nat 233) "input") = None.
Proof. reflexivity. Qed.

Example scope_with_copyright_sign :
  scope_pattern_matches (String (ascii_of_nat 169) "") = false.
Proof. reflexivity. Qed.

Example search_direction_copyright_sign_input :
  search_direction (String (ascii_of_nat 169) "input") = Some "in".
Proof. reflexivity. Qed.

Lemma strip_prefix_Some (p s r : string) :
  strip_prefix p s = Some r <-> s = p ++ r.
Proof.
  revert s. induction p as [|a p IH]; intros s; simpl.
  - split; [intros [= ->] | intros ->]; reflexivity.
  - destruct s as [|b s].
    + split; discriminate.
    + destruct (Ascii.eqb_spec a b) as [->|Hne].
      * rewrite IH. split; [intros -> | intros [= ->]]; reflexivity.
      * split; [discriminate | intros [= -> _]; contradiction].
Qed.

Lemma match_in_out_put_Some (s g r : string) :
  match_in_out_put s = Some (g, r) <->
  (g = "in" \/ g = "out") /\ s = g ++ "put" ++ r.
Proof.
  unfold match_in_out_put.
  destruct (strip_prefix "input" s) as [r1|] eqn:E1.
  - apply strip_prefix_Some in E1. subst s. split.
    + intros [= <- <-]. auto.
    + intros [[->| ->] H]; simpl in H; [ | discriminate].
      injection H as ->. reflexivity.
  - destruct (strip_prefix "output" s) as [r2|] eqn:E2.
    + apply strip_prefix_Some in E2. subst s. split.
      * intros [= <- <-]. auto.
      * intros [[->| ->] H]; simpl in H; [discriminate | ].
        injection H as ->. reflexivity.
    + split; [discriminate | ].
      intros [[->| ->] ->].
      * simpl in E1. discriminate.
      * simpl in E2. discriminate.
Qed.

Lemma match_closing_delimits (r : string) :
  match_closing r = from_option delimits true (head_char r).
Proof. destruct r as [|c r]; reflexivity. Qed.

Lemma match_put_and_closing_Some (s g : string) :
  match_put_and_closing s = Some g <->
  exists post, s = g ++ "put" ++ post /\ (g = "in" \/ g = "out") /\
               from_option delimits true (head_char post) = true.
Proof.
  unfold match_put_and_closing.
  destruct (match_in_out_put s) as [[g' r]|] eqn:E.
  - apply match_in_out_put_Some in E as [Hg ->].
    rewrite match_closing_delimits.
    destruct (from_option delimits true (head_char r)) eqn:Hd.
    + split.
      * intros [= <-]. eauto.
      * intros (post & Heq & Hg' & _). f_equal.
        destruct Hg as [->| ->], Hg' as [->| ->]; simpl in Heq;
          congruence.
    + split; [discriminate | ].
      intros (post & Heq & Hg' & Hp).
      destruct Hg as [->| ->], Hg' as [->| ->]; simpl in Heq;
        try discriminate; injection Heq as ->; congruence.
  - split; [discriminate | ].
    intros (post & -> & Hg & _).
    assert (match_in_out_put (g ++ "put" ++ post) = Some (g, post)) as H
      by (apply match_in_out_put_Some; auto).
    congruence.
Qed.

(** A keyword starts with a letter: no digit, no underscore. *)
Lemma match_put_and_closing_head (c : ascii) (s g : string) :
  match_put_and_closing (String c s) = Some g ->
  is_digit_or_underscore c = false /\ is_word c = true.
Proof.
  intros H. apply match_put_and_closing_Some in H as (post & Heq & Hg & _).
  destruct Hg as [->| ->]; simpl in Heq; injection Heq as -> _;
    split; reflexivity.
Qed.

Lemma match_direction_at_Some (prev : option ascii) (s g : string) :
  match_direction_at prev s = Some g <->
  (exists c rest, s = String c rest /\ is_digit_or_underscore c = true /\
                  match_put_and_closing rest = Some g) \/
  (from_option (fun c => negb (is_word c)) true prev = true /\
   match_put_and_closing s = Some g).
Proof.
  unfold match_direction_at. destruct s as [|c rest].
  - simpl. unfold word_boundary. simpl. rewrite xorb_false_r.
    split.
    + destruct (from_option is_word false prev); discriminate.
    + intros [(c & rest & H & _) | [_ H]]; [discriminate | ].
      exfalso. apply match_put_and_closing_Some in H as (post & Heq & Hg & _).
      destruct Hg as [->| ->]; discriminate.
  - destruct (is_digit_or_underscore c) eqn:Hc.
    + destruct (match_put_and_closing rest) as [g'|] eqn:E.
      * split.
        -- intros [= <-]. left. eauto.
        -- intros [(c' & rest' & [= <- <-] & _ & H) | [_ H]].
           ++ congruence.
           ++ apply match_put_and_closing_head in H as [H _]. congruence.
      * split.
        -- destruct (word_boundary prev (head_char (String c rest)));
             [ | discriminate].
           intros H. apply match_put_and_closing_head in H as [H _].
           congruence.
        -- intros [(c' & rest' & [= <- <-] & _ & H) | [_ H]].
           ++ congruence.
           ++ apply match_put_and_closing_head in H as [H _]. congruence.
    + split.
      * destruct (word_boundary prev (head_char (String c rest))) eqn:Hb;
          [ | discriminate].
        intros H. right. split; [ | assumption].
        apply match_put_and_closing_head in H as [_ Hw].
        unfold word_boundary in Hb. simpl in Hb. rewrite Hw in Hb.
        destruct prev as [p|]; simpl in *; [ | reflexivity].
        destruct (is_word p); [discriminate | reflexivity].
      * intros [(c' & rest' & [= <- <-] & Hc' & _) | [Hp H]];
          [congruence | ].
        pose proof (match_put_and_closing_head _ _ _ H) as [_ Hw].
        unfold word_boundary. simpl. rewrite Hw.
        destruct prev as [p|]; simpl in *.
        -- destruct (is_word p); [discriminate | assumption].
        -- assumption.
Qed.

Lemma found_keyword_nil (prev : option ascii) (s g : string) :
  found_keyword prev s "" g <->
  from_option (fun c => negb (is_word c)) true prev = true /\
  match_put_and_closing s = Some g.
Proof.
  unfold found_keyword. simpl. split.
  - intros (s' & -> & H & Hl). auto.
  - intros [Hl H]. eauto.
Qed.

Lemma left_ok_cons (prev : option ascii) (c : ascii) (pre : string) :
  left_ok prev (String c pre) =
  match pre with
  | EmptyString => delimits c
  | String _ _ => left_ok (Some c) pre
  end.
Proof. destruct pre; reflexivity. Qed.

Lemma found_keyword_cons (prev : option ascii) (c : ascii)
  (rest pre g : string) :
  found_keyword prev (String c rest) pre g <->
  (pre = "" /\ found_keyword prev (String c rest) "" g) \/
  (pre = String c "" /\ is_digit_or_underscore c = true /\
   match_put_and_closing rest = Some g) \/
  (exists pre', pre = String c pre' /\ found_keyword (Some c) rest pre' g).
Proof.
  split.
  - intros (s' & Heq & HK & Hl). destruct pre as [|c' pre'].
    + left. split; [reflexivity | exists s'; auto].
    + right. simpl in Heq. injection Heq as <- ->.
      rewrite left_ok_cons in Hl. destruct pre' as [|d pre''].
      * unfold delimits in Hl. apply orb_true_iff in Hl as [Hl|Hl].
        -- left. auto.
        -- right. exists "". split; [reflexivity | ].
           apply found_keyword_nil. auto.
      * right. exists (String d pre''). split; [reflexivity | ].
        exists s'. auto.
  - intros [[-> H] | [(-> & Hc & HK) | (pre' & -> & s' & -> & HK & Hl)]].
    + assumption.
    + exists rest. split; [reflexivity | split; [assumption | ]].
      simpl. unfold delimits. rewrite Hc. reflexivity.
    + exists s'. split; [reflexivity | split; [assumption | ]].
      rewrite left_ok_cons. destruct pre' as [|d pre'']; [ | assumption].
      simpl in Hl. unfold delimits. rewrite Hl. apply orb_true_r.
Qed.

Lemma found_keyword_empty (prev : option ascii) (pre g : string) :
  ~ found_keyword prev "" pre g.
Proof.
  intros (s' & Heq & HK & _). destruct pre; [ | discriminate].
  simpl in Heq. subst s'.
  apply match_put_and_closing_Some in HK as (post & Heq & [->| ->] & _);
    discriminate.
Qed.

(** The search returns the keyword of the leftmost occurrence. *)
Lemma search_direction_from_Some (s : string) :
  forall prev g,
    search_direction_from prev s = Some g ->
    exists pre,
      found_keyword prev s pre g /\
      forall pre' g',
        found_keyword prev s pre' g' ->
        String.length pre <= String.length pre'.
Proof.
  induction s as [|c rest IH]; intros prev g Hs; simpl in Hs.
  - destruct (match_direction_at prev "") as [g0|] eqn:E; [ | discriminate].
    injection Hs as ->.
    apply match_direction_at_Some in E as [(c & r & H & _) | [Hp HK]];
      [discriminate | ].
    exists "". split; [apply found_keyword_nil; auto | ].
    intros; simpl; lia.
  - destruct (match_direction_at prev (String c rest)) as [g0|] eqn:E.
    + injection Hs as ->.
      apply match_direction_at_Some in E
        as [(c' & r & [= <- <-] & Hc & HK) | [Hp HK]].
      * exists (String c ""). split.
        -- apply found_keyword_cons. right. left. auto.
        -- intros pre' g' H. apply found_keyword_cons in H
             as [[-> H] | [(-> & _) | (p & -> & _)]]; simpl; try lia.
           apply found_keyword_nil in H as [_ H].
           apply match_put_and_closing_head in H as [H _]. congruence.
      * exists "". split; [apply found_keyword_nil; auto | ].
        intros; simpl; lia.
    + apply IH in Hs as (pre & Hf & Hmin).
      exists (String c pre). split.
      * apply found_keyword_cons. right. right. eauto.
      * intros pre' g' H. apply found_keyword_cons in H
          as [[-> H] | [(-> & Hc & HK) | (p & -> & H)]].
        -- apply found_keyword_nil in H as [Hp HK].
           assert (match_direction_at prev (String c rest) = Some g') as E'
             by (apply match_direction_at_Some; auto).
           congruence.
        -- assert (match_direction_at prev (String c rest) = Some g') as E'
             by (apply match_direction_at_Some; left; eauto).
           congruence.
        -- apply Hmin in H. simpl. lia.
Qed.

Lemma search_direction_from_None (s : string) :
  forall prev,
    search_direction_from prev s = None ->
    forall pre g, ~ found_keyword prev s pre g.
Proof.
  induction s as [|c rest IH]; intros prev Hs pre g H.
  - exact (found_keyword_empty _ _ _ H).
  - simpl in Hs.
    destruct (match_direction_at prev (String c rest)) as [g0|] eqn:E;
      [discriminate | ].
    apply found_keyword_cons in H
      as [[-> H] | [(-> & Hc & HK) | (p & -> & H)]].
    + apply found_keyword_nil in H as [Hp HK].
      assert (match_direction_at prev (String c rest) = Some g) as E'
        by (apply match_direction_at_Some; auto).
      congruence.
    + assert (match_direction_at prev (String c rest) = Some g) as E'
        by (apply match_direction_at_Some; left; eauto).
      congruence.
    + exact (IH _ Hs _ _ H).
Qed.

Lemma found_keyword_delimited (s pre g : string) :
  found_keyword None s pre g <-> delimited_keyword None s pre g.
Proof.
  unfold found_keyword, delimited_keyword. split.
  - intros (s' & -> & HK & Hl).
    apply match_put_and_closing_Some in HK as (post & -> & Hg & Hr).
    exists post. repeat split; try assumption.
    destruct pre; [reflexivity | exact Hl].
  - intros (post & -> & Hg & Hl & Hr).
    exists (g ++ "put" ++ post). split; [reflexivity | split].
    + apply match_put_and_closing_Some. eauto.
    + destruct pre; [reflexivity | exact Hl].
Qed.

Lemma app_string_length (a b : string) :
  String.length (a ++ b) = String.length a + String.length b.
Proof. induction a as [|c a IH]; simpl; [reflexivity | now rewrite IH]. Qed.

Lemma app_string_same_length (a b a' b' : string) :
  a ++ b = a' ++ b' -> String.length a = String.length a' ->
  a = a' /\ b = b'.
Proof.
  revert a'. induction a as [|c a IH]; intros [|c' a'] Heq Hlen;
    simpl in *; try discriminate.
  - auto.
  - injection Heq as -> Heq. injection Hlen as Hlen.
    destruct (IH _ Heq Hlen) as [-> ->]. auto.
Qed.

(** [search_direction] finds exactly the leftmost occurrence of a
    keyword with no letter on either side. *)
Lemma search_direction_leftmost (sname g : string) :
  search_direction sname = Some g <->
  exists pre, leftmost_delimited_keyword sname pre g.
Proof.
  unfold search_direction, leftmost_delimited_keyword. split.
  - intros H. apply search_direction_from_Some in H as (pre & Hf & Hmin).
    exists pre. split; [apply found_keyword_delimited; exact Hf | ].
    intros pre' g' H'. apply Hmin with g'.
    apply found_keyword_delimited. exact H'.
  - intros (pre & Hd & Hmin).
    destruct (search_direction_from None sname) as [g0|] eqn:E.
    + apply search_direction_from_Some in E as (pre0 & Hf0 & Hmin0).
      apply found_keyword_delimited in Hd.
      assert (String.length pre0 = String.length pre) as Hlen.
      { apply Nat.le_antisymm.
        - exact (Hmin0 _ _ Hd).
        - apply Hmin with g0. apply found_keyword_delimited. exact Hf0. }
      destruct Hf0 as (s0 & Heq0 & HK0 & _).
      destruct Hd as (s1 & Heq1 & HK1 & _).
      rewrite Heq0 in Heq1.
      destruct (app_string_same_length _ _ _ _ Heq1 Hlen) as [_ <-].
      congruence.
    + exfalso. apply found_keyword_delimited in Hd.
      exact (search_direction_from_None _ _ E _ _ Hd).
Qed.

Lemma search_direction_None (sname : string) :
  search_direction sname = None <->
  forall pre g, ~ delimited_keyword None sname pre g.
Proof.
  split.
  - intros E pre g H. apply found_keyword_delimited in H.
    exact (search_direction_from_None _ _ E _ _ H).
  - intros Hno. destruct (search_direction sname) as [g|] eqn:E;
      [ | reflexivity].
    apply search_direction_leftmost in E as (pre & Hd & _).
    exfalso. exact (Hno _ _ Hd).
Qed.

(** ** add_socket *)

Lemma lookup_snoc_new {A : Type} (l : list A) (x : A) :
  (l ++ [x])%list !! length l = Some x.
Proof. apply list_lookup_middle. reflexivity. Qed.

Lemma insert_snoc_new {A : Type} (l : list A) (x y : A) :
  <[length l := y]> (l ++ [x])%list = (l ++ [y])%list.
Proof.
  rewrite insert_app_r_alt by lia. rewrite Nat.sub_diag. reflexivity.
Qed.

(** The effect of a call that passes both checks. *)
Lemma add_socket_ok (self : CompId) (sname : string) (value : option Z)
  (type_ : option string) (internal : bool) (h : Heap) (c : Component)
  (t : string) :
  components h !! self = Some c ->
  socket_direction type_ sname = Some t ->
  sname ∉ names_of h
    (input_sockets c ++ output_sockets c ++ internal_sockets c) ->
  add_socket self sname value type_ internal h =
  Ok (mkHeap
        (<[self := append_socket internal t (length (sockets h)) c]>
           (components h))
        (sockets h ++ [new_socket self sname t value])
        (graph_functions h)).
Proof.
  intros Hc Ht Hfresh. unfold add_socket, get_component. rewrite Hc. simpl.
  assert (match type_ with
          | Some t0 => Ok t0
          | None => match search_direction sname with
                    | Some g => Ok g
                    | None => Raise YARLError
                    end
          end = Ok t) as ->.
  { destruct type_ as [t0|]; simpl in Ht; [congruence | ].
    rewrite Ht. reflexivity. }
  simpl. rewrite bool_decide_eq_false_2 by assumption.
  unfold alloc_sock, update_component, get_component. simpl. rewrite Hc.
  simpl. destruct value as [v|]; [ | reflexivity].
  unfold connect_from, update_sock, get_sock, put_component. simpl.
  rewrite lookup_snoc_new. simpl. unfold put_sock. simpl.
  rewrite insert_snoc_new. reflexivity.
Qed.

Lemma add_socket_no_direction (self : CompId) (sname : string)
  (value : option Z) (type_ : option string) (internal : bool) (h : Heap) :
  socket_direction type_ sname = None ->
  raises (add_socket self sname value type_ internal h).
Proof.
  intros Ht. unfold add_socket, get_component.
  destruct (components h !! self) as [c|]; simpl; [ | eexists; reflexivity].
  destruct type_ as [t|]; simpl in Ht; [discriminate | ].
  rewrite Ht. simpl. eexists; reflexivity.
Qed.

Lemma add_socket_duplicate (self : CompId) (sname : string)
  (value : option Z) (type_ : option string) (internal : bool) (h : Heap)
  (c : Component) :
  components h !! self = Some c ->
  sname ∈ names_of h
    (input_sockets c ++ output_sockets c ++ internal_sockets c) ->
  add_socket self sname value type_ internal h = Raise YARLError.
Proof.
  intros Hc Hdup. unfold add_socket, get_component. rewrite Hc. simpl.
  destruct type_ as [t|]; simpl.
  - rewrite bool_decide_eq_true_2 by assumption. reflexivity.
  - destruct (search_direction sname); simpl; [ | reflexivity].
    rewrite bool_decide_eq_true_2 by assumption. reflexivity.
Qed.

(** What a successful call tells about its arguments. *)
Lemma add_socket_ok_inv (self : CompId) (sname : string) (value : option Z)
  (type_ : option string) (internal : bool) (h h' : Heap) :
  add_socket self sname value type_ internal h = Ok h' ->
  exists c t,
    components h !! self = Some c /\
    socket_direction type_ sname = Some t /\
    (sname ∉ names_of h
       (input_sockets c ++ output_sockets c ++ internal_sockets c)) /\
    h' = mkHeap
           (<[self := append_socket internal t (length (sockets h)) c]>
              (components h))
           (sockets h ++ [new_socket self sname t value])
           (graph_functions h).
Proof.
  intros H.
  destruct (components h !! self) as [c|] eqn:Hc.
  2: { unfold add_socket, get_component in H. rewrite Hc in H.
       discriminate. }
  destruct (socket_direction type_ sname) as [t|] eqn:Ht.
  2: { destruct (add_socket_no_direction self sname value type_ internal h Ht)
         as [e He]. congruence. }
  destruct (decide (sname ∈ names_of h
              (input_sockets c ++ output_sockets c ++ internal_sockets c)))
    as [Hdup|Hfresh].
  { rewrite (add_socket_duplicate _ _ _ _ _ _ _ Hc Hdup) in H.
    discriminate. }
  rewrite (add_socket_ok _ _ _ _ _ _ _ _ Hc Ht Hfresh) in H.
  injection H as <-. eauto 10.
Qed.

(** C6 (the code departs from the claim): [myinput] contains the
    substring [input] and [outputs] contains [output], yet with the
    direction omitted [add_socket] raises for both on a component that
    has no sockets, where the claim, and with it the docstrings of
    [add_socket] and [add_sockets], say that the direction is taken
    from the substring.  The pattern of the source wants a delimiting
    character, or nothing, on either side of the keyword, and here a
    letter stands next to it. *)
Theorem add_socket_myinput_raises :
  contains "input" "myinput" = true /\
  add_socket 0 "myinput" None None false one_component_heap
  = Raise YARLError /\
  contains "output" "outputs" = true /\
  add_socket 0 "outputs" None None false one_component_heap
  = Raise YARLError.
Proof. repeat split; reflexivity. Qed.

(** X11: with the direction omitted, [add_socket] takes the direction
    from the leftmost occurrence of [input] or [output] in the name that
    has a delimiting character (a digit, an underscore or a character
    that is no word character), or nothing, directly before and after
    it ([in] for [input], [out] for [output]) and then behaves as if
    that direction had been given; it raises when the name has no such
    occurrence. *)
Theorem add_socket_infers_direction_from_delimited_keyword
  (self : CompId) (sname : string) (value : option Z) (internal : bool)
  (h : Heap) :
  (forall g,
     search_direction sname = Some g <->
     exists pre, leftmost_delimited_keyword sname pre g) /\
  (search_direction sname = None <->
   forall pre g, ~ delimited_keyword None sname pre g) /\
  (forall g,
     search_direction sname = Some g ->
     add_socket self sname value None internal h =
     add_socket self sname value (Some g) internal h) /\
  (search_direction sname = None ->
   raises (add_socket self sname value None internal h)) /\
  (forall h',
     add_socket self sname value None internal h = Ok h' ->
     exists g x,
       search_direction sname = Some g /\
       sockets h' !! length (sockets h) = Some x /\
       sock_name x = sname /\ sock_type x = g).
Proof.
  split; [intros g; apply search_direction_leftmost | ].
  split; [apply search_direction_None | ].
  split; [ | split].
  - intros g Hg. unfold add_socket. rewrite Hg. reflexivity.
  - intros Hn. apply add_socket_no_direction. exact Hn.
  - intros h' H. apply add_socket_ok_inv in H as (c & t & Hc & Ht & _ & ->).
    simpl in Ht. exists t, (new_socket self sname t value). simpl.
    rewrite lookup_snoc_new. auto.
Qed.

(** C8, as stated, fails: on a component that has no sockets the name
    [foo] is the name of no socket, yet [add_socket] with the direction
    omitted appends nothing and raises, because [foo] gives no
    direction. *)
Lemma add_socket_raises_on_fresh_name_without_direction :
  exists c,
    components one_component_heap !! 0 = Some c /\
    names_of one_component_heap
      (input_sockets c ++ output_sockets c ++ internal_sockets c) = [] /\
    socket_direction None "foo" = None /\
    add_socket 0 "foo" None None false one_component_heap
    = Raise YARLError.
Proof. eexists. repeat split; reflexivity. Qed.

(** C8, amended: [add_socket] raises when the name is already that of a
    socket in one of the three collections, and it raises when the
    direction is omitted and the name gives none.  Otherwise (the name
    is new and the direction is given or inferred) it creates exactly
    one socket and appends it to the collection that its [internal]
    flag and direction select, leaving the other two collections as
    they were. *)
Theorem add_socket_rejects_duplicates_and_appends_once
  (self : CompId) (sname : string) (value : option Z)
  (type_ : option string) (internal : bool) (h : Heap) (c : Component)
  (Hc : components h !! self = Some c) :
  let existing :=
    names_of h (input_sockets c ++ output_sockets c ++ internal_sockets c) in
  (sname ∈ existing ->
   add_socket self sname value type_ internal h = Raise YARLError) /\
  (socket_direction type_ sname = None ->
   add_socket self sname value type_ internal h = Raise YARLError) /\
  (sname ∉ existing ->
   forall t,
     socket_direction type_ sname = Some t ->
     exists h' c' sock,
       add_socket self sname value type_ internal h = Ok h' /\
       components h' !! self = Some c' /\
       sock = length (sockets h) /\
       sockets h' = (sockets h ++ [new_socket self sname t value])%list /\
       (forall other, other <> self ->
                      components h' !! other = components h !! other) /\
       (if internal then
          internal_sockets c' = (internal_sockets c ++ [sock])%list /\
          input_sockets c' = input_sockets c /\
          output_sockets c' = output_sockets c
        else if String.eqb t "in" then
          input_sockets c' = (input_sockets c ++ [sock])%list /\
          output_sockets c' = output_sockets c /\
          internal_sockets c' = internal_sockets c
        else
          output_sockets c' = (output_sockets c ++ [sock])%list /\
          input_sockets c' = input_sockets c /\
          internal_sockets c' = internal_sockets c)).
Proof.
  cbv zeta. split; [ | split].
  - intros Hdup. exact (add_socket_duplicate _ _ _ _ _ _ _ Hc Hdup).
  - intros Ht. unfold add_socket, get_component. rewrite Hc. simpl.
    destruct type_ as [t|]; simpl in Ht; [discriminate | ].
    rewrite Ht. reflexivity.
  - intros Hfresh t Ht.
    exists (mkHeap
              (<[self := append_socket internal t (length (sockets h)) c]>
                 (components h))
              (sockets h ++ [new_socket self sname t value])
              (graph_functions h)),
      (append_socket internal t (length (sockets h)) c),
      (length (sockets h)).
    split; [exact (add_socket_ok _ _ _ _ _ _ _ _ Hc Ht Hfresh) | ].
    simpl. split.
    { apply list_lookup_insert_eq. exact (lookup_lt_Some _ _ _ Hc). }
    split; [reflexivity | split; [reflexivity | split]].
    { intros other Hne. apply list_lookup_insert_ne. congruence. }
    unfold append_socket. destruct internal; [auto | ].
    destruct (String.eqb t "in"); auto.
Qed.

(** A component with an input socket [x]: [x] is refused a second time,
    [foo] without a direction is refused, and [y] is appended to the
    output sockets. *)
Lemma add_socket_rejects_duplicates_witness :
  add_socket 0 "x" None (Some "out") false heap_with_input_x
  = Raise YARLError /\
  add_socket 0 "foo" None None false heap_with_input_x
  = Raise YARLError /\
  exists h' c' sock,
    add_socket 0 "y" None (Some "out") false heap_with_input_x = Ok h' /\
    components h' !! 0 = Some c' /\
    sock = 1 /\
    output_sockets c' = [sock] /\ input_sockets c' = [0] /\
    internal_sockets c' = [].
Proof.
  pose proof (add_socket_rejects_duplicates_and_appends_once
                0 "x" None (Some "out") false heap_with_input_x _ eq_refl)
    as (Hdup & _ & _).
  pose proof (add_socket_rejects_duplicates_and_appends_once
                0 "foo" None None false heap_with_input_x _ eq_refl)
    as (_ & Hnone & _).
  pose proof (add_socket_rejects_duplicates_and_appends_once
                0 "y" None (Some "out") false heap_with_input_x _ eq_refl)
    as (_ & _ & Hnew).
  split; [ | split].
  - apply Hdup. vm_compute. left.
  - apply Hnone. reflexivity.
  - destruct (Hnew ltac:(vm_compute; intros H; inversion H; subst;
                         match goal with
                         | H' : _ ∈ [] |- _ => inversion H'
                         end)
                   "out" eq_refl)
      as (h' & c' & sock & Hok & Hc' & Hs & _ & _ & Hlists).
    simpl in Hlists. destruct Hlists as (Ho & Hi & Hint).
    exists h', c', sock. rewrite Hs in *. auto 10.
Defined.

(** ** Reading and writing the store *)

Lemma get_component_eq (h : Heap) (k : CompId) (x : Component) :
  components h !! k = Some x -> get_component h k = Ok x.
Proof. unfold get_component. intros ->. reflexivity. Qed.

Lemma get_component_ok (h : Heap) (k : CompId) (x : Component) :
  get_component h k = Ok x -> components h !! k = Some x.
Proof.
  unfold get_component. destruct (components h !! k);
    [intros [= ->]; reflexivity | discriminate].
Qed.

Lemma get_sock_eq (h : Heap) (k : SockId) (x : Socket) :
  sockets h !! k = Some x -> get_sock h k = Ok x.
Proof. unfold get_sock. intros ->. reflexivity. Qed.

Lemma get_sock_ok (h : Heap) (k : SockId) (x : Socket) :
  get_sock h k = Ok x -> sockets h !! k = Some x.
Proof.
  unfold get_sock. destruct (sockets h !! k);
    [intros [= ->]; reflexivity | discriminate].
Qed.

Lemma update_component_eq (k : CompId) (f : Component -> Component)
  (h : Heap) (x : Component) :
  components h !! k = Some x ->
  update_component k f h = Ok (put_component k (f x) h).
Proof. unfold update_component, get_component. intros ->. reflexivity. Qed.

Lemma update_sock_eq (k : SockId) (f : Socket -> Socket) (h : Heap)
  (x : Socket) :
  sockets h !! k = Some x ->
  update_sock k f h = Ok (put_sock k (f x) h).
Proof. unfold update_sock, get_sock. intros ->. reflexivity. Qed.

Lemma put_component_lookup (k : CompId) (x y : Component) (h : Heap) :
  components h !! k = Some y ->
  components (put_component k x h) !! k = Some x.
Proof.
  intros H. simpl. apply list_lookup_insert_eq.
  exact (lookup_lt_Some _ _ _ H).
Qed.

Lemma put_component_lookup_ne (k k' : CompId) (x : Component) (h : Heap) :
  k <> k' ->
  components (put_component k x h) !! k' = components h !! k'.
Proof. intros H. simpl. apply list_lookup_insert_ne. exact H. Qed.

(** ** Input completeness *)

Lemma set_input_complete_twice (a b : bool) (c : Component) :
  set_input_complete a (set_input_complete b c) = set_input_complete a c.
Proof. reflexivity. Qed.

Lemma put_component_twice (k : CompId) (x y : Component) (h : Heap) :
  put_component k x (put_component k y h) = put_component k x h.
Proof.
  unfold put_component. simpl. rewrite list_insert_insert_eq. reflexivity.
Qed.

(** The loop of [check_input_completeness]: the flag ends up false as
    soon as one socket has no space. *)
Lemma check_loop (self : CompId) (c : Component) (h : Heap)
  (Hc : components h !! self = Some c) (l : list SockId) :
  forall b,
    (forall s, s ∈ l -> is_Some (sockets h !! s)) ->
    for_each
      (fun in_sock h =>
         s <- get_sock h in_sock ;;
         match space s with
         | None => update_component self (set_input_complete false) h
         | Some _ => Ok h
         end)
      l (put_component self (set_input_complete b c) h)
    = Ok (put_component self
            (set_input_complete (b && forallb (resolved h) l) c) h).
Proof.
  induction l as [|s l IH]; intros b Hl; simpl.
  - rewrite andb_true_r. reflexivity.
  - destruct (Hl s ltac:(left)) as [x Hx].
    unfold get_sock at 1. simpl. rewrite Hx. simpl.
    unfold resolved at 1. rewrite Hx.
    assert (forall s', s' ∈ l -> is_Some (sockets h !! s')) as Hl'
      by (intros s' Hs'; apply Hl; right; exact Hs').
    destruct (space x) as [sp|] eqn:Hsp.
    + rewrite bool_decide_eq_true_2 by discriminate. simpl.
      apply IH. exact Hl'.
    + rewrite bool_decide_eq_false_2 by (intros Hn; apply Hn; reflexivity).
      simpl.
      rewrite (update_component_eq self _ _ (set_input_complete b c))
        by exact (put_component_lookup _ _ _ _ Hc).
      simpl. rewrite put_component_twice, set_input_complete_twice.
      rewrite (IH false Hl'). rewrite andb_false_r. reflexivity.
Qed.

Lemma check_input_completeness_eq (self : CompId) (c : Component)
  (h : Heap) :
  components h !! self = Some c ->
  (forall s, s ∈ input_sockets c -> is_Some (sockets h !! s)) ->
  check_input_completeness self h =
  Ok (if input_complete c then h
      else put_component self
             (set_input_complete (forallb (resolved h) (input_sockets c)) c)
             h).
Proof.
  intros Hc Hs. unfold check_input_completeness, get_component.
  rewrite Hc. simpl. destruct (input_complete c); simpl; [reflexivity | ].
  rewrite (update_component_eq self _ _ c Hc). simpl.
  rewrite (check_loop self c h Hc _ true Hs). reflexivity.
Qed.

Lemma forallb_resolved (h : Heap) (l : list SockId) :
  forallb (resolved h) l = true <->
  forall s, s ∈ l -> exists x, sockets h !! s = Some x /\ space x <> None.
Proof.
  rewrite forallb_forall. split.
  - intros H s Hs. apply list_elem_of_In in Hs. specialize (H s Hs).
    unfold resolved in H. destruct (sockets h !! s) as [x|];
      [ | discriminate].
    apply bool_decide_eq_true in H. eauto.
  - intros H s Hs. apply list_elem_of_In in Hs.
    destruct (H s Hs) as (x & Hx & Hsp). unfold resolved. rewrite Hx.
    apply bool_decide_eq_true. exact Hsp.
Qed.

(** One call: what it does to the flag and to nothing else. *)
Lemma check_input_completeness_once (self : CompId) (c : Component)
  (h : Heap) :
  components h !! self = Some c ->
  (forall s, s ∈ input_sockets c -> is_Some (sockets h !! s)) ->
  exists h' c',
    check_input_completeness self h = Ok h' /\
    components h' !! self = Some c' /\
    c' = set_input_complete (input_complete c') c /\
    (input_complete c = true -> input_complete c' = true) /\
    (input_complete c = false ->
     (input_complete c' = true <->
      forall s, s ∈ input_sockets c ->
                exists x, sockets h !! s = Some x /\ space x <> None)) /\
    sockets h' = sockets h /\
    length (components h') = length (components h) /\
    (forall other, other <> self ->
                   components h' !! other = components h !! other).
Proof.
  intros Hc Hs. rewrite (check_input_completeness_eq self c h Hc Hs).
  destruct (input_complete c) eqn:Hflag.
  - exists h, c. split; [reflexivity | ]. split; [exact Hc | ].
    split; [destruct c; reflexivity | ].
    split; [intros _; exact Hflag | ].
    split; [discriminate | auto].
  - eexists _, _. split; [reflexivity | ]. simpl.
    split; [apply list_lookup_insert_eq; exact (lookup_lt_Some _ _ _ Hc) | ].
    simpl. split; [reflexivity | ].
    split; [discriminate | ].
    split; [intros _; apply forallb_resolved | ].
    split; [reflexivity | ].
    split; [apply length_insert | ].
    intros other Hne. apply list_lookup_insert_ne. congruence.
Qed.

(** C4: the [input_complete] flag never goes from true to false, and a
    call on a component whose flag is false sets it to true exactly when
    every socket of [input_sockets] holds a space.  The second part
    states the first for any sequence of calls on any components. *)
Theorem input_complete_is_monotone_and_exact :
  (forall self c h,
     components h !! self = Some c ->
     (forall s, s ∈ input_sockets c -> is_Some (sockets h !! s)) ->
     exists h' c',
       check_input_completeness self h = Ok h' /\
       components h' !! self = Some c' /\
       (input_complete c = true -> input_complete c' = true) /\
       (input_complete c = false ->
        (input_complete c' = true <->
         forall s, s ∈ input_sockets c ->
                   exists x, sockets h !! s = Some x /\ space x <> None))) /\
  (forall selves h,
     input_sockets_exist h ->
     (forall k, k ∈ selves -> is_Some (components h !! k)) ->
     exists h',
       for_each check_input_completeness selves h = Ok h' /\
       forall k x,
         components h !! k = Some x ->
         exists x',
           components h' !! k = Some x' /\
           (input_complete x = true -> input_complete x' = true)).
Proof.
  split.
  - intros self c h Hc Hs.
    destruct (check_input_completeness_once self c h Hc Hs)
      as (h' & c' & Hok & Hc' & _ & Hmono & Hexact & _).
    exists h', c'. auto.
  - intros selves. induction selves as [|self selves IH]; intros h Hwf Hin.
    + exists h. split; [reflexivity | ]. intros k x Hk. eauto.
    + destruct (Hin self ltac:(left)) as [c Hc].
      destruct (check_input_completeness_once self c h Hc
                  (fun s Hs => Hwf self c s Hc Hs))
        as (h1 & c1 & Hok & Hc1 & Hc1eq & Hmono & _ & Hsock & Hlen & Hother).
      assert (input_sockets_exist h1) as Hwf1.
      { intros k x s Hk Hs. rewrite Hsock.
        destruct (decide (k = self)) as [Heq|Hne]; [subst k | ].
        - rewrite Hc1 in Hk. injection Hk as <-. rewrite Hc1eq in Hs.
          exact (Hwf self c s Hc Hs).
        - rewrite (Hother k Hne) in Hk. exact (Hwf k x s Hk Hs). }
      assert (forall k, k ∈ selves -> is_Some (components h1 !! k)) as Hin1.
      { intros k Hk. apply lookup_lt_is_Some. rewrite Hlen.
        apply lookup_lt_is_Some. apply Hin. right. exact Hk. }
      destruct (IH h1 Hwf1 Hin1) as (h' & Hrest & Hkeep).
      exists h'. split; [rewrite for_each_cons, Hok; exact Hrest | ].
      intros k x Hk. destruct (decide (k = self)) as [Heq|Hne];
        [subst k | ].
      * rewrite Hc in Hk. injection Hk as <-.
        destruct (Hkeep self c1 Hc1) as (x' & Hx' & Hm).
        exists x'. split; [exact Hx' | ]. auto.
      * rewrite <- (Hother k Hne) in Hk. exact (Hkeep k x Hk).
Qed.

(** The component of [heap_with_resolved_inputs] becomes input-complete
    at the first call and stays so at the next ones. *)
Lemma input_complete_witness :
  exists h',
    for_each check_input_completeness [0; 0; 0] heap_with_resolved_inputs
    = Ok h' /\
    exists x', components h' !! 0 = Some x' /\ input_complete x' = true.
Proof.
  destruct input_complete_is_monotone_and_exact as [Hone Hseq].
  destruct (Hone 0 _ heap_with_resolved_inputs eq_refl) as
    (h1 & c1 & Hok & Hc1 & _ & Hexact).
  { intros s Hs. apply lookup_lt_is_Some. simpl.
    apply list_elem_of_lookup in Hs as [i Hi].
    destruct i as [|[|i]]; simpl in Hi; inversion Hi; subst; lia. }
  assert (input_complete c1 = true) as Hflag.
  { apply Hexact; [reflexivity | ]. intros s Hs.
    apply list_elem_of_lookup in Hs as [i Hi].
    destruct i as [|[|i]]; simpl in Hi; inversion Hi; subst; simpl;
      eexists; (split; [reflexivity | discriminate]). }
  assert (input_sockets_exist h1 /\
          forall k, k ∈ [0; 0] -> is_Some (components h1 !! k)) as [Hwf Hin].
  { rewrite (check_input_completeness_eq 0 _ heap_with_resolved_inputs
               eq_refl) in Hok.
    - injection Hok as <-. split.
      + intros k x s Hk Hs. destruct k; simpl in Hk; inversion Hk; subst.
        simpl in Hs. apply lookup_lt_is_Some. simpl.
        apply list_elem_of_lookup in Hs as [i Hi].
        destruct i as [|[|i]]; simpl in Hi; inversion Hi; subst; lia.
      + intros k Hk. apply list_elem_of_lookup in Hk as [i Hi].
        destruct i as [|[|i]]; simpl in Hi; inversion Hi; subst;
          simpl; eauto.
    - intros s Hs. apply lookup_lt_is_Some. simpl.
      apply list_elem_of_lookup in Hs as [i Hi].
      destruct i as [|[|i]]; simpl in Hi; inversion Hi; subst; lia. }
  destruct (Hseq [0; 0] h1 Hwf Hin) as (h' & Hrest & Hkeep).
  exists h'. split; [rewrite for_each_cons, Hok; exact Hrest | ].
  destruct (Hkeep 0 c1 Hc1) as (x' & Hx' & Hm). eauto.
Defined.

(** ** Looking sockets up *)

Lemma get_socket_finish_no_create (self : CompId) (n : string)
  (found : option SockId) (h h' : Heap) (s : SockId) :
  get_socket_finish self n found false h = Ok (s, h') ->
  h' = h /\ found = Some s.
Proof.
  unfold get_socket_finish. destruct found as [s0|]; [ | discriminate].
  intros [= -> ->]. auto.
Qed.

(** Without [create_internal_if_not_found], [get_socket] only reads. *)
Lemma get_socket_no_create (self : CompId) (spec : Specifier)
  (type_ : option string) (h h' : Heap) (s : SockId) :
  get_socket self spec type_ false h = Ok (s, h') -> h' = h.
Proof.
  destruct spec as [|n|s0|cref sref|sp|d|op|c]; simpl; intros H;
    try discriminate.
  - inv_bind H as u Hu. inv_bind H as c Hc.
    destruct (if bool_decide (type_ = Some "out") then output_sockets c
              else input_sockets c) as [|s1 [|s2 l]];
      try discriminate.
    injection H as _ <-. reflexivity.
  - inv_bind H as found Hfound.
    apply get_socket_finish_no_create in H as [-> _]. reflexivity.
  - injection H as _ <-. reflexivity.
  - inv_bind H as comp Hcomp. destruct sref as [n|s1].
    + inv_bind H as found Hfound.
      apply get_socket_finish_no_create in H as [-> _]. reflexivity.
    + injection H as _ <-. reflexivity.
Qed.

(** ** connect *)

Lemma link_sockets_connect (a b : SockId) (label : option string)
  (h : Heap) (sa sb : Socket) :
  sockets h !! a = Some sa -> sockets h !! b = Some sb ->
  exists h',
    link_sockets a b false label h = Ok h' /\
    (exists sa', sockets h' !! a = Some sa' /\
                 ToSocket b ∈ outgoing_connections sa') /\
    (exists sb', sockets h' !! b = Some sb' /\
                 ToSocket a ∈ incoming_connections sb').
Proof.
  intros Ha Hb. unfold link_sockets.
  rewrite (get_sock_eq _ _ _ Ha), (get_sock_eq _ _ _ Hb). simpl.
  unfold connect_to. rewrite (update_sock_eq _ _ _ _ Ha). simpl.
  set (sa1 := set_outgoing_connections
                (outgoing_connections sa ++ [ToSocket b]) sa).
  assert (a < length (sockets h)) as Hla by exact (lookup_lt_Some _ _ _ Ha).
  assert (b < length (sockets h)) as Hlb by exact (lookup_lt_Some _ _ _ Hb).
  destruct (decide (a = b)) as [Heq|Hne].
  - subst b.
    assert (sockets (put_sock a sa1 h) !! a = Some sa1) as H1
      by (simpl; apply list_lookup_insert_eq; exact Hla).
    unfold connect_from. rewrite (update_sock_eq _ _ _ _ H1).
    eexists. split; [reflexivity | ]. simpl.
    rewrite list_insert_insert_eq, list_lookup_insert_eq by exact Hla.
    split; eexists; (split; [reflexivity | ]); simpl.
    + apply elem_of_app. right. left.
    + apply elem_of_app. right. left.
  - assert (sockets (put_sock a sa1 h) !! b = Some sb) as H1
      by (simpl; rewrite list_lookup_insert_ne by exact Hne; exact Hb).
    unfold connect_from. rewrite (update_sock_eq _ _ _ _ H1).
    eexists. split; [reflexivity | ]. simpl. split.
    + exists sa1. split.
      * rewrite list_lookup_insert_ne by congruence.
        apply list_lookup_insert_eq. exact Hla.
      * simpl. apply elem_of_app. right. left.
    + eexists. split.
      * apply list_lookup_insert_eq. rewrite length_insert. exact Hlb.
      * simpl. apply elem_of_app. right. left.
Qed.

(** C1 (the code departs from the claim): [connect] on two sockets of
    the same component raises nothing and records the connection on both
    sockets; the check for equal components is made only when
    disconnecting.  [from_] and [to_] are any specifiers that
    [get_socket] resolves to the sockets [a] and [b]. *)
Theorem connect_accepts_two_sockets_of_one_component
  (self : CompId) (from_ to_ : Specifier) (a b : SockId) (h : Heap)
  (sa sb : Socket)
  (Hfrom : get_socket self from_ None false h = Ok (a, h))
  (Hto : get_socket self to_ None false h = Ok (b, h))
  (Ha : sockets h !! a = Some sa)
  (Hb : sockets h !! b = Some sb)
  (Hsame : sock_component sa = sock_component sb) :
  (exists h',
     connect self from_ to_ h = Ok h' /\
     (exists sa', sockets h' !! a = Some sa' /\
                  ToSocket b ∈ outgoing_connections sa') /\
     (exists sb', sockets h' !! b = Some sb' /\
                  ToSocket a ∈ incoming_connections sb')) /\
  disconnect self from_ to_ h = Raise YARLError.
Proof.
  assert (space_or_data_op from_ = None /\ space_of to_ = None /\
          (forall c, from_ <> SpecComponent c) /\
          (forall c, to_ <> SpecComponent c)) as (Hf1 & Ht1 & Hf2 & Ht2).
  { destruct from_, to_; simpl in *; try discriminate;
      repeat split; intros; discriminate. }
  assert (forall d label,
            _connect_disconnect self from_ to_ d label h =
            link_sockets a b d label h) as Hlink.
  { intros d label. unfold _connect_disconnect. rewrite Hf1, Ht1.
    destruct from_ as [| | | | | | |c]; try discriminate;
      try (exfalso; exact (Hf2 c eq_refl));
      destruct to_ as [| | | | | | |c']; try discriminate;
      try (exfalso; exact (Ht2 c' eq_refl));
      cbn [bind]; rewrite Hfrom; cbn [bind]; rewrite Hto; reflexivity. }
  unfold connect, disconnect. rewrite !Hlink. split.
  - exact (link_sockets_connect a b None h sa sb Ha Hb).
  - unfold link_sockets.
    rewrite (get_sock_eq _ _ _ Ha), (get_sock_eq _ _ _ Hb). simpl.
    rewrite bool_decide_eq_true_2 by exact Hsame. reflexivity.
Qed.

(** [connect("y", "x")] on the component of [heap_with_in_and_out]. *)
Lemma connect_accepts_two_sockets_witness :
  (exists h',
     connect 0 (SpecStr "y") (SpecStr "x") heap_with_in_and_out = Ok h' /\
     (exists sa', sockets h' !! 1 = Some sa' /\
                  ToSocket 0 ∈ outgoing_connections sa') /\
     (exists sb', sockets h' !! 0 = Some sb' /\
                  ToSocket 1 ∈ incoming_connections sb')) /\
  disconnect 0 (SpecStr "y") (SpecStr "x") heap_with_in_and_out
  = Raise YARLError.
Proof.
  exact (connect_accepts_two_sockets_of_one_component
           0 (SpecStr "y") (SpecStr "x") 1 0 heap_with_in_and_out
           _ _ eq_refl eq_refl eq_refl eq_refl eq_refl).
Defined.

(** C7: with a space or a constant as [from_], [connect] and
    [disconnect] succeed exactly when [to_] resolves to a socket whose
    type is [in]; with a space as [to_] they succeed exactly when
    [from_] resolves to a socket whose type is [out].  In every other
    case the call raises. *)
Theorem connect_space_requires_matching_socket_type
  (self : CompId) (from_ to_ : Specifier) (disconnect_ : bool)
  (label : option string) (h : Heap) :
  (forall from_obj,
     space_or_data_op from_ = Some from_obj ->
     forall h',
       _connect_disconnect self from_ to_ disconnect_ label h = Ok h' <->
       exists s x,
         get_socket self to_ None false h = Ok (s, h) /\
         sockets h !! s = Some x /\
         sock_type x = "in" /\
         h' = put_sock s (attach_incoming disconnect_ from_obj x) h) /\
  (space_or_data_op from_ = None ->
   forall to_space,
     space_of to_ = Some to_space ->
     forall h',
       _connect_disconnect self from_ to_ disconnect_ label h = Ok h' <->
       exists s x,
         get_socket self from_ None false h = Ok (s, h) /\
         sockets h !! s = Some x /\
         sock_type x = "out" /\
         h' = put_sock s (attach_outgoing disconnect_ (ToSpace to_space) x)
                h).
Proof.
  split.
  - intros from_obj Hf h'. unfold _connect_disconnect. rewrite Hf. split.
    + intros H. inv_bind H as p Hp. destruct p as [s h1].
      pose proof (get_socket_no_create _ _ _ _ _ _ Hp) as ->.
      inv_bind H as x Hx. apply get_sock_ok in Hx. inv_bind H as u Hu.
      apply assert_ok in Hu. apply String.eqb_eq in Hu.
      exists s, x. split; [exact Hp | ]. split; [exact Hx | ].
      split; [exact Hu | ].
      unfold attach_incoming. destruct disconnect_; simpl in H.
      * unfold disconnect_from in H.
        rewrite (update_sock_eq _ _ _ _ Hx) in H. congruence.
      * unfold connect_from in H.
        rewrite (update_sock_eq _ _ _ _ Hx) in H. congruence.
    + intros (s & x & Hg & Hx & Ht & ->). rewrite Hg. simpl.
      rewrite (get_sock_eq _ _ _ Hx). simpl. rewrite Ht. simpl.
      unfold attach_incoming. destruct disconnect_; simpl.
      * unfold disconnect_from. rewrite (update_sock_eq _ _ _ _ Hx).
        reflexivity.
      * unfold connect_from. rewrite (update_sock_eq _ _ _ _ Hx).
        reflexivity.
  - intros Hf to_space Ht h'. unfold _connect_disconnect.
    rewrite Hf, Ht. split.
    + intros H. inv_bind H as p Hp. destruct p as [s h1].
      pose proof (get_socket_no_create _ _ _ _ _ _ Hp) as ->.
      inv_bind H as x Hx. apply get_sock_ok in Hx. inv_bind H as u Hu.
      apply assert_ok in Hu. apply String.eqb_eq in Hu.
      exists s, x. split; [exact Hp | ]. split; [exact Hx | ].
      split; [exact Hu | ].
      unfold attach_outgoing. destruct disconnect_; simpl in H.
      * unfold disconnect_to in H.
        rewrite (update_sock_eq _ _ _ _ Hx) in H. congruence.
      * unfold connect_to in H.
        rewrite (update_sock_eq _ _ _ _ Hx) in H. congruence.
    + intros (s & x & Hg & Hx & Hty & ->). rewrite Hg. simpl.
      rewrite (get_sock_eq _ _ _ Hx). simpl. rewrite Hty. simpl.
      unfold attach_outgoing. destruct disconnect_; simpl.
      * unfold disconnect_to. rewrite (update_sock_eq _ _ _ _ Hx).
        reflexivity.
      * unfold connect_to. rewrite (update_sock_eq _ _ _ _ Hx).
        reflexivity.
Qed.

(** On [heap_with_in_and_out] a space connects to the input socket
    [x]; the output socket [y] refuses it. *)
Lemma connect_space_witness :
  (exists h',
     _connect_disconnect 0 (SpecSpace (SpaceObj "float")) (SpecStr "x")
       false None heap_with_in_and_out = Ok h') /\
  connect 0 (SpecSpace (SpaceObj "float")) (SpecStr "y")
    heap_with_in_and_out = Raise AssertionError /\
  connect 0 (SpecStr "x") (SpecSpace (SpaceObj "float"))
    heap_with_in_and_out = Raise AssertionError.
Proof.
  destruct (connect_space_requires_matching_socket_type
              0 (SpecSpace (SpaceObj "float")) (SpecStr "x") false None
              heap_with_in_and_out) as [H _].
  split; [ | split; reflexivity].
  eexists. apply (H _ eq_refl).
  exists 0, (mkSocket "x" 0 "in" None [] []).
  repeat split; reflexivity.
Defined.

(** ** Sockets by name *)

Lemma names_of_app (h : Heap) (l1 l2 : list SockId) :
  names_of h (l1 ++ l2) = (names_of h l1 ++ names_of h l2)%list.
Proof. unfold names_of. apply omap_app. Qed.

Lemma elem_of_names_of (h : Heap) (n : string) (l : list SockId) :
  n ∈ names_of h l <->
  exists s x, s ∈ l /\ sockets h !! s = Some x /\ sock_name x = n.
Proof.
  unfold names_of. rewrite list_elem_of_omap. split.
  - intros (s & Hs & Hn). destruct (sockets h !! s) as [x|] eqn:Hx;
      [ | discriminate].
    injection Hn as <-. eauto.
  - intros (s & x & Hs & Hx & <-). exists s. rewrite Hx. auto.
Qed.

Lemma first_named_None (h : Heap) (n : string) (l : list SockId) :
  first_named h n l = None <-> n ∉ names_of h l.
Proof.
  unfold first_named. rewrite elem_of_names_of. split.
  - intros H (s & x & Hs & Hx & Hn).
    apply list_elem_of_In in Hs.
    pose proof (find_none _ _ H s Hs) as Hf. simpl in Hf.
    rewrite Hx in Hf. apply String.eqb_neq in Hf. contradiction.
  - intros H.
    destruct (find _ l) as [s|] eqn:E; [ | reflexivity].
    exfalso. apply H. apply find_some in E as [Hs Hf].
    destruct (sockets h !! s) as [x|] eqn:Hx; [ | discriminate].
    apply String.eqb_eq in Hf. apply list_elem_of_In in Hs. eauto.
Qed.

Lemma first_named_Some (h : Heap) (n : string) (l : list SockId)
  (s : SockId) :
  first_named h n l = Some s ->
  s ∈ l /\ exists x, sockets h !! s = Some x /\ sock_name x = n.
Proof.
  unfold first_named. intros E. apply find_some in E as [Hs Hf].
  destruct (sockets h !! s) as [x|] eqn:Hx; [ | discriminate].
  apply String.eqb_eq in Hf. apply list_elem_of_In in Hs. eauto.
Qed.

(** [get_socket_by_name] with no type looks through all three
    collections. *)
Lemma get_socket_by_name_any (h : Heap) (self : CompId) (c : Component)
  (n : string) :
  components h !! self = Some c ->
  exists r,
    get_socket_by_name h self n None = Ok r /\
    match r with
    | None => n ∉ names_of h (all_sockets c)
    | Some s =>
        s ∈ all_sockets c /\
        exists x, sockets h !! s = Some x /\ sock_name x = n
    end.
Proof.
  intros Hc. unfold get_socket_by_name.
  rewrite (get_component_eq _ _ _ Hc). simpl.
  unfold all_sockets.
  destruct (first_named h n (output_sockets c ++ internal_sockets c))
    as [s|] eqn:E1.
  - exists (Some s). split; [reflexivity | ].
    apply first_named_Some in E1 as [Hs Hx]. split; [ | exact Hx].
    apply elem_of_app. right. exact Hs.
  - destruct (first_named h n (input_sockets c)) as [s|] eqn:E2.
    + exists (Some s). split; [reflexivity | ].
      apply first_named_Some in E2 as [Hs Hx]. split; [ | exact Hx].
      apply elem_of_app. left. exact Hs.
    + exists None. split; [reflexivity | ].
      apply first_named_None in E1, E2.
      rewrite names_of_app. intros H. apply elem_of_app in H as [H|H];
        contradiction.
Qed.

(** A name that is already that of a socket of the component is
    resolved to that socket; the store is not touched. *)
Lemma get_socket_existing_name (h : Heap) (self : CompId) (c : Component)
  (n : string) (create : bool) :
  components h !! self = Some c ->
  n ∈ names_of h (all_sockets c) ->
  exists s x,
    get_socket self (SpecStr n) None create h = Ok (s, h) /\
    s ∈ all_sockets c /\ sockets h !! s = Some x /\ sock_name x = n.
Proof.
  intros Hc Hn. simpl.
  destruct (get_socket_by_name_any h self c n Hc) as (r & -> & Hr).
  destruct r as [s|]; [ | contradiction].
  destruct Hr as (Hs & x & Hx & Hname). simpl. eauto 10.
Qed.

(** A name that is not yet that of a socket of the component makes
    [get_socket] create an internal socket of type [in], which is the
    socket it returns. *)
Lemma get_socket_new_name (h : Heap) (self : CompId) (c : Component)
  (n : string) :
  components h !! self = Some c ->
  n ∉ names_of h (all_sockets c) ->
  get_socket self (SpecStr n) None true h =
  Ok (length (sockets h),
      mkHeap
        (<[self := append_socket true "in" (length (sockets h)) c]>
           (components h))
        (sockets h ++ [new_socket self n "in" None])
        (graph_functions h)).
Proof.
  intros Hc Hn. simpl.
  destruct (get_socket_by_name_any h self c n Hc) as (r & -> & Hr).
  destruct r as [s|].
  { exfalso. destruct Hr as (Hs & x & Hx & Hname). apply Hn.
    apply elem_of_names_of. eauto. }
  simpl. unfold get_socket_finish.
  rewrite (add_socket_ok self n None (Some "in") true h c "in" Hc eq_refl Hn).
  simpl.
  set (h1 := mkHeap _ _ _).
  assert (components h1 !! self
          = Some (append_socket true "in" (length (sockets h)) c)) as Hc1.
  { simpl. apply list_lookup_insert_eq. exact (lookup_lt_Some _ _ _ Hc). }
  destruct (get_socket_by_name_any h1 self _ n Hc1) as (r & -> & Hr1).
  destruct r as [s|]; simpl.
  - destruct Hr1 as (Hs & x & Hx & Hname).
    destruct (decide (s < length (sockets h))) as [Hlt|Hge].
    + exfalso. apply Hn. apply elem_of_names_of. exists s, x.
      simpl in Hx. rewrite lookup_app_l in Hx by exact Hlt.
      split; [ | auto].
      unfold all_sockets, append_socket in Hs. simpl in Hs.
      unfold all_sockets.
      rewrite !elem_of_app in Hs. rewrite !elem_of_app.
      destruct Hs as [Hs|[Hs|[Hs|Hs]]]; auto.
      apply list_elem_of_singleton in Hs. lia.
    + apply lookup_lt_Some in Hx. simpl in Hx.
      rewrite length_app in Hx. simpl in Hx.
      replace s with (length (sockets h)) by lia. reflexivity.
  - exfalso. apply Hr1. apply elem_of_names_of.
    exists (length (sockets h)), (new_socket self n "in" None).
    split; [ | split; [ | reflexivity]].
    + unfold all_sockets, append_socket. simpl.
      rewrite !elem_of_app. right. right. right. left.
    + simpl. apply lookup_snoc_new.
Qed.

(** ** Operation bindings *)

Lemma set_internal_sockets_same (c : Component) :
  set_internal_sockets (internal_sockets c) c = c.
Proof. destruct c; reflexivity. Qed.

Lemma grown_refl (self : CompId) (h0 : Heap) (c0 : Component) :
  components h0 !! self = Some c0 -> grown self h0 h0.
Proof.
  intros Hc. exists c0, []. split; [exact Hc | ]. simpl.
  rewrite !app_nil_r, set_internal_sockets_same.
  rewrite list_insert_id by exact Hc. auto.
Qed.

Lemma grown_lookup (self : CompId) (h0 h : Heap) :
  grown self h0 h ->
  exists c0 news,
    components h0 !! self = Some c0 /\
    components h !! self =
      Some (set_internal_sockets
              (internal_sockets c0 ++
               seq (length (sockets h0)) (length news)) c0) /\
    sockets h = (sockets h0 ++ news)%list /\
    Forall (fun x => sock_type x = "in" /\ sock_component x = self) news.
Proof.
  intros (c0 & news & Hc0 & Hcs & Hs & _ & Hnews).
  exists c0, news. split; [exact Hc0 | ]. split; [ | auto].
  rewrite Hcs. apply list_lookup_insert_eq.
  exact (lookup_lt_Some _ _ _ Hc0).
Qed.

(** One name resolved with [create_internal_if_not_found=True]. *)
Lemma grown_step (self : CompId) (h0 h : Heap) (n : string) :
  grown self h0 h ->
  exists s h',
    get_socket self (SpecStr n) None true h = Ok (s, h') /\
    grown self h0 h' /\
    (exists extra, sockets h' = (sockets h ++ extra)%list) /\
    (exists x, sockets h' !! s = Some x /\ sock_name x = n) /\
    (forall c0,
       components h0 !! self = Some c0 ->
       n ∉ names_of h0 (all_sockets c0) -> length (sockets h0) <= s).
Proof.
  intros Hg.
  destruct (grown_lookup _ _ _ Hg) as (c0 & news & Hc0 & Hc & Hs & Hnews).
  set (c := set_internal_sockets _ c0) in Hc.
  destruct (decide (n ∈ names_of h (all_sockets c))) as [Hin|Hnew].
  - destruct (get_socket_existing_name h self c n true Hc Hin)
      as (s & x & Hget & Hsc & Hx & Hname).
    exists s, h. split; [exact Hget | ]. split; [exact Hg | ].
    split; [exists []; rewrite app_nil_r; reflexivity | ].
    split; [eauto | ].
    intros c0' Hc0' Hfresh.
    assert (c0' = c0) as -> by congruence.
    destruct (decide (s < length (sockets h0))) as [Hlt|Hge]; [ | lia].
    exfalso. apply Hfresh. apply elem_of_names_of. exists s, x.
    rewrite Hs, lookup_app_l in Hx by exact Hlt.
    split; [ | auto].
    unfold all_sockets in *. subst c. simpl in Hsc.
    rewrite !elem_of_app in Hsc. rewrite !elem_of_app.
    destruct Hsc as [H|[H|[H|H]]]; auto.
    apply elem_of_seq in H. lia.
  - rewrite (get_socket_new_name h self c n Hc Hnew).
    eexists _, _. split; [reflexivity | ].
    split; [ | split; [ | split]].
    + destruct Hg as (c0' & news' & Hc0' & Hcs & Hs' & Hgf & Hnews').
      assert (c0' = c0) as -> by congruence.
      assert (news' = news) as ->
        by (rewrite Hs in Hs'; exact (app_inv_head _ _ _ (eq_sym Hs'))).
      exists c0, (news ++ [new_socket self n "in" None])%list.
      split; [exact Hc0 | ]. simpl. split; [ | split; [ | split]].
      * rewrite Hcs, list_insert_insert_eq. f_equal.
        unfold append_socket. subst c. simpl.
        rewrite length_app. simpl. rewrite Nat.add_1_r, seq_S.
        rewrite Hs, length_app, <- app_assoc. reflexivity.
      * rewrite Hs, <- app_assoc. reflexivity.
      * exact Hgf.
      * apply Forall_app. split; [exact Hnews | ].
        constructor; [ | constructor]. simpl. auto.
    + simpl. eauto.
    + simpl. exists (new_socket self n "in" None).
      split; [apply lookup_snoc_new | reflexivity].
    + intros _ _ _. rewrite Hs, length_app. lia.
Qed.

Lemma resolved_as_mono (h0 h h' : Heap) (self : CompId) (n : string)
  (s : SockId) (extra : list Socket) :
  sockets h' = (sockets h ++ extra)%list ->
  resolved_as h0 h self n s -> resolved_as h0 h' self n s.
Proof.
  intros He [(x & Hx & Hn) Hnew]. split; [ | exact Hnew].
  exists x. split; [ | exact Hn]. rewrite He.
  apply lookup_app_l_Some. exact Hx.
Qed.

(** A list of names resolved with
    [create_internal_if_not_found=True]. *)
Lemma grown_list (self : CompId) (h0 : Heap) (names : list string) :
  forall h,
    grown self h0 h ->
    exists ss h',
      get_sockets_or_create self (map SpecStr names) h = Ok (ss, h') /\
      grown self h0 h' /\
      (exists extra, sockets h' = (sockets h ++ extra)%list) /\
      Forall2 (resolved_as h0 h' self) names ss.
Proof.
  induction names as [|n names IH]; intros h Hg.
  - exists [], h. split; [reflexivity | ]. split; [exact Hg | ].
    split; [exists []; rewrite app_nil_r; reflexivity | constructor].
  - destruct (grown_step self h0 h n Hg)
      as (s & h1 & Hget & Hg1 & (e1 & He1) & Hx & Hnew).
    destruct (IH h1 Hg1) as (ss & h2 & Hrest & Hg2 & (e2 & He2) & Hall).
    exists (s :: ss), h2.
    split; [ | split; [exact Hg2 | split]].
    + change (map SpecStr (n :: names))
        with (SpecStr n :: map SpecStr names).
      cbn [get_sockets_or_create]. rewrite Hget. cbn [bind].
      rewrite Hrest. reflexivity.
    + exists (e1 ++ e2)%list. rewrite He2, He1, app_assoc. reflexivity.
    + constructor; [ | exact Hall].
      apply (resolved_as_mono h0 h1 h2 self n s e2 He2). split; assumption.
Qed.

Lemma sock_sig_insert (l : list Socket) (s : SockId) (x y : Socket) :
  l !! s = Some x -> sock_sig y = sock_sig x ->
  map sock_sig (<[s := y]> l) = map sock_sig l.
Proof.
  intros Hx Hsig. rewrite list_fmap_insert, Hsig.
  apply list_insert_id. rewrite list_lookup_fmap, Hx. reflexivity.
Qed.

(** A loop that rewrites connection lists keeps every socket's name,
    component and type, and touches nothing else. *)
Lemma for_each_update_sock (g : SockId -> Socket -> Socket)
  (Hg : forall s x, sock_sig (g s x) = sock_sig x) (ss : list SockId) :
  forall h,
    (forall s, s ∈ ss -> s < length (sockets h)) ->
    exists h',
      for_each (fun s h => update_sock s (g s) h) ss h = Ok h' /\
      components h' = components h /\
      graph_functions h' = graph_functions h /\
      map sock_sig (sockets h') = map sock_sig (sockets h).
Proof.
  induction ss as [|s ss IH]; intros h Hlt.
  - exists h. auto.
  - destruct (lookup_lt_is_Some_2 (sockets h) s (Hlt s ltac:(left)))
      as [x Hx].
    destruct (IH (put_sock s (g s x) h)) as (h' & Hok & Hc & Hgf & Hsig).
    { intros s' Hs'. simpl. rewrite length_insert. apply Hlt. right.
      exact Hs'. }
    exists h'. rewrite for_each_cons, (update_sock_eq _ _ _ _ Hx).
    cbn [bind]. split; [exact Hok | ]. split; [exact Hc | ].
    split; [exact Hgf | ].
    rewrite Hsig. simpl. exact (sock_sig_insert _ _ _ _ Hx (Hg s x)).
Qed.

Lemma sock_sig_lookup (l l' : list Socket) (s : SockId) (x : Socket) :
  map sock_sig l' = map sock_sig l -> l !! s = Some x ->
  exists x', l' !! s = Some x' /\ sock_sig x' = sock_sig x.
Proof.
  intros Hsig Hx.
  assert (map sock_sig l' !! s = Some (sock_sig x)) as H
    by (rewrite Hsig, list_lookup_fmap, Hx; reflexivity).
  rewrite list_lookup_fmap in H.
  destruct (l' !! s) as [x'|]; [ | discriminate].
  exists x'. split; [reflexivity | ]. simpl in H. congruence.
Qed.

Lemma Forall2_resolved_lt (h0 h : Heap) (self : CompId)
  (names : list string) (ss : list SockId) :
  Forall2 (resolved_as h0 h self) names ss ->
  forall s, s ∈ ss -> s < length (sockets h).
Proof.
  induction 1 as [|n s names ss [(x & Hx & _) _] _ IH]; intros s' Hs'.
  - inversion Hs'.
  - apply elem_of_cons in Hs' as [->|Hs']; [ | exact (IH _ Hs')].
    exact (lookup_lt_Some _ _ _ Hx).
Qed.

Lemma Forall2_resolved_elem (h0 h : Heap) (self : CompId)
  (names : list string) (ss : list SockId) (n : string) :
  Forall2 (resolved_as h0 h self) names ss -> n ∈ names ->
  exists s, s ∈ ss /\ resolved_as h0 h self n s.
Proof.
  induction 1 as [|n' s names ss Hr _ IH]; intros Hn.
  - inversion Hn.
  - apply elem_of_cons in Hn as [->|Hn].
    + exists s. split; [left | exact Hr].
    + destruct (IH Hn) as (s' & Hs' & Hr'). exists s'.
      split; [right; exact Hs' | exact Hr'].
Qed.

Lemma for_each_connect_to (to_ : Endpoint) (ss : list SockId) (h : Heap) :
  (forall s, s ∈ ss -> s < length (sockets h)) ->
  exists h',
    for_each (fun s h => connect_to s to_ h) ss h = Ok h' /\
    components h' = components h /\
    graph_functions h' = graph_functions h /\
    map sock_sig (sockets h') = map sock_sig (sockets h).
Proof.
  exact (for_each_update_sock
           (fun _ x =>
              set_outgoing_connections (outgoing_connections x ++ [to_]) x)
           (fun _ _ => eq_refl) ss h).
Qed.

Lemma for_each_connect_from (from_ : Endpoint) (ss : list SockId)
  (h : Heap) :
  (forall s, s ∈ ss -> s < length (sockets h)) ->
  exists h',
    for_each (fun s h => connect_from s from_ None h) ss h = Ok h' /\
    components h' = components h /\
    graph_functions h' = graph_functions h /\
    map sock_sig (sockets h') = map sock_sig (sockets h).
Proof.
  exact (for_each_update_sock
           (fun _ x =>
              set_incoming_connections (incoming_connections x ++ [from_]) x)
           (fun _ _ => eq_refl) ss h).
Qed.

(** C10: [add_graph_fn] succeeds on lists of names, and every input or
    output name that was not the name of a socket of the component is,
    afterwards, the name of a new socket that sits in
    [internal_sockets] only and whose type is [in], whether the name
    came from the inputs or from the outputs. *)
Theorem add_graph_fn_creates_in_typed_internal_sockets
  (self : CompId) (c : Component) (ins outs : list string)
  (method : option string) (f1 f2 f3 f4 : option bool) (h : Heap)
  (Hc : components h !! self = Some c)
  (Hm : method = None -> exists m, graph_methods c = [m])
  (Hex : forall s,
      s ∈ (input_sockets c ++ output_sockets c)%list ->
      s < length (sockets h)) :
  exists h' c',
    add_graph_fn self (map SpecStr ins) (map SpecStr outs) method
      f1 f2 f3 f4 h = Ok h' /\
    components h' !! self = Some c' /\
    input_sockets c' = input_sockets c /\
    output_sockets c' = output_sockets c /\
    forall n,
      n ∈ (ins ++ outs)%list ->
      n ∉ names_of h (all_sockets c) ->
      exists s x,
        s ∈ internal_sockets c' /\
        (s ∉ input_sockets c') /\ (s ∉ output_sockets c') /\
        length (sockets h) <= s /\
        sockets h' !! s = Some x /\
        sock_name x = n /\ sock_type x = "in" /\ sock_component x = self.
Proof.
  unfold add_graph_fn. rewrite (get_component_eq _ _ _ Hc). cbn [bind].
  assert (exists m,
            match method with
            | Some m => Ok m
            | None => match graph_methods c with
                      | [m] => Ok (strip_graph_prefix m)
                      | _ => Raise YARLError
                      end
            end = Ok m) as [m ->].
  { destruct method as [m|]; [eauto | ].
    destruct (Hm eq_refl) as [m ->]. eauto. }
  cbn [bind].
  destruct (grown_list self h ins h (grown_refl _ _ _ Hc))
    as (iss & h1 & Hins & Hg1 & (e1 & He1) & Hall1).
  destruct (grown_list self h outs h1 Hg1)
    as (oss & h2 & Houts & Hg2 & (e2 & He2) & Hall2).
  rewrite Hins. cbn [bind]. rewrite Houts. cbn [bind].
  destruct (grown_lookup _ _ _ Hg2) as (c0 & news & Hc0 & Hc2 & Hs2 & Hnews).
  assert (c0 = c) as -> by congruence.
  set (c2 := set_internal_sockets _ c) in Hc2.
  unfold alloc_graph_fn.
  set (gf := mkGraphFunction _ _ _ _ _).
  set (k := length (graph_functions h2)).
  set (h3 := mkHeap (components h2) (sockets h2) (graph_functions h2 ++ [gf])).
  assert (components h3 !! self = Some c2) as Hc3 by exact Hc2.
  rewrite (update_component_eq self _ h3 c2 Hc3). cbn [bind].
  set (c4 := set_graph_fns _ c2).
  set (h4 := put_component self c4 h3).
  assert (forall s, s ∈ iss -> s < length (sockets h4)) as Hlt_i.
  { intros s Hs. simpl.
    apply (Forall2_resolved_lt h h2 self ins iss); [ | exact Hs].
    eapply Forall2_impl; [exact Hall1 | ].
    intros n s'. exact (resolved_as_mono h h1 h2 self n s' e2 He2). }
  assert (forall s, s ∈ oss -> s < length (sockets h4)) as Hlt_o.
  { intros s Hs. simpl.
    exact (Forall2_resolved_lt h h2 self outs oss Hall2 s Hs). }
  destruct (for_each_connect_to (ToGraphFn k) iss h4 Hlt_i)
    as (h5 & Hok5 & Hc5 & _ & Hsig5).
  rewrite Hok5. cbn [bind].
  assert (forall s, s ∈ oss -> s < length (sockets h5)) as Hlt_o5.
  { intros s Hs.
    rewrite <- (length_map sock_sig), Hsig5, length_map.
    exact (Hlt_o s Hs). }
  destruct (for_each_connect_from (ToGraphFn k) oss h5 Hlt_o5)
    as (h6 & Hok6 & Hc6 & _ & Hsig6).
  rewrite Hok6. cbn [bind].
  assert (components h6 !! self = Some c4) as Hc6'.
  { rewrite Hc6, Hc5. exact (put_component_lookup _ _ _ _ Hc3). }
  assert (map sock_sig (sockets h6) = map sock_sig (sockets h2)) as Hsig
    by (rewrite Hsig6, Hsig5; reflexivity).
  assert (forall h' c',
            components h' !! self = Some c' ->
            internal_sockets c' = internal_sockets c2 ->
            input_sockets c' = input_sockets c ->
            output_sockets c' = output_sockets c ->
            sockets h' = sockets h6 ->
            forall n,
              n ∈ (ins ++ outs)%list ->
              n ∉ names_of h (all_sockets c) ->
              exists s x,
                s ∈ internal_sockets c' /\
                (s ∉ input_sockets c') /\ (s ∉ output_sockets c') /\
                length (sockets h) <= s /\
                sockets h' !! s = Some x /\
                sock_name x = n /\ sock_type x = "in" /\
                sock_component x = self) as Hfinal.
  { intros h' c' Hc' Hint Hin Hout Hsock n Hn Hfresh.
    assert (exists s, resolved_as h h2 self n s) as [s [(x & Hx & Hname) Hnew]].
    { apply elem_of_app in Hn as [Hn|Hn].
      - destruct (Forall2_resolved_elem _ _ _ _ _ n Hall1 Hn)
          as (s & _ & Hr).
        exists s. exact (resolved_as_mono h h1 h2 self n s e2 He2 Hr).
      - destruct (Forall2_resolved_elem _ _ _ _ _ n Hall2 Hn)
          as (s & _ & Hr).
        exists s. exact Hr. }
    specialize (Hnew c Hc Hfresh).
    destruct (sock_sig_lookup _ _ _ _ Hsig Hx) as (x' & Hx' & Hsigx).
    assert (s < length (sockets h) + length news) as Hlt.
    { apply lookup_lt_Some in Hx. rewrite Hs2, length_app in Hx.
      exact Hx. }
    assert (sock_type x = "in" /\ sock_component x = self) as [Hty Hcomp].
    { rewrite Hs2, lookup_app_r in Hx by exact Hnew.
      exact (Forall_lookup_1 _ _ _ _ Hnews Hx). }
    exists s, x'. rewrite Hint, Hin, Hout, Hsock.
    split; [ | split; [ | split; [ | split; [exact Hnew | split ]]]].
    - subst c2. simpl. apply elem_of_app. right.
      apply elem_of_seq. lia.
    - intros Hs. specialize (Hex s). rewrite elem_of_app in Hex.
      specialize (Hex (or_introl Hs)). lia.
    - intros Hs. specialize (Hex s). rewrite elem_of_app in Hex.
      specialize (Hex (or_intror Hs)). lia.
    - exact Hx'.
    - unfold sock_sig in Hsigx. injection Hsigx as H1 H2 H3.
      repeat split; congruence. }
  destruct (length iss =? 0)%nat.
  - rewrite (update_component_eq self _ h6 c4 Hc6').
    eexists _, _. split; [reflexivity | ].
    split; [exact (put_component_lookup _ _ _ _ Hc6') | ].
    split; [reflexivity | split; [reflexivity | ]].
    apply (Hfinal _ _ (put_component_lookup _ _ _ _ Hc6'));
      reflexivity.
  - exists h6, c4. split; [reflexivity | ]. split; [exact Hc6' | ].
    split; [reflexivity | split; [reflexivity | ]].
    apply (Hfinal _ _ Hc6'); reflexivity.
Qed.

(** [add_graph_fn(["x", "tmp"], ["y", "res"])] on
    [heap_with_graph_method]: [tmp] and [res] become sockets 2 and 3,
    internal and of type [in]. *)
Lemma add_graph_fn_witness :
  exists h' c',
    add_graph_fn 0 (map SpecStr ["x"; "tmp"]) (map SpecStr ["y"; "res"])
      None None None None None heap_with_graph_method = Ok h' /\
    components h' !! 0 = Some c' /\
    forall n,
      n ∈ ["tmp"; "res"] ->
      exists s x,
        s ∈ internal_sockets c' /\
        (s ∉ input_sockets c') /\ (s ∉ output_sockets c') /\
        sockets h' !! s = Some x /\
        sock_name x = n /\ sock_type x = "in".
Proof.
  destruct (add_graph_fn_creates_in_typed_internal_sockets
              0 _ ["x"; "tmp"] ["y"; "res"] None None None None None
              heap_with_graph_method eq_refl)
    as (h' & c' & Hok & Hc' & _ & _ & Hnew).
  - intros _. exists "_graph_f". reflexivity.
  - intros s Hs. simpl in Hs. simpl.
    apply elem_of_cons in Hs as [->|Hs]; [lia | ].
    apply elem_of_cons in Hs as [->|Hs]; [lia | inversion Hs].
  - exists h', c'. split; [exact Hok | ]. split; [exact Hc' | ].
    intros n Hn.
    destruct (Hnew n) as (s & x & H1 & H2 & H3 & _ & H4 & H5 & H6 & _).
    + simpl. apply elem_of_cons in Hn as [->|Hn].
      * right. left.
      * apply elem_of_cons in Hn as [->|Hn]; [ | inversion Hn].
        right. right. right. left.
    + vm_compute. intros Hin.
      apply elem_of_cons in Hin as [->|Hin].
      * apply elem_of_cons in Hn as [Hn|Hn]; [discriminate | ].
        apply elem_of_cons in Hn as [Hn|Hn]; [discriminate | inversion Hn].
      * apply elem_of_cons in Hin as [->|Hin]; [ | inversion Hin].
        apply elem_of_cons in Hn as [Hn|Hn]; [discriminate | ].
        apply elem_of_cons in Hn as [Hn|Hn]; [discriminate | inversion Hn].
    + exists s, x. auto 10.
Defined.

(** ** Ancestors and depths *)

Lemma has_depth_det (cs : list Component) (c : CompId) (n m : nat) :
  has_depth cs c n -> has_depth cs c m -> n = m.
Proof.
  intros H. revert m. induction H as [c x Hx Hp | c x p n Hx Hp _ IH];
    intros m Hm; inversion Hm; subst; try congruence.
  f_equal. apply IH. congruence.
Qed.

Lemma anc_depth (cs : list Component) (a x : CompId) (n : nat) :
  anc cs a x -> has_depth cs x n ->
  exists m, has_depth cs a m /\ m <= n /\ (m = n -> a = x).
Proof.
  intros H. revert n. induction H as [ | x xx p Hx Hp _ IH]; intros n Hn.
  - exists n. auto.
  - inversion Hn as [c y Hy Hroot | c y q n' Hy Hq Hd]; subst;
      [congruence | ].
    assert (q = p) as -> by congruence.
    destruct (IH _ Hd) as (m & Hm & Hle & _).
    exists m. split; [exact Hm | ]. split; lia.
Qed.

(** No component is an ancestor of its parent. *)
Lemma anc_child_parent (cs : list Component) (c p : CompId)
  (cx : Component) (n : nat) :
  cs !! c = Some cx -> parent_component cx = Some p ->
  has_depth cs c n -> ~ anc cs c p.
Proof.
  intros Hc Hp Hn Hanc.
  inversion Hn as [c' y Hy Hroot | c' y q n' Hy Hq Hd]; subst;
    [congruence | ].
  assert (q = p) as -> by congruence.
  destruct (anc_depth _ _ _ _ Hanc Hd) as (m & Hm & Hle & _).
  pose proof (has_depth_det _ _ _ _ Hn Hm). lia.
Qed.

Lemma anc_snoc (cs : list Component) (c d x : CompId) (dx : Component) :
  cs !! d = Some dx -> parent_component dx = Some c ->
  anc cs d x -> anc cs c x.
Proof.
  intros Hd Hp H. induction H as [ | x xx p Hx Hxp _ IH].
  - exact (anc_step cs c d dx c Hd Hp (anc_refl cs c)).
  - exact (anc_step cs c x xx p Hx Hxp IH).
Qed.

Lemma anc_trans (cs : list Component) (a b x : CompId) :
  anc cs a b -> anc cs b x -> anc cs a x.
Proof.
  intros Hab H. induction H as [ | x xx p Hx Hxp _ IH].
  - exact Hab.
  - exact (anc_step cs a x xx p Hx Hxp IH).
Qed.

(** Below [c] there is [c] itself and what is below its children. *)
Lemma anc_inv (cs : list Component) (c x : CompId) :
  anc cs c x ->
  x = c \/
  exists d dx,
    cs !! d = Some dx /\ parent_component dx = Some c /\ anc cs d x.
Proof.
  intros H. induction H as [ | x xx p Hx Hxp _ IH].
  - left. reflexivity.
  - right. destruct IH as [-> | (d & dx & Hd & Hdp & Hanc)].
    + exists x, xx. split; [exact Hx | ]. split; [exact Hxp | ].
      apply anc_refl.
    + exists d, dx. split; [exact Hd | ]. split; [exact Hdp | ].
      exact (anc_step cs d x xx p Hx Hxp Hanc).
Qed.

(** Two children of one component have nothing below them in common. *)
Lemma anc_siblings (cs : list Component) (c d1 d2 x : CompId)
  (x1 x2 : Component) :
  forest cs ->
  cs !! d1 = Some x1 -> parent_component x1 = Some c ->
  cs !! d2 = Some x2 -> parent_component x2 = Some c ->
  d1 <> d2 -> anc cs d1 x -> ~ anc cs d2 x.
Proof.
  intros HF H1 Hp1 H2 Hp2 Hne Hanc.
  destruct (forest_depth cs HF d1 x1 H1) as [n1 Hn1].
  destruct (forest_depth cs HF d2 x2 H2) as [n2 Hn2].
  induction Hanc as [ | x xx p Hx Hxp Hanc IH]; intros Hanc2.
  - inversion Hanc2 as [ | y yy q Hy Hyq Hanc2']; subst; [congruence | ].
    assert (q = c) as -> by congruence.
    exact (anc_child_parent cs d2 c x2 n2 H2 Hp2 Hn2 Hanc2').
  - inversion Hanc2 as [ | y yy q Hy Hyq Hanc2']; subst.
    + assert (p = c) as -> by congruence.
      exact (anc_child_parent cs d1 c x1 n1 H1 Hp1 Hn1 Hanc).
    + assert (q = p) as -> by congruence. exact (IH Hanc2').
Qed.

(** ** Components that differ in global scopes only *)

Lemma shape_fields (x x' : Component) :
  set_global_scope "" x' = set_global_scope "" x ->
  scope x' = scope x /\ name x' = name x /\
  parent_component x' = parent_component x /\
  sub_components x' = sub_components x /\
  x' = set_global_scope (global_scope x') x.
Proof.
  destruct x, x'. unfold set_global_scope. simpl.
  intros [= -> -> -> -> -> -> -> -> -> -> -> -> ->]. auto.
Qed.

Lemma same_shape_lookup (cs cs' : list Component) (k : CompId)
  (x : Component) :
  same_shape cs cs' -> cs !! k = Some x ->
  exists x',
    cs' !! k = Some x' /\
    scope x' = scope x /\ name x' = name x /\
    parent_component x' = parent_component x /\
    sub_components x' = sub_components x /\
    x' = set_global_scope (global_scope x') x.
Proof.
  intros Hs Hx.
  assert (map (set_global_scope "") cs' !! k
          = Some (set_global_scope "" x)) as H
    by (rewrite <- Hs, list_lookup_fmap, Hx; reflexivity).
  rewrite list_lookup_fmap in H.
  destruct (cs' !! k) as [x'|]; [ | discriminate].
  simpl in H.
  assert (set_global_scope "" x' = set_global_scope "" x) as H'
    by congruence.
  exists x'. split; [reflexivity | exact (shape_fields x x' H')].
Qed.

Lemma same_shape_sym (cs cs' : list Component) :
  same_shape cs cs' -> same_shape cs' cs.
Proof. unfold same_shape. auto. Qed.

Lemma same_shape_trans (a b c : list Component) :
  same_shape a b -> same_shape b c -> same_shape a c.
Proof. unfold same_shape. congruence. Qed.

Lemma same_shape_insert (cs : list Component) (k : CompId)
  (x : Component) (g : string) :
  cs !! k = Some x -> same_shape cs (<[k := set_global_scope g x]> cs).
Proof.
  intros Hx. unfold same_shape. rewrite list_fmap_insert.
  symmetry. apply list_insert_id.
  rewrite list_lookup_fmap, Hx. reflexivity.
Qed.

Lemma same_struct_lookup (cs cs' : list Component) (k : CompId)
  (x : Component) :
  same_struct cs cs' -> cs !! k = Some x ->
  exists x',
    cs' !! k = Some x' /\
    scope x' = scope x /\ name x' = name x /\
    parent_component x' = parent_component x /\
    sub_components x' = sub_components x.
Proof.
  intros Hs Hx.
  assert (map struct_view cs' !! k = Some (struct_view x)) as H
    by (rewrite <- Hs, list_lookup_fmap, Hx; reflexivity).
  rewrite list_lookup_fmap in H.
  destruct (cs' !! k) as [x'|]; [ | discriminate].
  simpl in H. unfold struct_view in H. exists x'.
  split; [reflexivity | ]. repeat split; congruence.
Qed.

Lemma same_struct_sym (cs cs' : list Component) :
  same_struct cs cs' -> same_struct cs' cs.
Proof. unfold same_struct. auto. Qed.

Lemma same_struct_trans (a b c : list Component) :
  same_struct a b -> same_struct b c -> same_struct a c.
Proof. unfold same_struct. congruence. Qed.

Lemma list_fmap_eq_lookup {A B : Type} (f : A -> B) (l l' : list A) :
  length l = length l' ->
  (forall k x x', l !! k = Some x -> l' !! k = Some x' -> f x = f x') ->
  map f l = map f l'.
Proof.
  intros Hlen H. apply list_eq. intros k. rewrite !list_lookup_fmap.
  destruct (l !! k) as [x|] eqn:Hx, (l' !! k) as [x'|] eqn:Hx'; simpl.
  - f_equal. exact (H k x x' Hx Hx').
  - apply lookup_lt_Some in Hx. apply lookup_ge_None in Hx'. lia.
  - apply lookup_lt_Some in Hx'. apply lookup_ge_None in Hx. lia.
  - reflexivity.
Qed.

Lemma same_shape_struct (cs cs' : list Component) :
  same_shape cs cs' -> same_struct cs cs'.
Proof.
  intros Hs. apply list_fmap_eq_lookup.
  - rewrite <- (length_map (set_global_scope "") cs), Hs, length_map.
    reflexivity.
  - intros k x x' Hx Hx'.
    destruct (same_shape_lookup _ _ _ _ Hs Hx)
      as (y & Hy & H1 & H2 & H3 & H4 & _).
    assert (y = x') as -> by congruence.
    unfold struct_view. congruence.
Qed.

Lemma same_tree_struct (cs cs' : list Component) :
  same_tree cs cs' -> same_struct cs cs'.
Proof.
  unfold same_tree, same_struct. intros H.
  apply (f_equal (map fst)) in H. rewrite !map_map in H. exact H.
Qed.

Lemma anc_struct (cs cs' : list Component) (a x : CompId) :
  same_struct cs cs' -> anc cs a x -> anc cs' a x.
Proof.
  intros Hs H. induction H as [ | x xx p Hx Hxp _ IH].
  - apply anc_refl.
  - destruct (same_struct_lookup _ _ _ _ Hs Hx)
      as (x' & Hx' & _ & _ & Hp' & _).
    apply (anc_step cs' a x x' p Hx'); [congruence | exact IH].
Qed.

Lemma has_depth_struct (cs cs' : list Component) (c : CompId) (n : nat) :
  same_struct cs cs' -> has_depth cs c n -> has_depth cs' c n.
Proof.
  intros Hs H. induction H as [c x Hx Hp | c x p n Hx Hp _ IH];
    destruct (same_struct_lookup _ _ _ _ Hs Hx)
      as (x' & Hx' & _ & _ & Hp' & _).
  - apply (has_depth_root cs' c x' Hx'). congruence.
  - apply (has_depth_child cs' c x' p n Hx'); [congruence | exact IH].
Qed.

Lemma descends_struct (cs cs' : list Component) (c : CompId) (n : nat) :
  same_struct cs cs' -> descends cs c n -> descends cs' c n.
Proof.
  intros Hs H. induction H as [c | c x d n Hx Hd _ IH].
  - apply descends_O.
  - destruct (same_struct_lookup _ _ _ _ Hs Hx)
      as (x' & Hx' & _ & _ & _ & Hsub).
    apply (descends_S cs' c x' d n Hx'); [ | exact IH].
    unfold children in *. rewrite Hsub. exact Hd.
Qed.

Lemma forest_struct (cs cs' : list Component) :
  same_struct cs cs' -> forest cs -> forest cs'.
Proof.
  intros Hs HF. pose proof (same_struct_sym _ _ Hs) as Hs'.
  constructor.
  - intros p px c Hp Hc.
    destruct (same_struct_lookup _ _ _ _ Hs' Hp)
      as (px0 & Hp0 & _ & _ & _ & Hsub).
    destruct (forest_child_parent cs HF p px0 c Hp0) as (cx & Hcx & Hpar).
    { unfold children in *. rewrite Hsub. exact Hc. }
    destruct (same_struct_lookup _ _ _ _ Hs Hcx)
      as (cx' & Hcx' & _ & _ & Hpar' & _).
    exists cx'. split; [exact Hcx' | congruence].
  - intros c cx p Hc Hpar.
    destruct (same_struct_lookup _ _ _ _ Hs' Hc)
      as (cx0 & Hc0 & _ & _ & Hpar0 & _).
    destruct (forest_parent_child cs HF c cx0 p Hc0) as (px & Hpx & Hin);
      [congruence | ].
    destruct (same_struct_lookup _ _ _ _ Hs Hpx)
      as (px' & Hpx' & _ & _ & _ & Hsub).
    exists px'. split; [exact Hpx' | ].
    unfold children in *. rewrite Hsub. exact Hin.
  - intros p px Hp.
    destruct (same_struct_lookup _ _ _ _ Hs' Hp)
      as (px0 & Hp0 & _ & _ & _ & Hsub).
    pose proof (forest_children_nodup cs HF p px0 Hp0) as Hnd.
    unfold children in *. rewrite <- Hsub. exact Hnd.
  - intros c cx Hc.
    destruct (same_struct_lookup _ _ _ _ Hs' Hc) as (cx0 & Hc0 & _).
    destruct (forest_depth cs HF c cx0 Hc0) as [n Hn].
    exists n. exact (has_depth_struct _ _ _ _ Hs Hn).
Qed.

(** ** propagate_scope *)

Lemma for_each_rel {A S : Type} (R : S -> S -> Prop)
  (body : A -> S -> result S) (l : list A) :
  (forall s, R s s) ->
  (forall a b c, R a b -> R b c -> R a c) ->
  (forall x s s', body x s = Ok s' -> R s s') ->
  forall s s', for_each body l s = Ok s' -> R s s'.
Proof.
  intros Hrefl Htrans Hbody. induction l as [|x l IH]; intros s s' H.
  - injection H as <-. apply Hrefl.
  - rewrite for_each_cons in H. inv_bind H as s1 Hs1.
    exact (Htrans _ _ _ (Hbody _ _ _ Hs1) (IH _ _ H)).
Qed.

Lemma propagate_scope_S (limit : nat) (p c : CompId) (h : Heap) :
  propagate_scope (S limit) p c h =
  (me <- get_component h p ;;
   sub <- get_component h c ;;
   for_each (propagate_scope limit c) (children sub) (rescoped me sub c h)).
Proof. reflexivity. Qed.

Lemma only_scopes_refl (h : Heap) : only_scopes h h.
Proof. repeat split. Qed.

Lemma only_scopes_trans (a b c : Heap) :
  only_scopes a b -> only_scopes b c -> only_scopes a c.
Proof.
  intros (H1 & H2 & H3) (H4 & H5 & H6).
  split; [exact (same_shape_trans _ _ _ H1 H4) | split; congruence].
Qed.

Lemma rescoped_only_scopes (me sub : Component) (c : CompId) (h : Heap) :
  components h !! c = Some sub -> only_scopes h (rescoped me sub c h).
Proof.
  intros Hc. unfold rescoped. case_bool_decide; [ | apply only_scopes_refl].
  split; [ | split; reflexivity]. simpl.
  exact (same_shape_insert _ _ _ _ Hc).
Qed.

Lemma rescoped_lookup_ne (me sub : Component) (c k : CompId) (h : Heap) :
  k <> c ->
  components (rescoped me sub c h) !! k = components h !! k.
Proof.
  intros Hne. unfold rescoped. case_bool_decide; [ | reflexivity].
  simpl. apply list_lookup_insert_ne. congruence.
Qed.

(** [propagate_scope] changes global scopes and nothing else. *)
Lemma propagate_scope_only_scopes (limit : nat) :
  forall p c h h',
    propagate_scope limit p c h = Ok h' -> only_scopes h h'.
Proof.
  induction limit as [|l IH]; intros p c h h' H; [discriminate | ].
  rewrite propagate_scope_S in H.
  inv_bind H as me Hme. inv_bind H as sub Hsub.
  apply get_component_ok in Hsub.
  apply (only_scopes_trans _ _ _ (rescoped_only_scopes me sub c h Hsub)).
  revert H. apply for_each_rel.
  - apply only_scopes_refl.
  - apply only_scopes_trans.
  - intros d s s'. apply IH.
Qed.

(** A call that returns has gone down fewer sub-component links than the
    recursion limit. *)
Lemma propagate_scope_descends (limit : nat) :
  forall p c h h',
    propagate_scope limit p c h = Ok h' ->
    forall n, descends (components h) c n -> n < limit.
Proof.
  induction limit as [|l IH]; intros p c h h' H n Hn; [discriminate | ].
  rewrite propagate_scope_S in H.
  inv_bind H as me Hme. inv_bind H as sub Hsub.
  apply get_component_ok in Hsub.
  inversion Hn as [ | c' x d n' Hx Hd Hdn]; subst; [lia | ].
  assert (x = sub) as -> by congruence.
  apply list_elem_of_split in Hd as (l1 & l2 & Hsplit).
  rewrite Hsplit, for_each_app in H. inv_bind H as hk Hk.
  rewrite for_each_cons in H. inv_bind H as hk' Hk'.
  assert (only_scopes h hk) as (Hshape & _).
  { apply (only_scopes_trans _ _ _ (rescoped_only_scopes me sub c h Hsub)).
    revert Hk. apply for_each_rel.
    - apply only_scopes_refl.
    - apply only_scopes_trans.
    - intros d' s s'. apply propagate_scope_only_scopes. }
  pose proof (IH _ _ _ _ Hk' n'
                (descends_struct _ _ _ _ (same_shape_struct _ _ Hshape) Hdn)).
  lia.
Qed.

Lemma scope_ok_agree (cs cs' : list Component) (k : CompId) :
  cs' !! k = cs !! k ->
  (forall x p,
     cs !! k = Some x -> parent_component x = Some p ->
     cs' !! p = cs !! p) ->
  scope_ok cs k -> scope_ok cs' k.
Proof.
  intros Hk Hp Hok x Hx. rewrite Hk in Hx. specialize (Hok x Hx).
  destruct (parent_component x) as [p|] eqn:Hpar; [ | exact Hok].
  destruct Hok as (px & Hpx & Hg). exists px.
  split; [rewrite (Hp x p Hx Hpar); exact Hpx | exact Hg].
Qed.

Lemma append_nonempty (a b : string) : a <> "" -> a ++ b <> "".
Proof. destruct a; [congruence | discriminate]. Qed.

Section PropagateScope.

Variable S : list Component.
Hypothesis HF : forest S.

(** A child of [c] in the tree. *)
Lemma child_entry (c d : CompId) (sc : Component) :
  S !! c = Some sc -> d ∈ children sc ->
  exists sd, S !! d = Some sd /\ parent_component sd = Some c /\
             ~ anc S d c.
Proof.
  intros Hc Hd.
  destruct (forest_child_parent S HF c sc d Hc Hd) as (sd & Hsd & Hpar).
  exists sd. split; [exact Hsd | ]. split; [exact Hpar | ].
  destruct (forest_depth S HF d sd Hsd) as [n Hn].
  exact (anc_child_parent S d c sd n Hsd Hpar Hn).
Qed.

(** The parent entry of a component of the store is the one of the
    tree. *)
Lemma store_parent (h : Heap) (x : CompId) (xx : Component) (q : CompId) :
  same_shape S (components h) ->
  components h !! x = Some xx -> parent_component xx = Some q ->
  exists sx, S !! x = Some sx /\ parent_component sx = Some q.
Proof.
  intros Hsh Hx Hq.
  destruct (same_shape_lookup _ _ _ _ (same_shape_sym _ _ Hsh) Hx)
    as (sx & Hsx & _ & _ & Hp & _).
  exists sx. split; [exact Hsx | congruence].
Qed.

Lemma propagate_scope_loop (l : nat) (IH : propagate_scope_correct S l)
  (c : CompId) (sc : Component) (h h1 : Heap) :
  same_shape S (components h) ->
  S !! c = Some sc ->
  only_scopes h h1 ->
  (forall x, x <> c -> components h1 !! x = components h !! x) ->
  (forall x, anc S c x -> x <> c -> scope_ok (components h) x) ->
  (forall px,
     components h1 !! c = Some px -> global_scope px = "" -> h1 = h) ->
  forall todo done hk,
    children sc = (done ++ todo)%list ->
    loop_inv S h1 done hk ->
    forall h',
      for_each (propagate_scope l c) todo hk = Ok h' ->
      loop_inv S h1 (children sc) h'.
Proof.
  intros Hsh Hsc H01 Hne1 Hdesc Hempty.
  induction todo as [|d0 rest IHloop]; intros done hk Hsplit HJ h' Hrun.
  - injection Hrun as <-. rewrite app_nil_r in Hsplit. rewrite Hsplit.
    exact HJ.
  - rewrite for_each_cons in Hrun. inv_bind Hrun as hk1 Hk1.
    destruct HJ as (H1k & Huntouched & Hok).
    assert (d0 ∈ children sc) as Hd0
      by (rewrite Hsplit; apply elem_of_app; right; left).
    destruct (child_entry c d0 sc Hsc Hd0) as (sd & Hsd & Hpard & Hnotc).
    assert (NoDup (done ++ d0 :: rest)) as Hnd
      by (rewrite <- Hsplit; exact (forest_children_nodup S HF c sc Hsc)).
    assert (forall d x, d ∈ done -> anc S d0 x -> ~ anc S d x) as Hsib.
    { intros d x Hd Hanc0.
      assert (d ∈ children sc) as Hdc
        by (rewrite Hsplit; apply elem_of_app; left; exact Hd).
      destruct (child_entry c d sc Hsc Hdc) as (sd' & Hsd' & Hpard' & _).
      apply (anc_siblings S c d0 d x sd sd' HF Hsd Hpard Hsd' Hpard');
        [ | exact Hanc0].
      intros ->. apply NoDup_app in Hnd as (_ & Hdisj & _).
      apply (Hdisj d Hd). left. }
    assert (forall x, anc S d0 x ->
                      components hk !! x = components h !! x) as Hsame.
    { intros x Hx.
      rewrite (Huntouched x (fun d Hd => Hsib d x Hd Hx)).
      apply Hne1. intros ->. exact (Hnotc Hx). }
    assert (same_shape S (components hk)) as Hshk.
    { destruct H01 as (H01 & _). destruct H1k as (H1k & _).
      exact (same_shape_trans _ _ _ Hsh (same_shape_trans _ _ _ H01 H1k)). }
    assert (propagate_scope_pre S c d0 hk) as Hpre.
    { split.
      - intros x Hx Hxne.
        assert (anc S c x) as Hcx by exact (anc_snoc S c d0 x sd Hsd Hpard Hx).
        assert (x <> c) as Hxc by (intros ->; exact (Hnotc Hx)).
        apply (scope_ok_agree (components h)); [exact (Hsame x Hx) | |
                                                 exact (Hdesc x Hcx Hxc)].
        intros xx q Hxx Hq. apply Hsame.
        destruct (store_parent h x xx q Hsh Hxx Hq) as (sx & Hsx & Hsq).
        inversion Hx as [ | y yy q' Hy Hyq Hanc]; subst; [congruence | ].
        assert (q' = q) as -> by congruence. exact Hanc.
      - intros px Hpx Hg.
        assert (components hk !! c = components h1 !! c) as Hc1.
        { apply Huntouched. intros d Hd Hanc.
          assert (d ∈ children sc) as Hdc
            by (rewrite Hsplit; apply elem_of_app; left; exact Hd).
          destruct (child_entry c d sc Hsc Hdc) as (_ & _ & _ & Hn).
          exact (Hn Hanc). }
        rewrite Hc1 in Hpx. pose proof (Hempty px Hpx Hg) as ->.
        assert (anc S c d0) as Hcd0
          by exact (anc_snoc S c d0 d0 sd Hsd Hpard (anc_refl S d0)).
        assert (d0 <> c) as Hd0c
          by (intros ->; exact (Hnotc (anc_refl S c))).
        apply (scope_ok_agree (components h));
          [exact (Hsame d0 (anc_refl S d0)) | | exact (Hdesc d0 Hcd0 Hd0c)].
        intros xx q Hxx Hq.
        destruct (store_parent h d0 xx q Hsh Hxx Hq) as (sx & Hsx & Hsq).
        assert (q = c) as -> by congruence. exact Hc1. }
    destruct (IH c d0 hk hk1 sd Hshk Hsd Hpard Hpre Hk1)
      as (Hkk1 & Hunt1 & Hok1).
    apply (IHloop (done ++ [d0])%list hk1);
      [rewrite <- app_assoc; exact Hsplit | | exact Hrun].
    split; [exact (only_scopes_trans _ _ _ H1k Hkk1) | split].
    + intros x Hx. rewrite Hunt1.
      * apply Huntouched. intros d Hd. apply Hx. apply elem_of_app.
        left. exact Hd.
      * apply Hx. apply elem_of_app. right. left.
    + intros d x Hd Hanc. apply elem_of_app in Hd as [Hd|Hd].
      * assert (~ anc S d0 x) as Hn0
          by (intros Hanc0; exact (Hsib d x Hd Hanc0 Hanc)).
        apply (scope_ok_agree (components hk));
          [exact (Hunt1 x Hn0) | | exact (Hok d x Hd Hanc)].
        intros xx q Hxx Hq. apply Hunt1. intros Hanc0. apply Hn0.
        destruct (store_parent hk x xx q Hshk Hxx Hq) as (sx & Hsx & Hsq).
        exact (anc_step S d0 x sx q Hsx Hsq Hanc0).
      * apply list_elem_of_singleton in Hd as ->. exact (Hok1 x Hanc).
Qed.

Lemma propagate_scope_correct_all (limit : nat) :
  propagate_scope_correct S limit.
Proof.
  induction limit as [|l IH];
    intros p c h h' sc Hsh Hsc Hpar [Hdesc Hroot] Hrun; [discriminate | ].
  rewrite propagate_scope_S in Hrun.
  inv_bind Hrun as me Hme. inv_bind Hrun as sub Hsub.
  apply get_component_ok in Hme, Hsub.
  destruct (same_shape_lookup _ _ _ _ Hsh Hsc)
    as (sub' & Hsub' & Hscope & _ & Hparent & Hsubs & _).
  assert (sub' = sub) as -> by congruence.
  assert (children sub = children sc) as Hch
    by (unfold children; rewrite Hsubs; reflexivity).
  rewrite Hch in Hrun.
  set (h1 := rescoped me sub c h) in *.
  pose proof (rescoped_only_scopes me sub c h Hsub) as H01.
  fold h1 in H01.
  assert (forall x, x <> c -> components h1 !! x = components h !! x)
    as Hne1 by (intros x Hx; apply rescoped_lookup_ne; exact Hx).
  assert (forall px,
            components h1 !! c = Some px -> global_scope px = "" -> h1 = h)
    as Hempty.
  { intros px Hpx Hg. subst h1. unfold rescoped in *.
    case_bool_decide as Hme_g; [ | reflexivity].
    exfalso. simpl in Hpx.
    rewrite list_lookup_insert_eq in Hpx
      by exact (lookup_lt_Some _ _ _ Hsub).
    injection Hpx as <-. simpl in Hg.
    exact (append_nonempty _ _ Hme_g Hg). }
  assert (loop_inv S h1 [] h1) as HJ0.
  { split; [apply only_scopes_refl | split].
    - reflexivity.
    - intros d x Hd. inversion Hd. }
  destruct (propagate_scope_loop l IH c sc h h1 Hsh Hsc H01 Hne1 Hdesc
              Hempty (children sc) [] h1 eq_refl HJ0 h' Hrun)
    as (H1' & Huntouched & Hok).
  destruct (forest_depth S HF c sc Hsc) as [n Hn].
  pose proof (anc_child_parent S c p sc n Hsc Hpar Hn) as Hnotp.
  assert (forall x, ~ anc S c x ->
                    components h' !! x = components h !! x) as Hout.
  { intros x Hx. rewrite Huntouched.
    - apply Hne1. intros ->. exact (Hx (anc_refl S c)).
    - intros d Hd Hanc.
      destruct (child_entry c d sc Hsc Hd) as (sd & Hsd & Hpard & _).
      exact (Hx (anc_snoc S c d x sd Hsd Hpard Hanc)). }
  split; [exact (only_scopes_trans _ _ _ H01 H1') | ].
  split; [exact Hout | ].
  intros x Hx. destruct (anc_inv S c x Hx)
    as [-> | (d & dx & Hd & Hdpar & Hanc)].
  - assert (components h' !! c = components h1 !! c) as Hc1.
    { apply Huntouched. intros d Hd Hanc.
      destruct (child_entry c d sc Hsc Hd) as (_ & _ & _ & Hnot).
      exact (Hnot Hanc). }
    pose proof (Hout p Hnotp) as Hp'.
    subst h1. unfold rescoped in *. case_bool_decide as Hme_g.
    + intros x' Hx'. rewrite Hc1 in Hx'. simpl in Hx'.
      rewrite list_lookup_insert_eq in Hx'
        by exact (lookup_lt_Some _ _ _ Hsub).
      injection Hx' as <-. simpl. rewrite Hparent, Hpar.
      exists me. split; [rewrite Hp'; exact Hme | ].
      unfold join_scope.
      rewrite (bool_decide_eq_true_2 (global_scope me <> "") Hme_g).
      reflexivity.
    + assert (global_scope me = "") as Hg.
      { destruct (decide (global_scope me = "")) as [Hg|Hg];
          [exact Hg | contradiction]. }
      apply (scope_ok_agree (components h)); [exact Hc1 | |
                                               exact (Hroot me Hme Hg)].
      intros xx q Hxx Hq.
      assert (q = p) as -> by congruence. exact Hp'.
  - destruct (forest_parent_child S HF d dx c Hd Hdpar) as (px & Hpx & Hin).
    assert (px = sc) as -> by congruence.
    exact (Hok d x Hin Hanc).
Qed.

End PropagateScope.

(** ** add_component *)

Lemma dict_has_false {V : Type} (k : string) (d : list (string * V)) :
  dict_has k d = false <-> k ∉ map fst d.
Proof. unfold dict_has. apply bool_decide_eq_false. Qed.

Lemma dict_has_true {V : Type} (k : string) (d : list (string * V)) :
  dict_has k d = true <-> k ∈ map fst d.
Proof. unfold dict_has. apply bool_decide_eq_true. Qed.

Lemma dict_set_new {V : Type} (k : string) (v : V) (d : list (string * V)) :
  dict_has k d = false -> dict_set k v d = (d ++ [(k, v)])%list.
Proof. unfold dict_set. intros ->. reflexivity. Qed.

Lemma linked_lookup (self component : CompId) (n : string) (h : Heap)
  (k : CompId) :
  components (linked self component n h) !! k =
  linked_entry self component n k <$> components h !! k.
Proof. simpl. apply list_lookup_imap. Qed.

(** The calls of [add_component] that pass its two checks. *)
Lemma add_component_eq (limit : nat) (self component : CompId) (h : Heap)
  (me sub : Component) :
  components h !! self = Some me ->
  components h !! component = Some sub ->
  dict_has (name sub) (sub_components me) = false ->
  parent_component sub = None ->
  add_component limit self component h =
  propagate_scope limit self component
    (linked self component (name sub) h).
Proof.
  intros Hme Hsub Hname Hpar. unfold add_component.
  rewrite (get_component_eq _ _ _ Hme), (get_component_eq _ _ _ Hsub).
  cbn [bind]. rewrite Hname, Hpar.
  rewrite bool_decide_eq_false_2 by (intros H; apply H; reflexivity).
  rewrite (update_component_eq _ _ _ _ Hsub). cbn [bind].
  set (h1 := put_component component _ h).
  assert (exists me1,
            components h1 !! self = Some me1 /\
            sub_components me1 = sub_components me /\
            me1 = (if bool_decide (self = component)
                   then set_parent_component (Some self) me else me))
    as (me1 & Hme1 & Hsubs1 & Hme1eq).
  { subst h1. simpl. destruct (decide (self = component)) as [->|Hne].
    - rewrite list_lookup_insert_eq by exact (lookup_lt_Some _ _ _ Hsub).
      assert (me = sub) as -> by congruence.
      eexists. split; [reflexivity | ].
      rewrite bool_decide_eq_true_2 by reflexivity. auto.
    - rewrite list_lookup_insert_ne by congruence.
      exists me. rewrite bool_decide_eq_false_2 by exact Hne. auto. }
  rewrite (update_component_eq _ _ _ _ Hme1). cbn [bind]. f_equal.
  unfold linked, put_component. subst h1. simpl. f_equal.
  apply list_eq. intros k. rewrite list_lookup_imap.
  rewrite Hsubs1, (dict_set_new _ _ _ Hname).
  unfold linked_entry.
  destruct (decide (k = self)) as [->|Hks].
  - rewrite list_lookup_insert_eq
      by (rewrite length_insert; exact (lookup_lt_Some _ _ _ Hme)).
    rewrite Hme. simpl. rewrite (bool_decide_eq_true_2 (self = self) eq_refl).
    rewrite Hme1eq. case_bool_decide; reflexivity.
  - rewrite list_lookup_insert_ne by congruence.
    rewrite (bool_decide_eq_false_2 (k = self) Hks).
    destruct (decide (k = component)) as [->|Hkc].
    + rewrite list_lookup_insert_eq by exact (lookup_lt_Some _ _ _ Hsub).
      rewrite Hsub. simpl.
      rewrite (bool_decide_eq_true_2 (component = component) eq_refl).
      reflexivity.
    + rewrite list_lookup_insert_ne by congruence.
      rewrite (bool_decide_eq_false_2 (k = component) Hkc).
      destruct (components h !! k); reflexivity.
Qed.

Lemma add_component_duplicate_name (limit : nat) (self component : CompId)
  (h : Heap) (me sub : Component) :
  components h !! self = Some me ->
  components h !! component = Some sub ->
  name sub ∈ map fst (sub_components me) ->
  add_component limit self component h = Raise YARLError.
Proof.
  intros Hme Hsub Hname. unfold add_component.
  rewrite (get_component_eq _ _ _ Hme), (get_component_eq _ _ _ Hsub).
  cbn [bind]. apply dict_has_true in Hname. rewrite Hname. reflexivity.
Qed.

Lemma add_component_has_parent (limit : nat) (self component : CompId)
  (h : Heap) (me sub : Component) :
  components h !! self = Some me ->
  components h !! component = Some sub ->
  parent_component sub <> None ->
  add_component limit self component h = Raise YARLError.
Proof.
  intros Hme Hsub Hpar. unfold add_component.
  rewrite (get_component_eq _ _ _ Hme), (get_component_eq _ _ _ Hsub).
  cbn [bind]. destruct (dict_has (name sub) (sub_components me));
    [reflexivity | ].
  rewrite bool_decide_eq_true_2 by exact Hpar. reflexivity.
Qed.

(** What a successful call tells about its arguments. *)
Lemma add_component_ok_inv (limit : nat) (self component : CompId)
  (h h' : Heap) :
  add_component limit self component h = Ok h' ->
  exists me sub,
    components h !! self = Some me /\
    components h !! component = Some sub /\
    (name sub ∉ map fst (sub_components me)) /\
    parent_component sub = None /\
    propagate_scope limit self component
      (linked self component (name sub) h) = Ok h'.
Proof.
  intros H. pose proof H as H0. unfold add_component in H0.
  inv_bind H0 as me Hme. inv_bind H0 as sub Hsub.
  apply get_component_ok in Hme, Hsub.
  destruct (dict_has (name sub) (sub_components me)) eqn:Hname;
    [discriminate | ].
  destruct (parent_component sub) as [q|] eqn:Hpar.
  { rewrite bool_decide_eq_true_2 in H0 by discriminate. discriminate. }
  rewrite (add_component_eq limit self component h me sub Hme Hsub
             Hname Hpar) in H.
  exists me, sub. split; [exact Hme | ]. split; [exact Hsub | ].
  split; [apply dict_has_false; exact Hname | ].
  split; [exact Hpar | exact H].
Qed.

Lemma linked_entry_parent (self component : CompId) (n : string)
  (k : CompId) (x : Component) :
  parent_component (linked_entry self component n k x) =
  if bool_decide (k = component) then Some self else parent_component x.
Proof. unfold linked_entry. repeat case_bool_decide; reflexivity. Qed.

Lemma linked_entry_children (self component : CompId) (n : string)
  (k : CompId) (x : Component) :
  children (linked_entry self component n k x) =
  if bool_decide (k = self) then (children x ++ [component])%list
  else children x.
Proof.
  unfold linked_entry, children.
  repeat case_bool_decide; simpl; try reflexivity;
    rewrite map_app; reflexivity.
Qed.

Lemma linked_entry_scopes (self component : CompId) (n : string)
  (k : CompId) (x : Component) :
  scope (linked_entry self component n k x) = scope x /\
  global_scope (linked_entry self component n k x) = global_scope x /\
  name (linked_entry self component n k x) = name x.
Proof. unfold linked_entry. repeat case_bool_decide; auto. Qed.

Section Linking.

Variables (h : Heap) (self component : CompId) (n : string).
Variables (me sub : Component).
Hypothesis HF : forest (components h).
Hypothesis Hme : components h !! self = Some me.
Hypothesis Hsub : components h !! component = Some sub.
Hypothesis Hroot : parent_component sub = None.

Let S := components h.
Let S2 := components (linked self component n h).

Lemma linked_lookup_Some (k : CompId) (x : Component) :
  S !! k = Some x -> S2 !! k = Some (linked_entry self component n k x).
Proof.
  intros Hx. subst S S2. rewrite linked_lookup, Hx. reflexivity.
Qed.

Lemma linked_lookup_inv (k : CompId) (x2 : Component) :
  S2 !! k = Some x2 ->
  exists x, S !! k = Some x /\ x2 = linked_entry self component n k x.
Proof.
  subst S S2. rewrite linked_lookup. intros Hx.
  destruct (components h !! k) as [x|]; [ | discriminate].
  injection Hx as <-. eauto.
Qed.

(** Attaching a component below itself closes a cycle, along which
    chains of sub-component links of any length exist. *)
Lemma linked_cycle (m : nat) :
  forall x,
    anc S component x -> anc S x self -> descends S2 x m.
Proof.
  induction m as [|m IH]; intros x Hcx Hxs; [apply descends_O | ].
  assert (exists xx, S !! x = Some xx) as [xx Hxx].
  { inversion Hcx; subst; eauto. }
  destruct (decide (x = self)) as [->|Hne].
  - apply (descends_S S2 self _ component m
             (linked_lookup_Some self xx Hxx)).
    + rewrite linked_entry_children.
      rewrite bool_decide_eq_true_2 by reflexivity.
      apply elem_of_app. right. left.
    + apply IH; [apply anc_refl | exact Hcx].
  - destruct (anc_inv S x self Hxs) as [Heq | (d & dx & Hd & Hdp & Hanc)];
      [congruence | ].
    apply (descends_S S2 x _ d m (linked_lookup_Some x xx Hxx)).
    + destruct (forest_parent_child S HF d dx x Hd Hdp) as (px & Hpx & Hin).
      assert (px = xx) as -> by congruence.
      rewrite linked_entry_children.
      rewrite bool_decide_eq_false_2 by exact Hne. exact Hin.
    + apply IH; [ | exact Hanc].
      exact (anc_step S component d dx x Hd Hdp Hcx).
Qed.

(** A call of [propagate_scope] on the linked store that returns shows
    that [self] was not below [component]. *)
Lemma linked_acyclic (limit : nat) (h' : Heap) :
  propagate_scope limit self component (linked self component n h) = Ok h' ->
  ~ anc S component self.
Proof.
  intros Hrun Hanc.
  pose proof (propagate_scope_descends limit _ _ _ _ Hrun limit
                (linked_cycle limit component (anc_refl S component) Hanc)).
  lia.
Qed.

Hypothesis Hacyclic : ~ anc S component self.

Lemma linked_keeps_depth (x : CompId) (d : nat) :
  has_depth S x d -> ~ anc S component x -> has_depth S2 x d.
Proof.
  intros H. induction H as [c x Hx Hp | c x p d Hx Hp _ IH]; intros Hn.
  - apply (has_depth_root S2 c _ (linked_lookup_Some c x Hx)).
    rewrite linked_entry_parent.
    rewrite bool_decide_eq_false_2; [exact Hp | ].
    intros ->. exact (Hn (anc_refl S component)).
  - apply (has_depth_child S2 c _ p d (linked_lookup_Some c x Hx)).
    + rewrite linked_entry_parent.
      rewrite bool_decide_eq_false_2; [exact Hp | ].
      intros ->. exact (Hn (anc_refl S component)).
    + apply IH. intros Hanc.
      exact (Hn (anc_step S component c x p Hx Hp Hanc)).
Qed.

Lemma linked_has_depth (x : CompId) (d : nat) :
  has_depth S x d -> exists d', has_depth S2 x d'.
Proof.
  destruct (forest_depth S HF self me Hme) as [ds Hds].
  pose proof (linked_keeps_depth self ds Hds Hacyclic) as Hds2.
  assert (has_depth S2 component (Datatypes.S ds)) as Hdc.
  { apply (has_depth_child S2 component _ self ds
             (linked_lookup_Some component sub Hsub)); [ | exact Hds2].
    rewrite linked_entry_parent.
    rewrite bool_decide_eq_true_2 by reflexivity. reflexivity. }
  intros H. induction H as [c x Hx Hp | c x p d Hx Hp _ [d' IH]].
  - destruct (decide (c = component)) as [->|Hne]; [eauto | ].
    exists 0. apply (has_depth_root S2 c _ (linked_lookup_Some c x Hx)).
    rewrite linked_entry_parent.
    rewrite bool_decide_eq_false_2 by exact Hne. exact Hp.
  - exists (Datatypes.S d').
    apply (has_depth_child S2 c _ p d' (linked_lookup_Some c x Hx));
      [ | exact IH].
    rewrite linked_entry_parent.
    rewrite bool_decide_eq_false_2; [exact Hp | ].
    intros ->. subst S. congruence.
Qed.

(** Attaching a root below a component that is not under it keeps a
    forest. *)
Lemma linked_forest : forest S2.
Proof.
  constructor.
  - intros p px2 c Hp Hc.
    destruct (linked_lookup_inv p px2 Hp) as (px & Hpx & ->).
    rewrite linked_entry_children in Hc.
    assert (c ∈ children px \/ (p = self /\ c = component)) as [Hold|[-> ->]].
    { case_bool_decide; [ | left; exact Hc].
      apply elem_of_app in Hc as [Hc|Hc]; [left; exact Hc | ].
      apply list_elem_of_singleton in Hc. right. auto. }
    + destruct (forest_child_parent S HF p px c Hpx Hold)
        as (cx & Hcx & Hpar).
      exists (linked_entry self component n c cx).
      split; [exact (linked_lookup_Some c cx Hcx) | ].
      rewrite linked_entry_parent.
      rewrite bool_decide_eq_false_2; [exact Hpar | ].
      intros ->. subst S. congruence.
    + exists (linked_entry self component n component sub).
      split; [exact (linked_lookup_Some component sub Hsub) | ].
      rewrite linked_entry_parent.
      rewrite bool_decide_eq_true_2 by reflexivity. reflexivity.
  - intros c cx2 p Hc Hpar.
    destruct (linked_lookup_inv c cx2 Hc) as (cx & Hcx & ->).
    rewrite linked_entry_parent in Hpar.
    case_bool_decide as Hcc.
    + injection Hpar as <-. subst c.
      exists (linked_entry self component n self me).
      split; [exact (linked_lookup_Some self me Hme) | ].
      rewrite linked_entry_children.
      rewrite bool_decide_eq_true_2 by reflexivity.
      apply elem_of_app. right. left.
    + destruct (forest_parent_child S HF c cx p Hcx Hpar)
        as (px & Hpx & Hin).
      exists (linked_entry self component n p px).
      split; [exact (linked_lookup_Some p px Hpx) | ].
      rewrite linked_entry_children. case_bool_decide; [ | exact Hin].
      apply elem_of_app. left. exact Hin.
  - intros p px2 Hp.
    destruct (linked_lookup_inv p px2 Hp) as (px & Hpx & ->).
    rewrite linked_entry_children.
    pose proof (forest_children_nodup S HF p px Hpx) as Hnd.
    case_bool_decide as Hps; [ | exact Hnd].
    apply NoDup_app. split; [exact Hnd | ].
    split; [ | apply NoDup_singleton].
    intros c Hc Hc'. apply list_elem_of_singleton in Hc'. subst c p.
    destruct (forest_child_parent S HF self px component Hpx Hc)
      as (cx & Hcx & Hpar).
    subst S. congruence.
  - intros c cx2 Hc.
    destruct (linked_lookup_inv c cx2 Hc) as (cx & Hcx & ->).
    destruct (forest_depth S HF c cx Hcx) as [d Hd].
    exact (linked_has_depth c d Hd).
Qed.

(** Every component but the attached one still fits its parent. *)
Lemma linked_scope_ok (k : CompId) :
  k <> component -> scope_ok S k -> scope_ok S2 k.
Proof.
  intros Hne Hok x2 Hx2.
  destruct (linked_lookup_inv k x2 Hx2) as (x & Hx & ->).
  specialize (Hok x Hx).
  destruct (linked_entry_scopes self component n k x) as (-> & -> & _).
  rewrite linked_entry_parent.
  rewrite bool_decide_eq_false_2 by exact Hne.
  destruct (parent_component x) as [p|]; [ | exact Hok].
  destruct Hok as (px & Hpx & Hg).
  exists (linked_entry self component n p px).
  split; [exact (linked_lookup_Some p px Hpx) | ].
  destruct (linked_entry_scopes self component n p px) as (_ & -> & _).
  exact Hg.
Qed.

End Linking.

Lemma anc_dec (cs : list Component) (a x : CompId) (n : nat) :
  has_depth cs x n -> anc cs a x \/ ~ anc cs a x.
Proof.
  intros H. induction H as [c x Hx Hp | c x p n Hx Hp _ IH].
  - destruct (decide (a = c)) as [->|Hne]; [left; apply anc_refl | ].
    right. intros Hanc.
    inversion Hanc as [ | y yy q Hy Hq _]; subst; congruence.
  - destruct (decide (a = c)) as [->|Hne]; [left; apply anc_refl | ].
    destruct IH as [IH|IH].
    + left. exact (anc_step cs a c x p Hx Hp IH).
    + right. intros Hanc.
      inversion Hanc as [ | y yy q Hy Hq Hanc']; subst; [congruence | ].
      assert (q = p) as -> by congruence. exact (IH Hanc').
Qed.

(** [add_component] keeps the invariant of the tree. *)
Lemma add_component_tree_inv (limit : nat) (self component : CompId)
  (h h' : Heap) :
  tree_inv h -> add_component limit self component h = Ok h' ->
  tree_inv h'.
Proof.
  intros [HF Hok] Hadd.
  destruct (add_component_ok_inv _ _ _ _ _ Hadd)
    as (me & sub & Hme & Hsub & Hname & Hpar & Hrun).
  pose proof (linked_acyclic h self component (name sub) sub HF Hsub
                limit h' Hrun) as Hacyc.
  pose proof (linked_forest h self component (name sub) me sub HF Hme Hsub
                Hpar Hacyc) as HF2.
  set (h2 := linked self component (name sub) h) in *.
  set (sc2 := linked_entry self component (name sub) component sub).
  assert (components h2 !! component = Some sc2) as Hsc2
    by exact (linked_lookup_Some h self component (name sub) component
                sub Hsub).
  assert (parent_component sc2 = Some self) as Hpar2.
  { subst sc2. rewrite linked_entry_parent.
    rewrite bool_decide_eq_true_2 by reflexivity. reflexivity. }
  assert (propagate_scope_pre (components h2) self component h2) as Hpre.
  { split.
    - intros x _ Hne.
      exact (linked_scope_ok h self component (name sub) x Hne (Hok x)).
    - intros px Hpx Hg x2 Hx2.
      assert (x2 = sc2) as -> by congruence.
      rewrite Hpar2. exists px. split; [exact Hpx | ].
      subst sc2.
      destruct (linked_entry_scopes self component (name sub) component sub)
        as (-> & -> & _).
      pose proof (Hok component sub Hsub) as Hs. rewrite Hpar in Hs.
      rewrite Hg. unfold join_scope.
      rewrite bool_decide_eq_false_2 by (intros H; apply H; reflexivity).
      exact Hs. }
  destruct (propagate_scope_correct_all (components h2) HF2 limit self
              component h2 h' sc2 eq_refl Hsc2 Hpar2 Hpre Hrun)
    as ((Hshape & _) & Hunt & Hokin).
  split.
  - exact (forest_struct _ _ (same_shape_struct _ _ Hshape) HF2).
  - intros k x Hx.
    destruct (same_shape_lookup _ _ _ _ (same_shape_sym _ _ Hshape) Hx)
      as (x2 & Hx2 & _).
    destruct (forest_depth _ HF2 k x2 Hx2) as [d Hd].
    destruct (anc_dec (components h2) component k d Hd) as [Hanc|Hnanc].
    + exact (Hokin k Hanc x Hx).
    + assert (k <> component) as Hne
        by (intros ->; exact (Hnanc (anc_refl _ component))).
      refine (scope_ok_agree (components h2) (components h') k
                (Hunt k Hnanc) _ _ x Hx).
      * intros xx q Hxx Hq. apply Hunt. intros Hanc. apply Hnanc.
        exact (anc_step _ component k xx q Hxx Hq Hanc).
      * exact (linked_scope_ok h self component (name sub) k Hne (Hok k)).
Qed.

(** ** Enough recursion depth *)

Lemma for_each_total {A S : Type} (Inv : S -> Prop)
  (body : A -> S -> result S) (l : list A) :
  (forall x s, x ∈ l -> Inv s -> exists s', body x s = Ok s' /\ Inv s') ->
  forall s, Inv s -> exists s', for_each body l s = Ok s' /\ Inv s'.
Proof.
  induction l as [|x l IH]; intros Hbody s Hs.
  - exists s. auto.
  - destruct (Hbody x s ltac:(left) Hs) as (s1 & H1 & Hs1).
    destruct (IH (fun y t Hy => Hbody y t ltac:(right; exact Hy)) s1 Hs1)
      as (s' & H' & Hs').
    exists s'. rewrite for_each_cons, H1. auto.
Qed.

Lemma depth_bound (cs : list Component) :
  forest cs -> exists D, forall c n, has_depth cs c n -> n < D.
Proof.
  intros HF.
  assert (forall k, k <= length cs ->
            exists D, forall c n, c < k -> has_depth cs c n -> n < D)
    as Hk.
  { induction k as [|k IH]; intros Hle.
    - exists 0. intros c n Hc. lia.
    - destruct (IH ltac:(lia)) as [D HD].
      destruct (lookup_lt_is_Some_2 cs k ltac:(lia)) as [x Hx].
      destruct (forest_depth cs HF k x Hx) as [nk Hnk].
      exists (Nat.max D (Datatypes.S nk)). intros c n Hc Hn.
      destruct (decide (c = k)) as [->|Hne].
      + rewrite (has_depth_det _ _ _ _ Hn Hnk). lia.
      + pose proof (HD c n ltac:(lia) Hn). lia. }
  destruct (Hk (length cs) ltac:(lia)) as [D HD].
  exists D. intros c n Hn. apply (HD c n); [ | exact Hn].
  inversion Hn as [c' x Hx _ | c' x p n' Hx _ _]; subst;
    exact (lookup_lt_Some _ _ _ Hx).
Qed.

(** On a forest whose depths stay below [D], [propagate_scope] returns
    as soon as the recursion limit exceeds what is left of [D] below the
    component it starts at. *)
Lemma propagate_scope_total (S : list Component) (D : nat) :
  forest S ->
  (forall c n, has_depth S c n -> n < D) ->
  forall limit p c h n,
    same_shape S (components h) ->
    is_Some (S !! p) ->
    has_depth S c n ->
    D - n <= limit ->
    exists h', propagate_scope limit p c h = Ok h'.
Proof.
  intros HF HD. induction limit as [|l IH]; intros p c h n Hsh Hp Hn Hle.
  - pose proof (HD c n Hn). lia.
  - rewrite propagate_scope_S.
    destruct Hp as [sp Hsp].
    destruct (same_shape_lookup _ _ _ _ Hsh Hsp) as (me & Hme & _).
    assert (exists sc, S !! c = Some sc) as [sc Hsc]
      by (inversion Hn; subst; eauto).
    destruct (same_shape_lookup _ _ _ _ Hsh Hsc)
      as (sub & Hsub & _ & _ & _ & Hsubs & _).
    rewrite (get_component_eq _ _ _ Hme), (get_component_eq _ _ _ Hsub).
    cbn [bind].
    destruct (for_each_total (fun s => same_shape S (components s))
                (propagate_scope l c) (children sub)) with
      (s := rescoped me sub c h) as (h' & Hrun & _).
    + intros d s Hd Hs.
      assert (d ∈ children sc) as Hd'
        by (unfold children in *; rewrite <- Hsubs; exact Hd).
      destruct (forest_child_parent S HF c sc d Hsc Hd')
        as (sd & Hsd & Hpar).
      pose proof (has_depth_child S d sd c n Hsd Hpar Hn) as Hnd.
      pose proof (HD d _ Hnd).
      destruct (IH c d s (Datatypes.S n) Hs ltac:(eauto) Hnd ltac:(lia))
        as [s' Hs'].
      exists s'. split; [exact Hs' | ].
      destruct (propagate_scope_only_scopes _ _ _ _ _ Hs') as (Hss & _).
      exact (same_shape_trans _ _ _ Hs Hss).
    + destruct (rescoped_only_scopes me sub c h Hsub) as (H1 & _).
      exact (same_shape_trans _ _ _ Hsh H1).
    + eauto.
Qed.

(** On a forest, attaching a root under a component that is not below it
    succeeds for every large enough recursion limit. *)
Lemma add_component_total (self component : CompId) (h : Heap)
  (me sub : Component) :
  forest (components h) ->
  components h !! self = Some me ->
  components h !! component = Some sub ->
  name sub ∉ map fst (sub_components me) ->
  parent_component sub = None ->
  ~ anc (components h) component self ->
  exists limit0,
    forall limit,
      limit0 <= limit ->
      exists h', add_component limit self component h = Ok h'.
Proof.
  intros HF Hme Hsub Hname Hpar Hacyc.
  pose proof (linked_forest h self component (name sub) me sub HF Hme Hsub
                Hpar Hacyc) as HF2.
  destruct (depth_bound _ HF2) as [D HD].
  exists D. intros limit Hle.
  rewrite (add_component_eq limit self component h me sub Hme Hsub
             (proj2 (dict_has_false _ _) Hname) Hpar).
  pose proof (linked_lookup_Some h self component (name sub) component sub
                Hsub) as Hsc2.
  destruct (forest_depth _ HF2 component _ Hsc2) as [d Hd].
  apply (propagate_scope_total _ D HF2 HD limit self component _ d);
    [reflexivity | | exact Hd | lia].
  rewrite (linked_lookup_Some h self component (name sub) self me Hme).
  eauto.
Qed.

(** ** The invariant along the constructor *)

Lemma same_tree_lookup (cs cs' : list Component) (k : CompId)
  (x : Component) :
  same_tree cs cs' -> cs !! k = Some x ->
  exists x',
    cs' !! k = Some x' /\
    scope x' = scope x /\ parent_component x' = parent_component x /\
    global_scope x' = global_scope x.
Proof.
  intros Hs Hx. unfold same_tree in Hs.
  assert (map (fun x => (struct_view x, global_scope x)) cs' !! k
          = Some (struct_view x, global_scope x)) as H
    by (rewrite <- Hs, list_lookup_fmap, Hx; reflexivity).
  rewrite list_lookup_fmap in H.
  destruct (cs' !! k) as [x'|]; [ | discriminate].
  simpl in H. unfold struct_view in H. exists x'.
  split; [reflexivity | ]. repeat split; congruence.
Qed.

Lemma same_tree_sym (cs cs' : list Component) :
  same_tree cs cs' -> same_tree cs' cs.
Proof. unfold same_tree. auto. Qed.

Lemma same_tree_trans (a b c : list Component) :
  same_tree a b -> same_tree b c -> same_tree a c.
Proof. unfold same_tree. congruence. Qed.

Lemma tree_inv_same_tree (h h' : Heap) :
  same_tree (components h) (components h') -> tree_inv h -> tree_inv h'.
Proof.
  intros Hs [HF Hok]. split.
  - exact (forest_struct _ _ (same_tree_struct _ _ Hs) HF).
  - intros k x' Hx'.
    destruct (same_tree_lookup _ _ _ _ (same_tree_sym _ _ Hs) Hx')
      as (x & Hx & Hscope & Hpar & Hg).
    specialize (Hok k x Hx). rewrite Hscope, Hpar, Hg in Hok.
    destruct (parent_component x') as [p|]; [ | exact Hok].
    destruct Hok as (px & Hpx & Hgx).
    destruct (same_tree_lookup _ _ _ _ Hs Hpx) as (px' & Hpx' & _ & _ & Hg').
    exists px'. split; [exact Hpx' | congruence].
Qed.

Lemma same_tree_insert (cs : list Component) (k : CompId)
  (x y : Component) :
  cs !! k = Some x ->
  struct_view y = struct_view x -> global_scope y = global_scope x ->
  same_tree cs (<[k := y]> cs).
Proof.
  intros Hx Hv Hg. unfold same_tree. rewrite list_fmap_insert.
  symmetry. apply list_insert_id.
  rewrite list_lookup_fmap, Hx. simpl. congruence.
Qed.

Lemma add_socket_same_tree (self : CompId) (sname : string)
  (value : option Z) (type_ : option string) (internal : bool)
  (h h' : Heap) :
  add_socket self sname value type_ internal h = Ok h' ->
  same_tree (components h) (components h').
Proof.
  intros H. apply add_socket_ok_inv in H as (c & t & Hc & _ & _ & ->).
  simpl. apply (same_tree_insert _ _ c _ Hc);
    unfold append_socket; destruct internal;
    try destruct (String.eqb t "in"); reflexivity.
Qed.

Lemma add_sockets_same_tree (self : CompId) (names : list string)
  (type_ : option string) (internal : bool) (h h' : Heap) :
  add_sockets self names type_ internal h = Ok h' ->
  same_tree (components h) (components h').
Proof.
  unfold add_sockets.
  apply (for_each_rel
           (fun a b => same_tree (components a) (components b))).
  - reflexivity.
  - intros a b c. apply same_tree_trans.
  - intros x s s'. apply add_socket_same_tree.
Qed.

Lemma anc_app (cs : list Component) (x : Component) (a k : CompId) :
  anc cs a k -> anc (cs ++ [x]) a k.
Proof.
  intros H. induction H as [ | k kk p Hk Hp _ IH].
  - apply anc_refl.
  - exact (anc_step _ a k kk p (lookup_app_l_Some _ _ _ _ Hk) Hp IH).
Qed.

Lemma has_depth_app (cs : list Component) (x : Component) (k : CompId)
  (n : nat) :
  has_depth cs k n -> has_depth (cs ++ [x]) k n.
Proof.
  intros H. induction H as [c y Hy Hp | c y p n Hy Hp _ IH].
  - exact (has_depth_root _ c y (lookup_app_l_Some _ _ _ _ Hy) Hp).
  - exact (has_depth_child _ c y p n (lookup_app_l_Some _ _ _ _ Hy) Hp IH).
Qed.

Lemma lookup_snoc_Some {A : Type} (l : list A) (x y : A) (k : nat) :
  (l ++ [x])%list !! k = Some y ->
  l !! k = Some y \/ (k = length l /\ y = x).
Proof.
  intros H. apply lookup_app_Some in H as [H | [Hle H]]; [left; exact H | ].
  right. destruct (k - length l) as [|j] eqn:Hj; simpl in H.
  - injection H as <-. split; [lia | reflexivity].
  - destruct j; discriminate.
Qed.

(** A new component without parent and sub-components, whose global
    scope is its scope, keeps the invariant. *)
Lemma tree_inv_alloc (h : Heap) (x : Component) (s : list Socket)
  (g : list GraphFunction) :
  tree_inv h ->
  parent_component x = None -> sub_components x = [] ->
  global_scope x = scope x ->
  tree_inv (mkHeap (components h ++ [x]) s g).
Proof.
  intros [HF Hok] Hpar Hsub Hg. split; simpl.
  - constructor.
    + intros p px c Hp Hc.
      apply lookup_snoc_Some in Hp as [Hp | [_ ->]].
      * destruct (forest_child_parent _ HF p px c Hp Hc)
          as (cx & Hcx & Hcp).
        exists cx. split; [exact (lookup_app_l_Some _ _ _ _ Hcx) | exact Hcp].
      * unfold children in Hc. rewrite Hsub in Hc. inversion Hc.
    + intros c cx p Hc Hcp.
      apply lookup_snoc_Some in Hc as [Hc | [_ ->]]; [ | congruence].
      destruct (forest_parent_child _ HF c cx p Hc Hcp) as (px & Hpx & Hin).
      exists px. split; [exact (lookup_app_l_Some _ _ _ _ Hpx) | exact Hin].
    + intros p px Hp.
      apply lookup_snoc_Some in Hp as [Hp | [_ ->]].
      * exact (forest_children_nodup _ HF p px Hp).
      * unfold children. rewrite Hsub. constructor.
    + intros c cx Hc.
      apply lookup_snoc_Some in Hc as [Hc' | [-> ->]].
      * destruct (forest_depth _ HF c cx Hc') as [n Hn].
        exists n. exact (has_depth_app _ _ _ _ Hn).
      * exists 0.
        exact (has_depth_root _ _ x (lookup_snoc_new _ _) Hpar).
  - intros k y Hy.
    apply lookup_snoc_Some in Hy as [Hy | [_ ->]].
    + specialize (Hok k y Hy).
      destruct (parent_component y) as [p|]; [ | exact Hok].
      destruct Hok as (px & Hpx & Hgx).
      exists px. split; [exact (lookup_app_l_Some _ _ _ _ Hpx) | exact Hgx].
    + rewrite Hpar. exact Hg.
Qed.

Lemma Component_init_tree_inv (scope_ : string) (name_ : option string)
  (flags : OpsFlags) (methods inputs outputs : list string) (h h' : Heap)
  (c : CompId) :
  tree_inv h ->
  Component_init scope_ name_ flags methods inputs outputs h = Ok (c, h') ->
  tree_inv h'.
Proof.
  intros Hinv H. unfold Component_init in H.
  inv_bind H as u Hu. unfold alloc_component in H.
  inv_bind H as h2 H2. inv_bind H as h3 H3. injection H as _ <-.
  unfold define_inputs in H2. inv_bind H2 as h2' H2'. injection H2 as <-.
  unfold define_outputs in H3.
  apply add_sockets_same_tree in H2', H3.
  apply (tree_inv_same_tree _ _ (same_tree_trans _ _ _ H2' H3)).
  apply tree_inv_alloc; [exact Hinv | reflexivity ..].
Qed.

(** Every store put together by the constructor and [add_component] is
    a forest in which every global scope fits that of the parent. *)
Lemma assembled_tree_inv (h : Heap) : assembled h -> tree_inv h.
Proof.
  induction 1 as [ | h h' scope_ name_ flags methods inputs outputs c _ IH H
                   | h h' limit self component _ IH H].
  - split.
    + constructor; simpl; intros; rewrite lookup_nil in *; discriminate.
    + intros k x Hx. simpl in Hx. rewrite lookup_nil in Hx. discriminate.
  - exact (Component_init_tree_inv _ _ _ _ _ _ _ _ _ IH H).
  - exact (add_component_tree_inv _ _ _ _ _ IH H).
Qed.

(** ** Global scopes and paths *)

Lemma string_app_nil_r (s : string) : s ++ "" = s.
Proof. induction s as [|c s IH]; simpl; [reflexivity | now rewrite IH]. Qed.

Lemma string_app_assoc (a b c : string) : (a ++ b) ++ c = a ++ b ++ c.
Proof. induction a as [|x a IH]; simpl; [reflexivity | now rewrite IH]. Qed.

Lemma join_slash_snoc (l : list string) (s : string) :
  l <> [] -> join_slash (l ++ [s]) = join_slash l ++ "/" ++ s.
Proof.
  induction l as [|a [|b r] IH]; intros Hne; [congruence | reflexivity | ].
  change (join_slash ((a :: b :: r) ++ [s]))
    with (a ++ "/" ++ join_slash ((b :: r) ++ [s])).
  rewrite IH by discriminate.
  change (join_slash (a :: b :: r)) with (a ++ "/" ++ join_slash (b :: r)).
  rewrite !string_app_assoc. reflexivity.
Qed.

Lemma join_slash_nonempty (l : list string) :
  l <> [] -> Forall (fun s => s <> "") l -> join_slash l <> "".
Proof.
  destruct l as [|a [|b r]]; intros Hne Hall; [congruence | | ].
  - simpl. exact (Forall_inv Hall).
  - change (join_slash (a :: b :: r)) with (a ++ "/" ++ join_slash (b :: r)).
    apply append_nonempty. exact (Forall_inv Hall).
Qed.

Lemma nonempty_scopes_Forall (l : list string) :
  Forall (fun s => s <> "") (nonempty_scopes l).
Proof.
  unfold nonempty_scopes. induction l as [|a l IH]; [constructor | ].
  rewrite filter_cons. case_decide; [constructor; assumption | exact IH].
Qed.

Lemma nonempty_scopes_snoc (l : list string) (s : string) :
  nonempty_scopes (l ++ [s]) =
  (nonempty_scopes l ++ (if bool_decide (s <> "") then [s] else []))%list.
Proof.
  unfold nonempty_scopes. rewrite filter_app. f_equal.
  rewrite filter_cons, filter_nil.
  case_decide; case_bool_decide; try reflexivity; contradiction.
Qed.

(** Joining the non-empty scopes of a longer path is [join_scope]. *)
Lemma join_slash_join_scope (l : list string) (s : string) :
  join_slash (nonempty_scopes (l ++ [s])) =
  join_scope (join_slash (nonempty_scopes l)) s.
Proof.
  rewrite nonempty_scopes_snoc. unfold join_scope.
  pose proof (nonempty_scopes_Forall l) as Hall.
  destruct (nonempty_scopes l) as [|a r] eqn:El.
  - simpl. case_bool_decide as Hs; [reflexivity | ].
    destruct (decide (s = "")) as [->|Hn]; [reflexivity | contradiction].
  - rewrite (bool_decide_eq_true_2 (join_slash (a :: r) <> ""))
      by (apply join_slash_nonempty; [discriminate | exact Hall]).
    case_bool_decide as Hs.
    + apply join_slash_snoc. discriminate.
    + rewrite app_nil_r, string_app_nil_r. reflexivity.
Qed.

Lemma scope_path_det (cs : list Component) (c : CompId)
  (l l' : list string) :
  scope_path cs c l -> scope_path cs c l' -> l = l'.
Proof.
  intros H. revert l'.
  induction H as [c x Hx Hp | c x p l Hx Hp _ IH]; intros l' H';
    inversion H' as [c' y Hy Hq | c' y q l0 Hy Hq H0]; subst;
    try congruence.
  assert (y = x) as -> by congruence.
  assert (q = p) as -> by congruence.
  rewrite (IH _ H0). reflexivity.
Qed.

Lemma scope_path_exists (cs : list Component) (c : CompId) (n : nat) :
  has_depth cs c n -> exists l, scope_path cs c l.
Proof.
  induction 1 as [c x Hx Hp | c x p n Hx Hp _ [l IH]].
  - exists [scope x]. exact (scope_path_root cs c x Hx Hp).
  - exists (l ++ [scope x])%list.
    exact (scope_path_child cs c x p l Hx Hp IH).
Qed.

Lemma scope_path_struct (cs cs' : list Component) (c : CompId)
  (l : list string) :
  same_struct cs cs' -> scope_path cs c l -> scope_path cs' c l.
Proof.
  intros Hs H. induction H as [c x Hx Hp | c x p l Hx Hp _ IH];
    destruct (same_struct_lookup _ _ _ _ Hs Hx)
      as (x' & Hx' & Hscope & _ & Hpar & _);
    rewrite <- Hscope.
  - apply (scope_path_root cs' c x' Hx'). congruence.
  - apply (scope_path_child cs' c x' p l Hx'); [congruence | exact IH].
Qed.

(** Where every component fits its parent, the global scope is the
    join of the non-empty scopes on the path from the root. *)
Lemma scope_path_global_scope (cs : list Component) :
  (forall k, scope_ok cs k) ->
  forall c l,
    scope_path cs c l ->
    forall x, cs !! c = Some x ->
              global_scope x = join_slash (nonempty_scopes l).
Proof.
  intros Hok c l H.
  induction H as [c x Hx Hp | c x p l Hx Hp Hpath IH]; intros y Hy;
    assert (y = x) as -> by congruence;
    pose proof (Hok c x Hx) as Hc; rewrite Hp in Hc.
  - rewrite Hc. change [scope x] with ([] ++ [scope x])%list.
    rewrite join_slash_join_scope. unfold join_scope. simpl.
    reflexivity.
  - destruct Hc as (px & Hpx & Hg).
    rewrite Hg, (IH px Hpx). symmetry. apply join_slash_join_scope.
Qed.

Lemma assembled_fresh (h : Heap) (s : string) :
  assembled h -> scope_pattern_matches s = true ->
  assembled (mkHeap (components h ++ [fresh_component s]) (sockets h)
               (graph_functions h)).
Proof.
  intros Hh Hs.
  apply (assembled_init h _ s None default_ops_flags [] [] []
           (length (components h)) Hh).
  unfold Component_init. rewrite Hs. reflexivity.
Qed.

Lemma assembled_root_without_scope : assembled heap_root_without_scope.
Proof.
  apply (assembled_add
           (mkHeap [fresh_component ""; fresh_component "c"] [] [])
           heap_root_without_scope 2 0 1); [ | reflexivity].
  apply (assembled_fresh (mkHeap [fresh_component ""] [] []) "c");
    [ | reflexivity].
  exact (assembled_fresh empty_heap "" assembled_empty eq_refl).
Qed.

Lemma assembled_grandchild_first : assembled heap_grandchild_first.
Proof.
  apply (assembled_add
           (mkHeap
              [fresh_component "a";
               set_sub_components [("g", 2)] (fresh_component "b");
               set_global_scope "b/g"
                 (set_parent_component (Some 1) (fresh_component "g"))]
              [] [])
           heap_grandchild_first 3 0 1); [ | reflexivity].
  apply (assembled_add
           (mkHeap
              [fresh_component "a"; fresh_component "b"; fresh_component "g"]
              [] [])
           _ 2 1 2); [ | reflexivity].
  apply (assembled_fresh
           (mkHeap [fresh_component "a"; fresh_component "b"] [] []) "g");
    [ | reflexivity].
  apply (assembled_fresh (mkHeap [fresh_component "a"] [] []) "b");
    [ | reflexivity].
  exact (assembled_fresh empty_heap "a" assembled_empty eq_refl).
Qed.

(** C2, as stated, fails: under a root whose scope is empty (the
    default), the component with scope [c] has the global scope [c],
    while the scopes of its path joined by [/] give [/c]. *)
Lemma global_scope_is_not_the_plain_join :
  assembled heap_root_without_scope /\
  scope_path (components heap_root_without_scope) 1 [""; "c"] /\
  (exists x,
     components heap_root_without_scope !! 1 = Some x /\
     global_scope x = "c" /\
     global_scope x <> join_slash [""; "c"]).
Proof.
  split; [exact assembled_root_without_scope | split].
  - exact (scope_path_child (components heap_root_without_scope) 1 _ 0
             [""] eq_refl eq_refl
             (scope_path_root (components heap_root_without_scope) 0 _
                eq_refl eq_refl)).
  - eexists. split; [reflexivity | ]. split; [reflexivity | discriminate].
Qed.

(** C2, amended: in every store put together by the constructor and by
    successful [add_component] calls alone, in whatever order, the
    global scope of every component is the join by [/] of the non-empty
    scopes on the path from the root of its tree down to itself (empty
    scopes are skipped).  Hence two such stores with the same trees have
    the same global scopes, however the sub-trees were put together.
    The restriction to [assembled] stores is part of the statement: a
    component that [copy] returns for a new scope keeps the global scope
    of the original, and a store that holds one is not [assembled]. *)
Theorem global_scope_joins_nonempty_scopes_of_path :
  (forall h,
     assembled h ->
     forall c x,
       components h !! c = Some x ->
       exists l,
         scope_path (components h) c l /\
         global_scope x = join_slash (nonempty_scopes l)) /\
  (forall h1 h2,
     assembled h1 -> assembled h2 ->
     same_struct (components h1) (components h2) ->
     map global_scope (components h1) = map global_scope (components h2)).
Proof.
  assert (forall h,
            assembled h ->
            forall c x,
              components h !! c = Some x ->
              exists l,
                scope_path (components h) c l /\
                global_scope x = join_slash (nonempty_scopes l)) as Hone.
  { intros h Hh c x Hx.
    destruct (assembled_tree_inv h Hh) as [HF Hok].
    destruct (forest_depth _ HF c x Hx) as [n Hn].
    destruct (scope_path_exists _ _ _ Hn) as [l Hl].
    exists l. split; [exact Hl | ].
    exact (scope_path_global_scope _ Hok c l Hl x Hx). }
  split; [exact Hone | ].
  intros h1 h2 H1 H2 Hs. apply list_fmap_eq_lookup.
  - rewrite <- (length_map struct_view (components h1)), Hs, length_map.
    reflexivity.
  - intros k x x' Hx Hx'.
    destruct (Hone h1 H1 k x Hx) as (l & Hl & ->).
    destruct (Hone h2 H2 k x' Hx') as (l' & Hl' & ->).
    rewrite (scope_path_det _ _ _ _ (scope_path_struct _ _ _ _ Hs Hl) Hl').
    reflexivity.
Qed.

(** The grandchild [g] of [heap_grandchild_first], attached to [b]
    before [b] was attached to [a], has the global scope [a/b/g]. *)
Lemma global_scope_of_grandchild_witness :
  exists l,
    scope_path (components heap_grandchild_first) 2 l /\
    "a/b/g" = join_slash (nonempty_scopes l).
Proof.
  exact (proj1 global_scope_joins_nonempty_scopes_of_path
           heap_grandchild_first assembled_grandchild_first 2 _ eq_refl).
Defined.

Lemma linked_entry_sub_components (self component : CompId) (n : string)
  (k : CompId) (x : Component) :
  sub_components (linked_entry self component n k x) =
  if bool_decide (k = self) then (sub_components x ++ [(n, component)])%list
  else sub_components x.
Proof. unfold linked_entry. repeat case_bool_decide; reflexivity. Qed.

Lemma dict_get_snoc_new {V : Type} (k : string) (v : V)
  (d : list (string * V)) :
  k ∉ map fst d -> dict_get k (d ++ [(k, v)]) = Some v.
Proof.
  unfold dict_get. induction d as [|[k' v'] d IH]; intros Hk; simpl.
  - rewrite String.eqb_refl. reflexivity.
  - destruct (String.eqb_spec k' k) as [->|Hne].
    + exfalso. apply Hk. left.
    + apply IH. intros Hin. apply Hk. right. exact Hin.
Qed.

(** C5: [add_component] raises when the parent already has a
    sub-component under the child's name, and raises when the child
    already has a parent; a call that returns has passed both checks,
    has set the child's [parent_component] to the parent and has
    recorded the child in the parent's [sub_components] under its name.
    On a forest the call does return, for every large enough recursion
    limit, when the parent is not below the child. *)
Theorem add_component_rejects_taken_name_and_second_parent
  (limit : nat) (self component : CompId) (h : Heap) (me sub : Component)
  (Hme : components h !! self = Some me)
  (Hsub : components h !! component = Some sub) :
  (name sub ∈ map fst (sub_components me) ->
   add_component limit self component h = Raise YARLError) /\
  (parent_component sub <> None ->
   add_component limit self component h = Raise YARLError) /\
  (forall h',
     add_component limit self component h = Ok h' ->
     (name sub ∉ map fst (sub_components me)) /\
     parent_component sub = None /\
     exists sub' me',
       components h' !! component = Some sub' /\
       parent_component sub' = Some self /\
       components h' !! self = Some me' /\
       sub_components me' =
         (sub_components me ++ [(name sub, component)])%list /\
       dict_get (name sub) (sub_components me') = Some component) /\
  (forest (components h) ->
   name sub ∉ map fst (sub_components me) ->
   parent_component sub = None ->
   ~ anc (components h) component self ->
   exists limit0,
     forall limit',
       limit0 <= limit' ->
       exists h', add_component limit' self component h = Ok h').
Proof.
  split; [exact (add_component_duplicate_name _ _ _ _ _ _ Hme Hsub) | ].
  split; [exact (add_component_has_parent _ _ _ _ _ _ Hme Hsub) | ].
  split.
  - intros h' Hadd.
    destruct (add_component_ok_inv _ _ _ _ _ Hadd)
      as (me0 & sub0 & Hme0 & Hsub0 & Hname & Hpar & Hrun).
    assert (me0 = me) as -> by congruence.
    assert (sub0 = sub) as -> by congruence.
    split; [exact Hname | ]. split; [exact Hpar | ].
    destruct (propagate_scope_only_scopes _ _ _ _ _ Hrun) as (Hshape & _).
    destruct (same_shape_lookup _ _ _ _ Hshape
                (linked_lookup_Some h self component (name sub) component
                   sub Hsub))
      as (sub' & Hsub' & _ & _ & Hpar' & _).
    destruct (same_shape_lookup _ _ _ _ Hshape
                (linked_lookup_Some h self component (name sub) self me Hme))
      as (me' & Hme' & _ & _ & _ & Hsubs' & _).
    exists sub', me'. split; [exact Hsub' | ]. split.
    { rewrite Hpar', linked_entry_parent.
      rewrite bool_decide_eq_true_2 by reflexivity. reflexivity. }
    split; [exact Hme' | ].
    assert (sub_components me' =
            (sub_components me ++ [(name sub, component)])%list) as Heq.
    { rewrite Hsubs', linked_entry_sub_components.
      rewrite bool_decide_eq_true_2 by reflexivity. reflexivity. }
    split; [exact Heq | ].
    rewrite Heq. apply dict_get_snoc_new. exact Hname.
  - intros HF Hname Hpar Hacyc.
    exact (add_component_total self component h me sub HF Hme Hsub Hname
             Hpar Hacyc).
Qed.

(** On [heap_two_roots], [p.add_component(c)] attaches [c]; on
    [heap_root_without_scope], where [c] is attached already, the same
    call raises. *)
Lemma add_component_witness :
  (exists h' sub' me',
     add_component 2 0 1 heap_two_roots = Ok h' /\
     components h' !! 1 = Some sub' /\
     parent_component sub' = Some 0 /\
     components h' !! 0 = Some me' /\
     sub_components me' = [("c", 1)]) /\
  add_component 2 0 1 heap_root_without_scope = Raise YARLError.
Proof.
  split.
  - destruct (add_component_rejects_taken_name_and_second_parent
                2 0 1 heap_two_roots _ _ eq_refl eq_refl)
      as (_ & _ & Hok & _).
    destruct (Hok _ eq_refl)
      as (_ & _ & sub' & me' & H1 & H2 & H3 & H4 & _).
    eexists _, sub', me'. split; [reflexivity | ]. auto.
  - destruct (add_component_rejects_taken_name_and_second_parent
                2 0 1 heap_root_without_scope _ _ eq_refl eq_refl)
      as (_ & Hpar & _).
    apply Hpar. discriminate.
Defined.

(** ** The variable registry *)

Lemma elem_of_dict_keys (m : gmap string Var) (k : string) :
  k ∈ dict_keys m <-> is_Some (m !! k).
Proof.
  unfold dict_keys. rewrite list_elem_of_fmap. split.
  - intros ([k' v] & -> & Hin). apply elem_of_map_to_list in Hin. eauto.
  - intros [v Hv]. exists (k, v). split; [reflexivity | ].
    apply elem_of_map_to_list. exact Hv.
Qed.

Lemma dict_keys_NoDup (m : gmap string Var) : NoDup (dict_keys m).
Proof. unfold dict_keys. apply NoDup_fst_map_to_list. Qed.

Lemma get_variable_setter (self : CompId) (c : Component)
  (vname : string) (var : Var) (h : Heap) :
  components h !! self = Some c ->
  get_variable self vname (Some var) h =
  Ok (var,
      put_component self
        (set_variables (<[variable_key c vname := var]> (variables c)) c) h).
Proof.
  intros Hc. unfold get_variable. rewrite (get_component_eq _ _ _ Hc).
  cbn [bind]. rewrite (update_component_eq _ _ _ _ Hc). reflexivity.
Qed.

Lemma propagate_variables_S (limit : nat) (self : CompId)
  (keys : option (list string)) (h : Heap) :
  propagate_variables (S limit) self keys h =
  (me <- get_component h self ;;
   match parent_component me with
   | None => Ok h
   | Some parent =>
       let keys :=
         match keys with
         | Some (k :: ks) => k :: ks
         | _ => dict_keys (variables me)
         end in
       h1 <- for_each (propagate_key self parent) keys h ;;
       propagate_variables limit parent (Some keys) h1
   end).
Proof. reflexivity. Qed.

(** With no keys given, the component's own keys are propagated. *)
Lemma propagate_variables_own_keys (limit : nat) (self : CompId)
  (c : Component) (h : Heap) (k0 : string) (ks : list string) :
  components h !! self = Some c ->
  dict_keys (variables c) = k0 :: ks ->
  propagate_variables limit self None h =
  propagate_variables limit self (Some (k0 :: ks)) h.
Proof.
  intros Hc Hk. destruct limit as [|l]; [reflexivity | ].
  rewrite !propagate_variables_S, (get_component_eq _ _ _ Hc). cbn [bind].
  rewrite Hk. reflexivity.
Qed.

Lemma propagate_key_ok (self parent : CompId) (key : string)
  (h h' : Heap) :
  propagate_key self parent key h = Ok h' ->
  exists px me v,
    components h !! parent = Some px /\
    variables px !! key = None /\
    components h !! self = Some me /\
    variables me !! key = Some v /\
    h' = put_component parent
           (set_variables (<[key := v]> (variables px)) px) h.
Proof.
  unfold propagate_key. intros H.
  inv_bind H as px Hpx. apply get_component_ok in Hpx.
  inv_bind H as u Hu. apply assert_ok in Hu.
  apply bool_decide_eq_true in Hu.
  inv_bind H as me Hme. apply get_component_ok in Hme.
  destruct (variables me !! key) as [v|] eqn:Hv; [ | discriminate].
  rewrite (update_component_eq _ _ _ _ Hpx) in H. injection H as <-.
  exists px, me, v. auto.
Qed.

Lemma registry_grows_refl (keys : list string) (m : gmap string Var)
  (h : Heap) : registry_grows keys m h h.
Proof. intros y yy Hy. exists yy. auto. Qed.

Lemma registry_grows_trans (keys : list string) (m : gmap string Var)
  (a b c : Heap) :
  registry_grows keys m a b -> registry_grows keys m b c ->
  registry_grows keys m a c.
Proof.
  intros Hab Hbc y yy Hy.
  destruct (Hab y yy Hy) as (y1 & Hy1 & Hp1 & Hv1).
  destruct (Hbc y y1 Hy1) as (y2 & Hy2 & Hp2 & Hv2).
  exists y2. split; [exact Hy2 | ]. split; [congruence | ].
  intros k Hk Hm. exact (Hv2 k Hk (Hv1 k Hk Hm)).
Qed.

Lemma registry_grows_anc (keys : list string) (m : gmap string Var)
  (h h' : Heap) (a x : CompId) :
  registry_grows keys m h h' ->
  anc (components h) a x -> anc (components h') a x.
Proof.
  intros Hg H. induction H as [ | x xx p Hx Hp _ IH].
  - apply anc_refl.
  - destruct (Hg x xx Hx) as (xx' & Hx' & Hp' & _).
    apply (anc_step _ a x xx' p Hx'); [congruence | exact IH].
Qed.

(** One key copied into the parent's registry. *)
Lemma propagate_key_grows (keys : list string) (m : gmap string Var)
  (self parent : CompId) (key : string) (h h' : Heap) (me : Component) :
  components h !! self = Some me ->
  variables me !! key = m !! key ->
  propagate_key self parent key h = Ok h' ->
  registry_grows keys m h h' /\
  exists px', components h' !! parent = Some px' /\
              variables px' !! key = m !! key.
Proof.
  intros Hme Hkey H.
  destruct (propagate_key_ok _ _ _ _ _ H)
    as (px & me' & v & Hpx & Hnone & Hme' & Hv & ->).
  assert (me' = me) as -> by congruence.
  split.
  - intros y yy Hy. destruct (decide (y = parent)) as [->|Hne].
    + assert (yy = px) as -> by congruence.
      eexists. split; [exact (put_component_lookup _ _ _ _ Hpx) | ].
      split; [reflexivity | ]. intros k Hk Hm. simpl.
      destruct (decide (k = key)) as [->|Hkk].
      * rewrite lookup_insert_eq. congruence.
      * rewrite lookup_insert_ne by congruence. exact Hm.
    + exists yy. split; [ | auto].
      rewrite put_component_lookup_ne by congruence. exact Hy.
  - eexists. split; [exact (put_component_lookup _ _ _ _ Hpx) | ].
    simpl. rewrite lookup_insert_eq. congruence.
Qed.

(** The loop of [propagate_variables], when it completes. *)
Lemma propagate_loop_ok (keys : list string) (m : gmap string Var)
  (self parent : CompId) :
  forall todo h h' me,
    (forall k, k ∈ todo -> k ∈ keys) ->
    components h !! self = Some me ->
    (forall k, k ∈ keys -> variables me !! k = m !! k) ->
    for_each (propagate_key self parent) todo h = Ok h' ->
    registry_grows keys m h h' /\
    (todo <> [] ->
     exists px', components h' !! parent = Some px' /\
                 forall k, k ∈ todo -> variables px' !! k = m !! k).
Proof.
  induction todo as [|k todo IH]; intros h h' me Hsub Hme Hagree Hrun.
  - injection Hrun as <-. split; [apply registry_grows_refl | congruence].
  - rewrite for_each_cons in Hrun. inv_bind Hrun as h1 H1.
    assert (k ∈ keys) as Hk by (apply Hsub; left).
    destruct (propagate_key_grows keys m self parent k h h1 me Hme
                (Hagree k Hk) H1) as (Hg1 & px1 & Hpx1 & Hk1).
    destruct (Hg1 self me Hme) as (me1 & Hme1 & _ & Hme1v).
    destruct (IH h1 h' me1 (fun k' Hk' => Hsub k' ltac:(right; exact Hk'))
                Hme1 (fun k' Hk' => Hme1v k' Hk' (Hagree k' Hk')) Hrun)
      as (Hg2 & Hrest).
    split; [exact (registry_grows_trans _ _ _ _ _ Hg1 Hg2) | ].
    intros _. destruct (Hg2 parent px1 Hpx1) as (px' & Hpx' & _ & Hkeep).
    exists px'. split; [exact Hpx' | ]. intros k' Hk'.
    apply elem_of_cons in Hk' as [->|Hk']; [exact (Hkeep k Hk Hk1) | ].
    destruct todo as [|k2 todo]; [inversion Hk' | ].
    destruct (Hrest ltac:(discriminate)) as (px2 & Hpx2 & Hall).
    assert (px2 = px') as -> by congruence. exact (Hall k' Hk').
Qed.

(** A call of [propagate_variables] that returns has copied the keys
    into the registry of every ancestor. *)
Lemma propagate_variables_ok (m : gmap string Var) (k0 : string)
  (ks : list string) :
  forall limit x h h' xx,
    components h !! x = Some xx ->
    (forall k, k ∈ k0 :: ks -> variables xx !! k = m !! k) ->
    propagate_variables limit x (Some (k0 :: ks)) h = Ok h' ->
    registry_grows (k0 :: ks) m h h' /\
    forall a,
      proper_anc (components h) a x ->
      exists ax,
        components h' !! a = Some ax /\
        forall k, k ∈ k0 :: ks -> variables ax !! k = m !! k.
Proof.
  induction limit as [|l IH]; intros x h h' xx Hx Hagree Hrun;
    [discriminate | ].
  rewrite propagate_variables_S, (get_component_eq _ _ _ Hx) in Hrun.
  cbn [bind] in Hrun.
  destruct (parent_component xx) as [p|] eqn:Hp.
  - cbn zeta in Hrun. inv_bind Hrun as h1 H1.
    destruct (propagate_loop_ok (k0 :: ks) m x p (k0 :: ks) h h1 xx
                (fun k Hk => Hk) Hx Hagree H1) as (Hg1 & Hpar).
    destruct (Hpar ltac:(discriminate)) as (px1 & Hpx1 & Hp1).
    destruct (IH p h1 h' px1 Hpx1 Hp1 Hrun) as (Hg2 & Hanc).
    split; [exact (registry_grows_trans _ _ _ _ _ Hg1 Hg2) | ].
    intros a (xx' & p' & Hx' & Hp' & Ha).
    assert (xx' = xx) as -> by congruence.
    assert (p' = p) as -> by congruence.
    inversion Ha as [ | y yy q Hy Hq Ha']; subst.
    + destruct (Hg2 p px1 Hpx1) as (ax & Hax & _ & Hkeep).
      exists ax. split; [exact Hax | ].
      intros k Hk. exact (Hkeep k Hk (Hp1 k Hk)).
    + apply Hanc. destruct (Hg1 p yy Hy) as (yy1 & Hy1 & Hq1 & _).
      exists yy1, q. split; [exact Hy1 | ]. split; [congruence | ].
      exact (registry_grows_anc _ _ _ _ _ _ Hg1 Ha').
  - injection Hrun as <-. split; [apply registry_grows_refl | ].
    intros a (xx' & p' & Hx' & Hp' & _). congruence.
Qed.

(** The loop raises the assertion error when the parent's registry
    already holds one of the keys. *)
Lemma propagate_loop_raises (self parent : CompId) (key : string) :
  forall todo h me px,
    key ∈ todo ->
    components h !! self = Some me ->
    (forall k, k ∈ todo -> is_Some (variables me !! k)) ->
    components h !! parent = Some px ->
    is_Some (variables px !! key) ->
    for_each (propagate_key self parent) todo h = Raise AssertionError.
Proof.
  induction todo as [|k todo IH]; intros h me px Hin Hme Hkeys Hpx Hkey;
    [inversion Hin | ].
  rewrite for_each_cons. unfold propagate_key at 1.
  rewrite (get_component_eq _ _ _ Hpx). cbn [bind].
  destruct (variables px !! k) as [w|] eqn:Hk.
  { rewrite bool_decide_eq_false_2 by discriminate. reflexivity. }
  rewrite bool_decide_eq_true_2 by reflexivity. cbn [assert bind].
  rewrite (get_component_eq _ _ _ Hme). cbn [bind].
  destruct (Hkeys k ltac:(left)) as [v Hv]. rewrite Hv.
  rewrite (update_component_eq _ _ _ _ Hpx). cbn [bind].
  assert (k <> key) as Hne by (intros ->; destruct Hkey; congruence).
  apply elem_of_cons in Hin as [Heq|Hin]; [congruence | ].
  set (px1 := set_variables (<[k := v]> (variables px)) px).
  assert (components (put_component parent px1 h) !! parent = Some px1)
    as Hpx1 by exact (put_component_lookup _ _ _ _ Hpx).
  assert (is_Some (variables px1 !! key)) as Hkey1
    by (subst px1; simpl; rewrite lookup_insert_ne by exact Hne;
        exact Hkey).
  destruct (decide (self = parent)) as [->|Hsp].
  - apply (IH _ px1 px1 Hin Hpx1); [ | exact Hpx1 | exact Hkey1].
    intros k' Hk'. assert (me = px) as -> by congruence.
    subst px1. simpl. destruct (decide (k' = k)) as [->|Hkk].
    + rewrite lookup_insert_eq. eauto.
    + rewrite lookup_insert_ne by congruence. apply Hkeys. right. exact Hk'.
  - apply (IH _ me px1 Hin); [ | | exact Hpx1 | exact Hkey1].
    + rewrite put_component_lookup_ne by congruence. exact Hme.
    + intros k' Hk'. apply Hkeys. right. exact Hk'.
Qed.

Lemma same_struct_insert (cs : list Component) (k : CompId)
  (x y : Component) :
  cs !! k = Some x -> struct_view y = struct_view x ->
  same_struct cs (<[k := y]> cs).
Proof.
  intros Hx Hv. unfold same_struct. rewrite list_fmap_insert.
  symmetry. apply list_insert_id.
  rewrite list_lookup_fmap, Hx. simpl. congruence.
Qed.

(** The loop completes when the parent's registry has none of the keys,
    and then only the parent's registry has changed. *)
Lemma propagate_loop_total (self parent : CompId) (me : Component) :
  self <> parent ->
  forall todo h px,
    NoDup todo ->
    components h !! self = Some me ->
    (forall k, k ∈ todo -> is_Some (variables me !! k)) ->
    components h !! parent = Some px ->
    (forall k, k ∈ todo -> variables px !! k = None) ->
    exists h' px',
      for_each (propagate_key self parent) todo h = Ok h' /\
      components h' = <[parent := px']> (components h) /\
      struct_view px' = struct_view px /\
      (forall k, k ∈ todo -> variables px' !! k = variables me !! k) /\
      (forall k, k ∉ todo -> variables px' !! k = variables px !! k).
Proof.
  intros Hne. induction todo as [|k todo IH];
    intros h px Hnd Hme Hkeys Hpx Hfree.
  - exists h, px. split; [reflexivity | ].
    split; [symmetry; apply list_insert_id; exact Hpx | ].
    split; [reflexivity | ]. split; [intros k Hk; inversion Hk | auto].
  - apply NoDup_cons in Hnd as [Hk Hnd].
    destruct (Hkeys k ltac:(left)) as [v Hv].
    set (px1 := set_variables (<[k := v]> (variables px)) px).
    assert (propagate_key self parent k h = Ok (put_component parent px1 h))
      as H1.
    { unfold propagate_key. rewrite (get_component_eq _ _ _ Hpx).
      cbn [bind]. rewrite (Hfree k ltac:(left)).
      rewrite bool_decide_eq_true_2 by reflexivity. cbn [assert bind].
      rewrite (get_component_eq _ _ _ Hme). cbn [bind]. rewrite Hv.
      exact (update_component_eq _ _ _ _ Hpx). }
    destruct (IH (put_component parent px1 h) px1 Hnd) as
      (h' & px' & Hrun & Hcs & Hview & Hin & Hout).
    + rewrite put_component_lookup_ne by congruence. exact Hme.
    + intros k' Hk'. apply Hkeys. right. exact Hk'.
    + exact (put_component_lookup _ _ _ _ Hpx).
    + intros k' Hk'. subst px1. simpl.
      rewrite lookup_insert_ne by (intros ->; contradiction).
      apply Hfree. right. exact Hk'.
    + exists h', px'. rewrite for_each_cons, H1. cbn [bind].
      split; [exact Hrun | ].
      split; [rewrite Hcs; simpl; apply list_insert_insert_eq | ].
      split; [rewrite Hview; reflexivity | ]. split.
      * intros k' Hk'. apply elem_of_cons in Hk' as [->|Hk'];
          [ | exact (Hin k' Hk')].
        rewrite (Hout k Hk). subst px1. simpl.
        rewrite lookup_insert_eq. congruence.
      * intros k' Hk'. apply not_elem_of_cons in Hk' as [Hkk Hk'].
        rewrite (Hout k' Hk'). subst px1. simpl.
        apply lookup_insert_ne. congruence.
Qed.

(** On a forest, [propagate_variables] returns as soon as the recursion
    limit exceeds the depth of the component, when no ancestor's
    registry holds one of the keys. *)
Lemma propagate_variables_total (S : list Component) (k0 : string)
  (ks : list string) :
  forest S -> NoDup (k0 :: ks) ->
  forall x n,
    has_depth S x n ->
    forall limit h xx,
      n < limit ->
      same_struct S (components h) ->
      components h !! x = Some xx ->
      (forall k, k ∈ k0 :: ks -> is_Some (variables xx !! k)) ->
      (forall a ax k,
         proper_anc S a x -> components h !! a = Some ax ->
         k ∈ k0 :: ks -> variables ax !! k = None) ->
      exists h', propagate_variables limit x (Some (k0 :: ks)) h = Ok h'.
Proof.
  intros HF Hnd x n Hn.
  induction Hn as [x sx Hsx Hroot | x sx p n Hsx Hpar Hpn IH];
    intros limit h xx Hlt Hs Hx Hkeys Hfree;
    (destruct limit as [|l]; [lia | ]);
    destruct (same_struct_lookup _ _ _ _ Hs Hsx)
      as (xx' & Hxx' & _ & _ & Hparent & _);
    assert (xx' = xx) as -> by congruence;
    rewrite propagate_variables_S, (get_component_eq _ _ _ Hx);
    cbn [bind]; rewrite Hparent.
  - rewrite Hroot. eauto.
  - rewrite Hpar. cbn zeta.
    assert (exists sp, S !! p = Some sp) as [sp Hsp]
      by (inversion Hpn; subst; eauto).
    destruct (same_struct_lookup _ _ _ _ Hs Hsp) as (px & Hpx & _).
    assert (x <> p) as Hne.
    { intros ->.
      pose proof (has_depth_det _ _ _ _ Hpn
                    (has_depth_child S p sx p n Hsx Hpar Hpn)). lia. }
    assert (proper_anc S p x) as Hpx_anc
      by (exists sx, p; split; [exact Hsx | split; [exact Hpar | ]];
          apply anc_refl).
    destruct (propagate_loop_total x p xx Hne (k0 :: ks) h px Hnd Hx Hkeys
                Hpx (fun k Hk => Hfree p px k Hpx_anc Hpx Hk))
      as (h1 & px1 & Hrun & Hcs & Hview & Hin & _).
    rewrite Hrun. cbn [bind].
    assert (components h1 !! p = Some px1) as Hpx1
      by (rewrite Hcs; apply list_lookup_insert_eq;
          exact (lookup_lt_Some _ _ _ Hpx)).
    apply (IH l h1 px1); [lia | | exact Hpx1 | | ].
    + rewrite Hcs.
      exact (same_struct_trans _ _ _ Hs
               (same_struct_insert _ _ _ _ Hpx Hview)).
    + intros k Hk. rewrite (Hin k Hk). exact (Hkeys k Hk).
    + intros a ax k (sp' & q & Hsp' & Hq & Haq) Hax Hk.
      assert (sp' = sp) as -> by congruence.
      assert (a <> p) as Hap.
      { intros ->. exact (anc_child_parent S p q sp n Hsp Hq Hpn Haq). }
      rewrite Hcs, list_lookup_insert_ne in Hax by congruence.
      apply (Hfree a ax k); [ | exact Hax | exact Hk].
      exists sx, p. split; [exact Hsx | ]. split; [exact Hpar | ].
      exact (anc_step S a p sp q Hsp Hq Haq).
Qed.

(** C3 (the code departs from the claim): [get_variable] as a setter
    stores the handle that the backend has returned in the registry of
    the component itself, under its scoped key, and changes no other
    component: no ancestor's registry receives the entry upon creation,
    although the docstring of the method and the comment above the
    assignment say that the variable is registered in this component
    and all its parent components.  ([created] is the handle returned by
    the backend; a call whose backend call raises is not described.) *)
Theorem get_variable_registers_in_own_registry_only
  (self : CompId) (c : Component) (vname : string) (var : Var) (h : Heap)
  (Hc : components h !! self = Some c) :
  exists h1 c1,
    get_variable self vname (Some var) h = Ok (var, h1) /\
    components h1 !! self = Some c1 /\
    variables c1 !! variable_key c vname = Some var /\
    (forall a, a <> self -> components h1 !! a = components h !! a) /\
    (forall a ax,
       proper_anc (components h) a self -> a <> self ->
       components h !! a = Some ax ->
       variables ax !! variable_key c vname = None ->
       exists ax1,
         components h1 !! a = Some ax1 /\
         variables ax1 !! variable_key c vname = None).
Proof.
  exists (put_component self
            (set_variables (<[variable_key c vname := var]> (variables c)) c)
            h),
    (set_variables (<[variable_key c vname := var]> (variables c)) c).
  split; [exact (get_variable_setter _ _ _ _ _ Hc) | ].
  simpl. split.
  { apply list_lookup_insert_eq. exact (lookup_lt_Some _ _ _ Hc). }
  split; [apply lookup_insert_eq | ].
  assert (forall a, a <> self ->
                    <[self := set_variables
                                (<[variable_key c vname := var]> (variables c))
                                c]> (components h) !! a
                    = components h !! a) as Hother.
  { intros a Hne. apply list_lookup_insert_ne. congruence. }
  split; [exact Hother | ].
  intros a ax _ Hne Hax Hnone. exists ax.
  rewrite (Hother a Hne). auto.
Qed.

(** On [heap_parent_child] the child creates the variable [w]: it is in
    the child's registry under [p/c/w], and the registry of the parent
    is as empty as before. *)
Lemma get_variable_own_registry_witness :
  exists h1 c1 p1,
    get_variable 1 "w" (Some (VarHandle 1)) heap_parent_child
    = Ok (VarHandle 1, h1) /\
    components h1 !! 1 = Some c1 /\
    variables c1 !! "p/c/w" = Some (VarHandle 1) /\
    components h1 !! 0 = Some p1 /\
    variables p1 !! "p/c/w" = None.
Proof.
  destruct (get_variable_registers_in_own_registry_only
              1 _ "w" (VarHandle 1) heap_parent_child eq_refl)
    as (h1 & c1 & Hrun & Hc1 & Hv & _ & Hanc).
  destruct (Hanc 0 _ ltac:(eexists _, 0; split; [reflexivity | ];
                           split; [reflexivity | apply anc_refl])
              ltac:(discriminate) eq_refl eq_refl)
    as (p1 & Hp1 & Hnone).
  exists h1, c1, p1. auto.
Defined.

(** X10: a call of [propagate_variables] that returns has copied every
    entry of the component's registry into the registry of every
    ancestor; the call raises the assertion error when the parent's
    registry already holds one of the component's keys; and on a forest
    in which no ancestor's registry holds one of the keys the call
    returns for every recursion limit above the depth of the
    component. *)
Theorem propagate_variables_copies_to_every_ancestor :
  (forall limit self c h h',
     components h !! self = Some c ->
     propagate_variables limit self None h = Ok h' ->
     forall a k v,
       proper_anc (components h) a self ->
       variables c !! k = Some v ->
       exists ax, components h' !! a = Some ax /\
                  variables ax !! k = Some v) /\
  (forall limit self c p px h k,
     components h !! self = Some c ->
     parent_component c = Some p ->
     components h !! p = Some px ->
     is_Some (variables c !! k) -> is_Some (variables px !! k) ->
     propagate_variables (S limit) self None h = Raise AssertionError) /\
  (forall self c h n,
     forest (components h) ->
     components h !! self = Some c ->
     has_depth (components h) self n ->
     variables c <> ∅ ->
     (forall a ax k,
        proper_anc (components h) a self ->
        components h !! a = Some ax ->
        is_Some (variables c !! k) -> variables ax !! k = None) ->
     forall limit,
       n < limit ->
       exists h', propagate_variables limit self None h = Ok h').
Proof.
  split; [ | split].
  - intros limit self c h h' Hc Hrun a k v Hanc Hkv.
    destruct (dict_keys (variables c)) as [|k0 ks] eqn:Hkeys.
    { assert (k ∈ dict_keys (variables c)) as Hin
        by (apply elem_of_dict_keys; eauto).
      rewrite Hkeys in Hin. inversion Hin. }
    rewrite (propagate_variables_own_keys limit self c h k0 ks Hc Hkeys)
      in Hrun.
    destruct (propagate_variables_ok (variables c) k0 ks limit self h h' c
                Hc (fun _ _ => eq_refl) Hrun) as (_ & Hall).
    destruct (Hall a Hanc) as (ax & Hax & Hagree).
    exists ax. split; [exact Hax | ].
    rewrite Hagree; [exact Hkv | ].
    rewrite <- Hkeys. apply elem_of_dict_keys. eauto.
  - intros limit self c p px h k Hc Hp Hpx Hck Hpk.
    rewrite propagate_variables_S, (get_component_eq _ _ _ Hc).
    cbn [bind]. rewrite Hp. cbn zeta.
    rewrite (propagate_loop_raises self p k (dict_keys (variables c)) h c px);
      [reflexivity | | exact Hc | | exact Hpx | exact Hpk].
    + apply elem_of_dict_keys. exact Hck.
    + intros k' Hk'. apply elem_of_dict_keys. exact Hk'.
  - intros self c h n HF Hc Hn Hne Hfree limit Hlt.
    destruct (dict_keys (variables c)) as [|k0 ks] eqn:Hkeys.
    { exfalso. apply Hne. apply map_eq. intros k. rewrite lookup_empty.
      destruct (variables c !! k) as [v|] eqn:Hv; [ | reflexivity].
      assert (k ∈ dict_keys (variables c)) as Hin
        by (apply elem_of_dict_keys; eauto).
      rewrite Hkeys in Hin. inversion Hin. }
    rewrite (propagate_variables_own_keys limit self c h k0 ks Hc Hkeys).
    apply (propagate_variables_total (components h) k0 ks HF
             ltac:(rewrite <- Hkeys; apply dict_keys_NoDup)
             self n Hn limit h c Hlt eq_refl Hc).
    + intros k Hk. apply elem_of_dict_keys. rewrite Hkeys. exact Hk.
    + intros a ax k Ha Hax Hk. apply (Hfree a ax k Ha Hax).
      apply elem_of_dict_keys. rewrite Hkeys. exact Hk.
Qed.

(** On [heap_child_variable], [propagate_variables] copies the child's
    entry [p/c/w] into the registry of the parent. *)
Lemma propagate_variables_witness :
  exists h' ax,
    propagate_variables 2 1 None heap_child_variable = Ok h' /\
    components h' !! 0 = Some ax /\
    variables ax !! "p/c/w" = Some (VarHandle 1).
Proof.
  destruct propagate_variables_copies_to_every_ancestor
    as (Hcopy & _).
  assert (exists h', propagate_variables 2 1 None heap_child_variable
                     = Ok h') as [h' Hrun]
    by (eexists; vm_compute; reflexivity).
  destruct (Hcopy 2 1 _ heap_child_variable h' eq_refl Hrun 0 "p/c/w"
              (VarHandle 1)) as (ax & Hax & Hv).
  - eexists _, 0. split; [reflexivity | ]. split; [reflexivity | ].
    apply anc_refl.
  - vm_compute. reflexivity.
  - exists h', ax. auto.
Defined.

(** * Further properties *)

(** ** The variable registry, continued *)

(** X1: a second run of [propagate_variables] on a component that has a
    parent and a registry that is not empty raises the assertion error:
    the first run has put the keys into the registry of the parent. *)
Theorem propagate_variables_twice_raises
  (limit limit' : nat) (self p : CompId) (c : Component) (h h' : Heap)
  (Hc : components h !! self = Some c)
  (Hp : parent_component c = Some p)
  (Hne : variables c <> ∅)
  (Hrun : propagate_variables limit self None h = Ok h') :
  propagate_variables (S limit') self None h' = Raise AssertionError.
Proof.
  destruct (dict_keys (variables c)) as [|k0 ks] eqn:Hkeys.
  { exfalso. apply Hne. apply map_eq. intros k. rewrite lookup_empty.
    destruct (variables c !! k) as [v|] eqn:Hv; [ | reflexivity].
    assert (k ∈ dict_keys (variables c)) as Hin
      by (apply elem_of_dict_keys; eauto).
    rewrite Hkeys in Hin. inversion Hin. }
  rewrite (propagate_variables_own_keys limit self c h k0 ks Hc Hkeys)
    in Hrun.
  destruct (propagate_variables_ok (variables c) k0 ks limit self h h' c
              Hc (fun _ _ => eq_refl) Hrun) as (Hgrow & Hall).
  destruct (Hall p) as (px' & Hpx' & Hpk).
  { exists c, p. split; [exact Hc | ]. split; [exact Hp | apply anc_refl]. }
  destruct (Hgrow self c Hc) as (c' & Hc' & Hp' & Hck).
  assert (is_Some (variables c !! k0)) as [v Hv].
  { apply elem_of_dict_keys. rewrite Hkeys. left. }
  rewrite propagate_variables_S, (get_component_eq _ _ _ Hc').
  cbn [bind]. rewrite Hp', Hp. cbn zeta.
  rewrite (propagate_loop_raises self p k0 (dict_keys (variables c')) h'
             c' px'); [reflexivity | | exact Hc' | | exact Hpx' | ].
  - apply elem_of_dict_keys. rewrite (Hck k0 ltac:(left) eq_refl). eauto.
  - intros k Hk. apply elem_of_dict_keys. exact Hk.
  - rewrite (Hpk k0 ltac:(left)). eauto.
Qed.

(** On [heap_child_variable] the first run returns and the second one
    raises. *)
Lemma propagate_variables_twice_witness :
  exists h',
    propagate_variables 2 1 None heap_child_variable = Ok h' /\
    propagate_variables 2 1 None h' = Raise AssertionError.
Proof.
  assert (exists h', propagate_variables 2 1 None heap_child_variable
                     = Ok h') as [h' Hrun]
    by (eexists; vm_compute; reflexivity).
  exists h'. split; [exact Hrun | ].
  apply (propagate_variables_twice_raises 2 1 1 0 _ heap_child_variable h'
           eq_refl eq_refl); [ | exact Hrun].
  simpl. apply map_non_empty_singleton.
Defined.

Lemma dict_keys_empty : dict_keys ∅ = [].
Proof. unfold dict_keys. rewrite map_to_list_empty. reflexivity. Qed.

(** X2: a component whose registry is empty hands an empty list of keys
    to its parent, where [keys or self.variables.keys()] takes the
    parent's own keys: the call does what [propagate_variables] of the
    parent does, and raises the assertion error when the grandparent
    already holds one of the parent's keys. *)
Theorem propagate_variables_of_empty_registry_runs_the_parent
  (limit : nat) (self p : CompId) (c : Component) (h : Heap)
  (Hc : components h !! self = Some c)
  (Hp : parent_component c = Some p)
  (Hempty : variables c = ∅) :
  propagate_variables (S limit) self None h =
  propagate_variables limit p None h /\
  (forall px g gx k,
     components h !! p = Some px -> parent_component px = Some g ->
     components h !! g = Some gx ->
     is_Some (variables px !! k) -> is_Some (variables gx !! k) ->
     propagate_variables (S (S limit)) self None h = Raise AssertionError).
Proof.
  assert (forall l, propagate_variables (S l) self None h =
                    propagate_variables l p None h) as Heq.
  { intros l. rewrite propagate_variables_S, (get_component_eq _ _ _ Hc).
    cbn [bind]. rewrite Hp, Hempty, dict_keys_empty. cbn zeta.
    destruct l as [|l]; reflexivity. }
  split; [apply Heq | ].
  intros px g gx k Hpx Hg Hgx Hpk Hgk.
  rewrite Heq, propagate_variables_S, (get_component_eq _ _ _ Hpx).
  cbn [bind]. rewrite Hg. cbn zeta.
  rewrite (propagate_loop_raises p g k (dict_keys (variables px)) h px gx);
    [reflexivity | | exact Hpx | | exact Hgx | exact Hgk].
  - apply elem_of_dict_keys. exact Hpk.
  - intros k' Hk'. apply elem_of_dict_keys. exact Hk'.
Qed.

(** On [heap_completed_parent] the child, which has no variables, makes
    its parent propagate again, and the call raises. *)
Lemma propagate_variables_of_empty_registry_witness :
  propagate_variables 2 2 None heap_completed_parent = Raise AssertionError.
Proof.
  destruct (propagate_variables_of_empty_registry_runs_the_parent
              0 2 1 _ heap_completed_parent eq_refl eq_refl eq_refl)
    as [_ H].
  apply (H _ 0 _ "g/p/w" eq_refl eq_refl eq_refl);
    vm_compute; eauto.
Defined.

Lemma variable_key_longer (c : Component) (vname : string) :
  global_scope c <> "" -> variable_key c vname <> vname.
Proof.
  intros Hg H. unfold variable_key in H.
  rewrite (bool_decide_eq_true_2 (global_scope c <> "") Hg) in H.
  apply (f_equal String.length) in H.
  rewrite !app_string_length in H. simpl in H. lia.
Qed.

(** X3: a variable created by [get_variable] is read back by the getter
    under its scoped key; under its plain name the getter raises the key
    error as soon as the component has a global scope (and the registry
    had no entry under the plain name). *)
Theorem get_variable_getter_reads_the_scoped_key
  (self : CompId) (c : Component) (vname : string) (var : Var) (h : Heap)
  (Hc : components h !! self = Some c) :
  exists h1,
    get_variable self vname (Some var) h = Ok (var, h1) /\
    get_variable self (variable_key c vname) None h1 = Ok (var, h1) /\
    (global_scope c <> "" -> variables c !! vname = None ->
     get_variable self vname None h1 = Raise KeyError) /\
    (global_scope c = "" ->
     get_variable self vname None h1 = Ok (var, h1)).
Proof.
  eexists. split; [apply (get_variable_setter _ _ _ _ _ Hc) | ].
  set (c1 := set_variables _ c).
  assert (components (put_component self c1 h) !! self = Some c1) as Hc1.
  { simpl. apply list_lookup_insert_eq. exact (lookup_lt_Some _ _ _ Hc). }
  unfold get_variable. rewrite (get_component_eq _ _ _ Hc1). cbn [bind].
  subst c1. simpl. rewrite lookup_insert_eq.
  split; [reflexivity | ]. split.
  - intros Hg Hnone.
    rewrite lookup_insert_ne by (apply variable_key_longer; exact Hg).
    rewrite Hnone. reflexivity.
  - intros Hg. unfold variable_key.
    rewrite (bool_decide_eq_false_2 (global_scope c <> ""))
      by (intros H; exact (H Hg)).
    simpl. rewrite lookup_insert_eq. reflexivity.
Qed.

(** On [heap_parent_child] the child creates [w]: the getter finds it
    under [p/c/w] and raises under [w]. *)
Lemma get_variable_getter_witness :
  exists h1,
    get_variable 1 "w" (Some (VarHandle 7)) heap_parent_child
    = Ok (VarHandle 7, h1) /\
    get_variable 1 "p/c/w" None h1 = Ok (VarHandle 7, h1) /\
    get_variable 1 "w" None h1 = Raise KeyError.
Proof.
  destruct (get_variable_getter_reads_the_scoped_key
              1 _ "w" (VarHandle 7) heap_parent_child eq_refl)
    as (h1 & Hset & Hget & Hplain & _).
  exists h1. split; [exact Hset | ]. split; [exact Hget | ].
  apply Hplain; [discriminate | reflexivity].
Defined.

(** ** The component tree, continued *)

Lemma children_exist_shape (cs cs' : list Component) :
  same_shape cs cs' -> children_exist cs -> children_exist cs'.
Proof.
  intros Hs Hex p px' c Hpx' Hc.
  destruct (same_shape_lookup _ _ _ _ (same_shape_sym _ _ Hs) Hpx')
    as (px & Hpx & _ & _ & _ & Hsubs & _).
  assert (c ∈ children px) as Hc'
    by (unfold children in *; rewrite Hsubs; exact Hc).
  destruct (Hex p px c Hpx Hc') as [x Hx].
  destruct (same_shape_lookup _ _ _ _ Hs Hx) as (x' & Hx' & _).
  eauto.
Qed.

Lemma for_each_Ok_or (e : exn) {A S : Type} (Inv : S -> Prop)
  (body : A -> S -> result S) (l : list A) :
  (forall x s, x ∈ l -> Inv s ->
               (exists s', body x s = Ok s' /\ Inv s') \/
               body x s = Raise e) ->
  forall s, Inv s ->
            (exists s', for_each body l s = Ok s') \/
            for_each body l s = Raise e.
Proof.
  induction l as [|x l IH]; intros Hbody s Hs.
  - left. exists s. reflexivity.
  - rewrite for_each_cons.
    destruct (Hbody x s ltac:(left) Hs) as [(s1 & H1 & Hs1) | H1];
      rewrite H1; cbn [bind]; [ | right; reflexivity].
    apply IH; [ | exact Hs1].
    intros y t Hy. apply Hbody. right. exact Hy.
Qed.

(** When every listed sub-component exists, [propagate_scope] returns or
    runs out of recursion depth; it raises nothing else. *)
Lemma propagate_scope_Ok_or_RecursionError (limit : nat) :
  forall p c h,
    children_exist (components h) ->
    is_Some (components h !! p) -> is_Some (components h !! c) ->
    (exists h', propagate_scope limit p c h = Ok h') \/
    propagate_scope limit p c h = Raise RecursionError.
Proof.
  induction limit as [|l IH]; intros p c h Hex [me Hme] [sub Hsub];
    [right; reflexivity | ].
  rewrite propagate_scope_S.
  rewrite (get_component_eq _ _ _ Hme), (get_component_eq _ _ _ Hsub).
  cbn [bind].
  apply (for_each_Ok_or RecursionError
           (fun s => same_shape (components h) (components s))).
  - intros d s Hd Hs.
    assert (children_exist (components s)) as Hexs
      by exact (children_exist_shape _ _ Hs Hex).
    destruct (same_shape_lookup _ _ _ _ Hs Hsub)
      as (sub' & Hsub' & _ & _ & _ & Hsubs & _).
    assert (is_Some (components s !! d)) as Hds.
    { apply (Hexs c sub' d Hsub'). unfold children in *.
      rewrite Hsubs. exact Hd. }
    destruct (IH c d s Hexs ltac:(eauto) Hds) as [[s' Hs'] | Hs'];
      [left | right; exact Hs'].
    exists s'. split; [exact Hs' | ].
    destruct (propagate_scope_only_scopes _ _ _ _ _ Hs') as (Hss & _).
    exact (same_shape_trans _ _ _ Hs Hss).
  - destruct (rescoped_only_scopes me sub c h Hsub) as (H1 & _). exact H1.
Qed.

(** X4: attaching the root of a tree below one of the components of this
    tree (below itself, for one) never returns: the sub-component links
    then form a cycle, and [propagate_scope] follows it until the
    recursion limit is reached, whatever the limit is. *)
Theorem add_component_below_itself_raises_RecursionError
  (self component : CompId) (me sub : Component) (h : Heap)
  (HF : forest (components h))
  (Hme : components h !! self = Some me)
  (Hsub : components h !! component = Some sub)
  (Hname : name sub ∉ map fst (sub_components me))
  (Hroot : parent_component sub = None)
  (Hanc : anc (components h) component self) :
  forall limit, add_component limit self component h = Raise RecursionError.
Proof.
  intros limit.
  rewrite (add_component_eq limit self component h me sub Hme Hsub
             (proj2 (dict_has_false _ _) Hname) Hroot).
  set (h2 := linked self component (name sub) h).
  destruct (propagate_scope_Ok_or_RecursionError limit self component h2)
    as [[h' Hrun] | Hrun]; [ | | | | exact Hrun].
  - intros p px2 c Hpx2 Hc. subst h2.
    rewrite linked_lookup in Hpx2.
    destruct (components h !! p) as [px|] eqn:Hpx; [ | discriminate].
    injection Hpx2 as <-.
    unfold children in Hc. rewrite linked_entry_sub_components in Hc.
    assert (is_Some (components h !! c)) as [x Hx].
    { case_bool_decide.
      - rewrite map_app in Hc. apply elem_of_app in Hc as [Hc|Hc].
        + destruct (forest_child_parent _ HF p px c Hpx Hc) as (cx & Hcx & _).
          eauto.
        + simpl in Hc. apply list_elem_of_singleton in Hc. subst c. eauto.
      - destruct (forest_child_parent _ HF p px c Hpx Hc) as (cx & Hcx & _).
        eauto. }
    rewrite linked_lookup, Hx. eauto.
  - subst h2. rewrite linked_lookup, Hme. eauto.
  - subst h2. rewrite linked_lookup, Hsub. eauto.
  - exfalso.
    exact (linked_acyclic h self component (name sub) sub HF Hsub limit h'
             Hrun Hanc).
Qed.

(** [Component(scope="p")] added to itself. *)
Lemma add_component_to_itself_witness :
  add_component 1000 0 0 heap_two_roots = Raise RecursionError.
Proof.
  apply (add_component_below_itself_raises_RecursionError
           0 0 (fresh_component "p") (fresh_component "p") heap_two_roots).
  - constructor.
    + intros p px c Hpx Hc.
      destruct p as [|[|p]]; simpl in Hpx; try discriminate;
        injection Hpx as <-; inversion Hc.
    + intros c cx p Hcx Hp.
      destruct c as [|[|c]]; simpl in Hcx; try discriminate;
        injection Hcx as <-; discriminate.
    + intros p px Hpx.
      destruct p as [|[|p]]; simpl in Hpx; try discriminate;
        injection Hpx as <-; constructor.
    + intros c cx Hcx. exists 0.
      destruct c as [|[|c]]; simpl in Hcx; try discriminate;
        injection Hcx as <-;
        eapply has_depth_root; reflexivity.
  - reflexivity.
  - reflexivity.
  - simpl. inversion 1.
  - reflexivity.
  - apply anc_refl.
Defined.

Lemma set_global_scope_same (x : Component) :
  set_global_scope (global_scope x) x = x.
Proof. destruct x. reflexivity. Qed.

Lemma put_component_same (k : CompId) (x : Component) (h : Heap) :
  components h !! k = Some x -> put_component k x h = h.
Proof.
  intros Hx. unfold put_component. rewrite (list_insert_id _ _ _ Hx).
  destruct h. reflexivity.
Qed.

Lemma for_each_fixed {A S : Type} (body : A -> S -> result S)
  (l : list A) (s : S) :
  (forall x s', x ∈ l -> body x s = Ok s' -> s' = s) ->
  forall s', for_each body l s = Ok s' -> s' = s.
Proof.
  induction l as [|x l IH]; intros Hbody s' H.
  - simpl in H. congruence.
  - rewrite for_each_cons in H. inv_bind H as s1 H1.
    apply (Hbody x s1 ltac:(left)) in H1. subst s1.
    apply IH; [ | exact H].
    intros y t Hy. apply Hbody. right. exact Hy.
Qed.

(** X5: on a store that satisfies the invariant of the component tree,
    a further [propagate_scope] of a parent on one of its sub-components
    changes nothing: the global scopes are already the ones it
    computes. *)
Theorem propagate_scope_again_changes_nothing
  (limit : nat) (p c : CompId) (cx : Component) (h h' : Heap)
  (Hinv : tree_inv h)
  (Hc : components h !! c = Some cx)
  (Hp : parent_component cx = Some p)
  (Hrun : propagate_scope limit p c h = Ok h') :
  h' = h.
Proof.
  destruct Hinv as [HF Hok].
  revert p c cx h' Hc Hp Hrun.
  induction limit as [|l IH]; intros p c cx h' Hc Hp Hrun; [discriminate | ].
  rewrite propagate_scope_S in Hrun.
  inv_bind Hrun as me Hme. inv_bind Hrun as sub Hsub.
  apply get_component_ok in Hme, Hsub.
  assert (sub = cx) as -> by congruence.
  assert (rescoped me cx c h = h) as Hsame.
  { unfold rescoped. case_bool_decide as Hg; [ | reflexivity].
    pose proof (Hok c cx Hc) as Hsc. rewrite Hp in Hsc.
    destruct Hsc as (px & Hpx & Hgs).
    assert (px = me) as -> by congruence.
    unfold join_scope in Hgs.
    rewrite (bool_decide_eq_true_2 (global_scope me <> "") Hg) in Hgs.
    rewrite <- Hgs, set_global_scope_same.
    apply put_component_same. exact Hc. }
  rewrite Hsame in Hrun.
  apply (for_each_fixed _ _ _) in Hrun; [exact Hrun | ].
  intros d s' Hd Hs'.
  destruct (forest_child_parent _ HF c cx d Hc Hd) as (dx & Hdx & Hdp).
  exact (IH c d dx s' Hdx Hdp Hs').
Qed.

(** On [heap_grandchild_first] the parent propagates its scope once
    more into the middle component and below. *)
Lemma propagate_scope_again_witness :
  propagate_scope 3 0 1 heap_grandchild_first = Ok heap_grandchild_first.
Proof.
  assert (exists h', propagate_scope 3 0 1 heap_grandchild_first = Ok h')
    as [h' Hrun] by (eexists; vm_compute; reflexivity).
  rewrite Hrun. f_equal.
  exact (propagate_scope_again_changes_nothing
           3 0 1 _ heap_grandchild_first h'
           (assembled_tree_inv _ assembled_grandchild_first)
           eq_refl eq_refl Hrun).
Defined.

Lemma dict_get_None {V : Type} (k : string) (d : list (string * V)) :
  k ∉ map fst d -> dict_get k d = None.
Proof.
  unfold dict_get. induction d as [|[k' v'] d IH]; intros Hk; simpl;
    [reflexivity | ].
  destruct (String.eqb_spec k' k) as [->|Hne].
  - exfalso. apply Hk. left.
  - apply IH. intros Hin. apply Hk. right. exact Hin.
Qed.

(** X6: after [add_component], a two-item socket specifier that names
    the sub-component by its name is resolved as the one that gives the
    Component object itself; a name under which the component holds no
    sub-component raises the error. *)
Theorem get_socket_finds_added_component_by_name
  (limit : nat) (self component : CompId) (sub : Component) (h h' : Heap)
  (Hsub : components h !! component = Some sub)
  (Hadd : add_component limit self component h = Ok h') :
  (forall sref type_ create,
     get_socket self (SpecPair (CompByName (name sub)) sref) type_ create h' =
     get_socket self (SpecPair (CompObj component) sref) type_ create h') /\
  (forall n sref type_ create me',
     components h' !! self = Some me' ->
     n ∉ map fst (sub_components me') ->
     get_socket self (SpecPair (CompByName n) sref) type_ create h' =
     Raise YARLError).
Proof.
  split.
  - intros sref type_ create.
    destruct (add_component_ok_inv _ _ _ _ _ Hadd)
      as (me & sub0 & Hme & Hsub0 & Hname & _ & Hrun).
    assert (sub0 = sub) as -> by congruence.
    destruct (propagate_scope_only_scopes _ _ _ _ _ Hrun) as (Hshape & _).
    assert (components (linked self component (name sub) h) !! self
            = Some (linked_entry self component (name sub) self me)) as Hl
      by (rewrite linked_lookup, Hme; reflexivity).
    destruct (same_shape_lookup _ _ _ _ Hshape Hl)
      as (me' & Hme' & _ & _ & _ & Hsubs & _).
    rewrite linked_entry_sub_components in Hsubs.
    rewrite (bool_decide_eq_true_2 (self = self) eq_refl) in Hsubs.
    unfold get_socket. rewrite (get_component_eq _ _ _ Hme'). cbn [bind].
    rewrite Hsubs, (dict_get_snoc_new _ _ _ Hname). reflexivity.
  - intros n sref type_ create me' Hme' Hn.
    unfold get_socket. rewrite (get_component_eq _ _ _ Hme'). cbn [bind].
    rewrite (dict_get_None _ _ Hn). reflexivity.
Qed.

(** After [P.add_component(C)] on [heap_two_roots], the specifier
    [("c", "x")] is read as [(C, "x")]. *)
Lemma get_socket_by_component_name_witness :
  exists h',
    add_component 2 0 1 heap_two_roots = Ok h' /\
    get_socket 0 (SpecPair (CompByName "c") (SockByName "x")) None false h' =
    get_socket 0 (SpecPair (CompObj 1) (SockByName "x")) None false h'.
Proof.
  assert (exists h', add_component 2 0 1 heap_two_roots = Ok h')
    as [h' Hadd] by (eexists; vm_compute; reflexivity).
  exists h'. split; [exact Hadd | ].
  destruct (get_socket_finds_added_component_by_name
              2 0 1 (fresh_component "c") heap_two_roots h' eq_refl Hadd)
    as [H _].
  apply H.
Defined.

(** ** Sockets, continued *)

Lemma all_sockets_append_socket (internal : bool) (t : string)
  (k : SockId) (c : Component) (s : SockId) :
  s ∈ all_sockets (append_socket internal t k c) <->
  s ∈ all_sockets c \/ s = k.
Proof.
  unfold append_socket, all_sockets.
  destruct internal; [ | destruct (String.eqb t "in")]; simpl;
    rewrite !elem_of_app, ?list_elem_of_singleton; tauto.
Qed.

Lemma append_sockets_nil (internal : bool) (t : string) (c : Component) :
  append_sockets internal t [] c = c.
Proof.
  unfold append_sockets.
  destruct internal; [ | destruct (String.eqb t "in")];
    rewrite app_nil_r; destruct c; reflexivity.
Qed.

Lemma append_sockets_cons (internal : bool) (t : string) (k : SockId)
  (ks : list SockId) (c : Component) :
  append_sockets internal t ks (append_socket internal t k c) =
  append_sockets internal t (k :: ks) c.
Proof.
  unfold append_sockets, append_socket.
  destruct internal; [ | destruct (String.eqb t "in")]; simpl;
    rewrite <- app_assoc; reflexivity.
Qed.

(** The names of the sockets of a component after [add_socket]. *)
Lemma names_of_after_add_socket (self : CompId) (n t : string)
  (value : option Z) (internal : bool) (h : Heap) (c : Component) :
  sockets_exist h c ->
  forall g cs n',
    n' ∈ names_of
           (mkHeap cs (sockets h ++ [new_socket self n t value]) g)
           (all_sockets (append_socket internal t (length (sockets h)) c))
    <-> n' ∈ names_of h (all_sockets c) \/ n' = n.
Proof.
  intros Hex g cs n'. rewrite !elem_of_names_of. simpl. split.
  - intros (s & x & Hs & Hx & Hn).
    apply all_sockets_append_socket in Hs as [Hs | ->].
    + left. exists s, x. split; [exact Hs | ].
      rewrite lookup_app_l in Hx by exact (Hex s Hs). auto.
    + right. rewrite lookup_snoc_new in Hx. injection Hx as <-.
      symmetry. exact Hn.
  - intros [(s & x & Hs & Hx & Hn) | ->].
    + exists s, x. split; [apply all_sockets_append_socket; auto | ].
      rewrite lookup_app_l by exact (Hex s Hs). auto.
    + exists (length (sockets h)), (new_socket self n t value).
      split; [apply all_sockets_append_socket; auto | ].
      rewrite lookup_snoc_new. auto.
Qed.

Lemma sockets_exist_after_add_socket (self : CompId) (n t : string)
  (value : option Z) (internal : bool) (h : Heap) (c : Component) :
  sockets_exist h c ->
  forall g cs,
    sockets_exist
      (mkHeap cs (sockets h ++ [new_socket self n t value]) g)
      (append_socket internal t (length (sockets h)) c).
Proof.
  intros Hex g cs s Hs. simpl. rewrite length_app. simpl.
  apply all_sockets_append_socket in Hs as [Hs | ->];
    [pose proof (Hex s Hs) | ]; lia.
Qed.

(** [add_sockets] with a given type: it returns exactly when the names
    are fresh, and then the store is [with_new_sockets]; it raises the
    error otherwise. *)
Lemma add_sockets_spec (self : CompId) (t : string) (internal : bool) :
  forall names h c,
    components h !! self = Some c ->
    sockets_exist h c ->
    (fresh_names h c names /\
     add_sockets self names (Some t) internal h =
     Ok (with_new_sockets self c names t internal h)) \/
    (~ fresh_names h c names /\
     add_sockets self names (Some t) internal h = Raise YARLError).
Proof.
  induction names as [|n names IH]; intros h c Hc Hex.
  - left. split; [split; [constructor | intros n Hn; inversion Hn] | ].
    unfold add_sockets, with_new_sockets. simpl.
    rewrite append_sockets_nil, app_nil_r, (list_insert_id _ _ _ Hc).
    destruct h. reflexivity.
  - unfold add_sockets. rewrite for_each_cons.
    destruct (decide (n ∈ names_of h (all_sockets c))) as [Hin | Hnin].
    { right. split.
      - intros [_ Hf]. exact (Hf n ltac:(left) Hin).
      - rewrite (add_socket_duplicate self n None (Some t) internal h c Hc
                   Hin). reflexivity. }
    rewrite (add_socket_ok self n None (Some t) internal h c t Hc eq_refl
               Hnin). cbn [bind].
    set (c1 := append_socket internal t (length (sockets h)) c).
    set (h1 := mkHeap _ _ _).
    assert (components h1 !! self = Some c1) as Hc1.
    { subst h1. simpl. apply list_lookup_insert_eq.
      exact (lookup_lt_Some _ _ _ Hc). }
    assert (sockets_exist h1 c1) as Hex1
      by (apply sockets_exist_after_add_socket; exact Hex).
    assert (forall n', n' ∈ names_of h1 (all_sockets c1) <->
                       n' ∈ names_of h (all_sockets c) \/ n' = n) as Hnames
      by (apply names_of_after_add_socket; exact Hex).
    fold (add_sockets self names (Some t) internal h1).
    destruct (IH h1 c1 Hc1 Hex1) as [[[Hnd Hf] Hrun] | [Hnf Hrun]].
    + left. split.
      * split.
        -- constructor; [ | exact Hnd].
           intros Hn. apply (Hf n Hn). apply Hnames. auto.
        -- intros n' Hn'. apply elem_of_cons in Hn' as [-> | Hn'];
             [exact Hnin | ].
           intros Hin. apply (Hf n' Hn'). apply Hnames. auto.
      * rewrite Hrun. f_equal. unfold with_new_sockets. subst h1 c1. simpl.
        rewrite list_insert_insert_eq, append_sockets_cons.
        rewrite length_app, <- app_assoc. simpl.
        rewrite Nat.add_1_r. reflexivity.
    + right. split; [ | exact Hrun].
      intros [Hnd Hf]. apply Hnf. split.
      * exact (NoDup_cons_1_2 _ _ Hnd).
      * intros n' Hn' Hin. apply Hnames in Hin as [Hin | ->].
        -- exact (Hf n' ltac:(right; exact Hn') Hin).
        -- exact (NoDup_cons_1_1 _ _ Hnd Hn').
Qed.

Lemma define_inputs_no_space (self : CompId) (names : list string)
  (h : Heap) :
  define_inputs self names None h =
  add_sockets self names (Some "in") false h.
Proof.
  unfold define_inputs. destruct (add_sockets _ _ _ _ _); reflexivity.
Qed.

(** X7: [add_sockets] with a given type (and so [define_inputs] without
    a space and [define_outputs]) returns exactly when the names are
    pairwise different and none of them is the name of a socket of the
    component; the new sockets are then appended in the order of the
    names to the one collection that [internal] and the type select.
    Otherwise the call raises the error. *)
Theorem add_sockets_returns_exactly_on_fresh_names
  (self : CompId) (c : Component) (names : list string) (t : string)
  (internal : bool) (h : Heap)
  (Hc : components h !! self = Some c)
  (Hex : sockets_exist h c) :
  (fresh_names h c names ->
   add_sockets self names (Some t) internal h =
   Ok (with_new_sockets self c names t internal h)) /\
  (~ fresh_names h c names ->
   add_sockets self names (Some t) internal h = Raise YARLError) /\
  define_inputs self names None h = add_sockets self names (Some "in") false h /\
  define_outputs self names h = add_sockets self names (Some "out") false h.
Proof.
  destruct (add_sockets_spec self t internal names h c Hc Hex)
    as [[Hf Hrun] | [Hnf Hrun]].
  - split; [intros _; exact Hrun | ].
    split; [intros Hn; contradiction | ].
    split; [apply define_inputs_no_space | reflexivity].
  - split; [intros Hf; contradiction | ].
    split; [intros _; exact Hrun | ].
    split; [apply define_inputs_no_space | reflexivity].
Qed.

(** On a component without sockets, [a] and [b] are added; [a] twice is
    refused. *)
Lemma add_sockets_witness :
  add_sockets 0 ["a"; "b"] (Some "in") false one_component_heap =
  Ok (with_new_sockets 0 (fresh_component "c") ["a"; "b"] "in" false
        one_component_heap) /\
  add_sockets 0 ["a"; "a"] (Some "in") false one_component_heap =
  Raise YARLError.
Proof.
  destruct (add_sockets_returns_exactly_on_fresh_names
              0 (fresh_component "c") ["a"; "b"] "in" false
              one_component_heap eq_refl)
    as (Hok & _); [intros s Hs; inversion Hs | ].
  destruct (add_sockets_returns_exactly_on_fresh_names
              0 (fresh_component "c") ["a"; "a"] "in" false
              one_component_heap eq_refl)
    as (_ & Hraise & _); [intros s Hs; inversion Hs | ].
  split.
  - apply Hok. split.
    + apply NoDup_cons. split; [ | apply NoDup_singleton].
      intros H. apply list_elem_of_singleton in H. discriminate.
    + intros n _ Hn. inversion Hn.
  - apply Hraise. intros [Hnd _].
    apply NoDup_cons_1_1 in Hnd. apply Hnd. left.
Defined.

Lemma all_sockets_append_sockets (internal : bool) (t : string)
  (ks : list SockId) (c : Component) (s : SockId) :
  s ∈ all_sockets (append_sockets internal t ks c) <->
  s ∈ all_sockets c \/ s ∈ ks.
Proof.
  unfold append_sockets, all_sockets.
  destruct internal; [ | destruct (String.eqb t "in")]; simpl;
    rewrite !elem_of_app; tauto.
Qed.

Lemma lookup_new_sockets (self : CompId) (t : string) (ss : list Socket)
  (names : list string) (s : SockId) (x : Socket) :
  (ss ++ map (fun n => new_socket self n t None) names)%list !! s = Some x ->
  length ss <= s ->
  sock_name x ∈ names /\ x = new_socket self (sock_name x) t None.
Proof.
  intros Hx Hs. rewrite lookup_app_r in Hx by exact Hs.
  rewrite list_lookup_fmap in Hx.
  destruct (names !! (s - length ss)) as [n|] eqn:Hn; [ | discriminate].
  injection Hx as <-. simpl. split; [ | reflexivity].
  exact (list_elem_of_lookup_2 _ _ _ Hn).
Qed.

(** The names of the sockets of a component after [add_sockets]. *)
Lemma names_of_with_new_sockets (self : CompId) (c : Component)
  (names : list string) (t : string) (internal : bool) (h : Heap) :
  sockets_exist h c ->
  forall n',
    n' ∈ names_of (with_new_sockets self c names t internal h)
           (all_sockets
              (append_sockets internal t
                 (seq (length (sockets h)) (length names)) c))
    <-> n' ∈ names_of h (all_sockets c) \/ n' ∈ names.
Proof.
  intros Hex n'. rewrite !elem_of_names_of. simpl. split.
  - intros (s & x & Hs & Hx & Hn).
    apply all_sockets_append_sockets in Hs as [Hs | Hs].
    + left. exists s, x. split; [exact Hs | ].
      rewrite lookup_app_l in Hx by exact (Hex s Hs). auto.
    + right. apply elem_of_seq in Hs.
      destruct (lookup_new_sockets _ _ _ _ _ _ Hx ltac:(lia)) as [H _].
      rewrite <- Hn. exact H.
  - intros [(s & x & Hs & Hx & Hn) | Hn].
    + exists s, x. split; [apply all_sockets_append_sockets; auto | ].
      rewrite lookup_app_l by exact (Hex s Hs). auto.
    + apply list_elem_of_lookup_1 in Hn as [i Hi].
      exists (length (sockets h) + i), (new_socket self n' t None).
      split; [ | split; [ | reflexivity]].
      * apply all_sockets_append_sockets. right. apply elem_of_seq.
        pose proof (lookup_lt_Some _ _ _ Hi). lia.
      * rewrite lookup_app_r by lia.
        replace (length (sockets h) + i - length (sockets h)) with i by lia.
        rewrite list_lookup_fmap, Hi. reflexivity.
Qed.

Lemma sockets_exist_with_new_sockets (self : CompId) (c : Component)
  (names : list string) (t : string) (internal : bool) (h : Heap) :
  sockets_exist h c ->
  sockets_exist (with_new_sockets self c names t internal h)
    (append_sockets internal t (seq (length (sockets h)) (length names)) c).
Proof.
  intros Hex s Hs. simpl. rewrite length_app, length_map.
  apply all_sockets_append_sockets in Hs as [Hs | Hs].
  - pose proof (Hex s Hs). lia.
  - apply elem_of_seq in Hs. lia.
Qed.

(** X8: the constructor returns exactly when the scope passes the scope
    pattern and no name occurs twice among the inputs and outputs.  It
    then leaves one new component, named after its scope unless a name
    is given, without parent and sub-components, not input-complete,
    with an empty registry, whose input and output sockets are new
    unconnected sockets that carry the given names in the given order.
    A scope that fails the pattern raises the assertion error, a
    repeated socket name raises the error. *)
Theorem Component_init_returns_exactly_on_distinct_socket_names
  (scope_ : string) (name_ : option string) (flags : OpsFlags)
  (methods inputs outputs : list string) (h : Heap) :
  (scope_pattern_matches scope_ = false ->
   Component_init scope_ name_ flags methods inputs outputs h =
   Raise AssertionError) /\
  (scope_pattern_matches scope_ = true ->
   ~ NoDup (inputs ++ outputs) ->
   Component_init scope_ name_ flags methods inputs outputs h =
   Raise YARLError) /\
  (scope_pattern_matches scope_ = true ->
   NoDup (inputs ++ outputs) ->
   Component_init scope_ name_ flags methods inputs outputs h =
   let self := length (components h) in
   Ok (self,
       mkHeap
         (components h ++
          [constructed scope_ name_ flags methods (length (sockets h))
             inputs outputs])
         (sockets h ++
          map (fun n => new_socket self n "in" None) inputs ++
          map (fun n => new_socket self n "out" None) outputs)
         (graph_functions h))).
Proof.
  unfold Component_init.
  destruct (scope_pattern_matches scope_) eqn:Hscope; cbn [assert bind];
    [ | split; [reflexivity | split; discriminate]].
  split; [discriminate | ].
  unfold alloc_component.
  set (self := length (components h)).
  set (c0 := mkComponent scope_ scope_ (default scope_ name_) flags [] []
               None [] [] [] false [] ∅ methods).
  set (h1 := mkHeap (components h ++ [c0]) (sockets h) (graph_functions h)).
  assert (components h1 !! self = Some c0) as Hc0
    by apply lookup_snoc_new.
  assert (sockets_exist h1 c0) as Hex0 by (intros s Hs; inversion Hs).
  rewrite define_inputs_no_space. unfold define_outputs.
  assert (fresh_names h1 c0 inputs <-> NoDup inputs) as Hfresh0.
  { split; [intros [H _]; exact H | ].
    intros H. split; [exact H | ]. intros n _ Hn. inversion Hn. }
  destruct (add_sockets_spec self "in" false inputs h1 c0 Hc0 Hex0)
    as [[Hf1 Hrun1] | [Hnf1 Hrun1]]; rewrite Hrun1; cbn [bind].
  2:{ split; [reflexivity | ]. intros _ Hnd. exfalso. apply Hnf1, Hfresh0.
      exact (proj1 (proj1 (NoDup_app _ _) Hnd)). }
  set (c2 := append_sockets false "in"
               (seq (length (sockets h1)) (length inputs)) c0).
  set (h2 := with_new_sockets self c0 inputs "in" false h1).
  assert (components h2 !! self = Some c2) as Hc2.
  { subst h2. simpl. apply list_lookup_insert_eq.
    exact (lookup_lt_Some _ _ _ Hc0). }
  assert (sockets_exist h2 c2) as Hex2
    by (apply sockets_exist_with_new_sockets; exact Hex0).
  assert (fresh_names h2 c2 outputs <->
          NoDup outputs /\ forall n, n ∈ outputs -> n ∉ inputs) as Hfresh2.
  { unfold fresh_names. split; intros [Hnd Hf]; (split; [exact Hnd | ]);
      intros n Hn Hin; apply (Hf n Hn).
    - apply names_of_with_new_sockets; [exact Hex0 | ]. right. exact Hin.
    - apply names_of_with_new_sockets in Hin as [Hin | Hin];
        [inversion Hin | exact Hin | exact Hex0]. }
  destruct (add_sockets_spec self "out" false outputs h2 c2 Hc2 Hex2)
    as [[Hf2 Hrun2] | [Hnf2 Hrun2]]; rewrite Hrun2; cbn [bind].
  2:{ split; [reflexivity | ]. intros _ Hnd. exfalso. apply Hnf2, Hfresh2.
      apply NoDup_app in Hnd as (_ & Hdisj & Hnd2).
      split; [exact Hnd2 | ]. intros n Hn Hin. exact (Hdisj n Hin Hn). }
  split.
  { intros _ Hnd. exfalso. apply Hnd.
    apply Hfresh2 in Hf2 as [Hnd2 Hdisj]. apply NoDup_app.
    split; [exact (proj1 Hfresh0 Hf1) | ].
    split; [ | exact Hnd2]. intros n Hin Hn. exact (Hdisj n Hn Hin). }
  intros _ _. cbn zeta. f_equal. f_equal.
  unfold with_new_sockets. subst h2 c2 h1. simpl.
  rewrite list_insert_insert_eq. subst self. rewrite insert_snoc_new.
  rewrite length_app, length_map, <- app_assoc. reflexivity.
Qed.

(** Looking the name of a socket that [add_socket] has just created up
    in a list of socket objects of the component. *)
Lemma first_named_after_add_socket (self : CompId) (n t : string)
  (value : option Z) (h : Heap) (cs : list Component)
  (g : list GraphFunction) :
  forall l,
    (forall s, s ∈ l -> s <= length (sockets h)) ->
    n ∉ names_of h l ->
    first_named (mkHeap cs (sockets h ++ [new_socket self n t value]) g) n l
    = if bool_decide (length (sockets h) ∈ l) then Some (length (sockets h))
      else None.
Proof.
  induction l as [|s l IH]; intros Hle Hfresh; [reflexivity | ].
  assert (first_named
            (mkHeap cs (sockets h ++ [new_socket self n t value]) g) n l
          = if bool_decide (length (sockets h) ∈ l)
            then Some (length (sockets h)) else None) as IH'.
  { apply IH.
    - intros s' Hs'. apply Hle. right. exact Hs'.
    - intros Hin. apply Hfresh.
      change (s :: l) with ([s] ++ l)%list. rewrite names_of_app.
      apply elem_of_app. right. exact Hin. }
  unfold first_named in IH' |- *. simpl in IH' |- *.
  destruct (decide (s = length (sockets h))) as [-> | Hne].
  - rewrite lookup_snoc_new. simpl. rewrite String.eqb_refl.
    rewrite bool_decide_eq_true_2 by left. reflexivity.
  - pose proof (Hle s ltac:(left)) as Hs.
    rewrite lookup_app_l by lia.
    destruct (sockets h !! s) as [x|] eqn:Hx.
    + destruct (String.eqb_spec (sock_name x) n) as [Hn | Hn].
      * exfalso. apply Hfresh. apply elem_of_names_of.
        exists s, x. split; [left | auto].
      * rewrite IH'.
        rewrite (bool_decide_ext (length (sockets h) ∈ s :: l)
                   (length (sockets h) ∈ l)); [reflexivity | ].
        rewrite elem_of_cons. split; [ | auto].
        intros [H | H]; [congruence | exact H].
    + exfalso. apply lookup_ge_None in Hx. lia.
Qed.

(** X9: a socket that [add_socket] has created is what [get_socket]
    returns for its name.  [get_input] returns it when it is internal or
    of type [in] and raises the error otherwise; [get_output] returns it
    when it is internal or not of type [in] and raises the error
    otherwise: an internal socket is found on both sides. *)
Theorem add_socket_then_lookups
  (self : CompId) (c : Component) (sname t : string) (value : option Z)
  (type_ : option string) (internal : bool) (h h' : Heap)
  (Hc : components h !! self = Some c)
  (Hex : sockets_exist h c)
  (Ht : socket_direction type_ sname = Some t)
  (Hadd : add_socket self sname value type_ internal h = Ok h') :
  let sock := length (sockets h) in
  get_socket self (SpecStr sname) None false h' = Ok (sock, h') /\
  get_input self (SpecStr sname) h' =
  (if internal || String.eqb t "in" then Ok (sock, h')
   else Raise YARLError) /\
  get_output self (SpecStr sname) h' =
  (if internal || negb (String.eqb t "in") then Ok (sock, h')
   else Raise YARLError).
Proof.
  apply add_socket_ok_inv in Hadd
    as (c0 & t0 & Hc0 & Ht0 & Hfresh & ->).
  assert (c0 = c) as -> by congruence.
  assert (t0 = t) as -> by congruence.
  set (sock := length (sockets h)).
  set (c' := append_socket internal t sock c).
  set (h' := mkHeap _ _ _).
  assert (components h' !! self = Some c') as Hc'.
  { subst h'. simpl. apply list_lookup_insert_eq.
    exact (lookup_lt_Some _ _ _ Hc). }
  assert (forall s, s ∈ all_sockets c -> s <> sock) as Hold.
  { intros s Hs ->. pose proof (Hex _ Hs). subst sock. lia. }
  assert (forall l : list SockId,
             (forall s, s ∈ l -> s ∈ all_sockets c') ->
             first_named h' sname l =
             if bool_decide (sock ∈ l) then Some sock else None) as Hfind.
  { intros l Hl. subst h'. apply first_named_after_add_socket.
    - intros s Hs. apply Hl, all_sockets_append_socket in Hs as [H | ->];
        [ | reflexivity].
      pose proof (Hex s H). lia.
    - intros Hin. apply elem_of_names_of in Hin as (s & x & Hs & Hx & Hn).
      pose proof Hs as Hs'.
      apply Hl, all_sockets_append_socket in Hs' as [H | ->].
      + apply Hfresh. apply elem_of_names_of. eauto.
      + pose proof (lookup_lt_Some _ _ _ Hx). subst sock. lia. }
  assert (sock ∉ input_sockets c) as Hni.
  { intros H. apply (Hold sock); [ | reflexivity].
    unfold all_sockets. rewrite !elem_of_app. auto. }
  assert (sock ∉ output_sockets c) as Hno.
  { intros H. apply (Hold sock); [ | reflexivity].
    unfold all_sockets. rewrite !elem_of_app. auto. }
  assert (sock ∉ internal_sockets c) as Hnn.
  { intros H. apply (Hold sock); [ | reflexivity].
    unfold all_sockets. rewrite !elem_of_app. auto. }
  unfold get_input, get_output, get_socket, get_socket_by_name.
  rewrite (get_component_eq _ _ _ Hc'). cbn [bind].
  rewrite (bool_decide_eq_true_2 (None <> Some "in")) by discriminate.
  rewrite (bool_decide_eq_false_2 (Some "in" <> Some "in"))
    by (intros H; apply H; reflexivity).
  rewrite (bool_decide_eq_true_2 (Some "out" <> Some "in")) by discriminate.
  rewrite !Hfind
    by (intros s Hs; unfold all_sockets; rewrite !elem_of_app in *; tauto).
  subst c'. unfold append_socket.
  destruct internal; [ | destruct (String.eqb t "in")]; simpl;
    repeat match goal with
           | |- context [bool_decide (?x ∈ ?l)] =>
               first
                 [ rewrite (bool_decide_eq_true_2 (x ∈ l))
                     by (clear - Hni Hno Hnn;
                         rewrite ?elem_of_app, ?list_elem_of_singleton;
                         intuition congruence)
                 | rewrite (bool_decide_eq_false_2 (x ∈ l))
                     by (clear - Hni Hno Hnn;
                         rewrite ?elem_of_app, ?list_elem_of_singleton;
                         intuition congruence) ]
           end;
    repeat split; reflexivity.
Qed.

(** An in-socket [x] added to a component without sockets is found by
    [get_input] and not by [get_output]. *)
Lemma add_socket_then_lookups_witness :
  exists h',
    add_socket 0 "x" None (Some "in") false one_component_heap = Ok h' /\
    get_input 0 (SpecStr "x") h' = Ok (0, h') /\
    get_output 0 (SpecStr "x") h' = Raise YARLError.
Proof.
  assert (exists h',
             add_socket 0 "x" None (Some "in") false one_component_heap
             = Ok h') as [h' Hadd] by (eexists; reflexivity).
  exists h'. split; [exact Hadd | ].
  destruct (add_socket_then_lookups
              0 (fresh_component "c") "x" "in" None (Some "in") false
              one_component_heap h' eq_refl)
    as (_ & Hin & Hout);
    [intros s Hs; inversion Hs | reflexivity | exact Hadd | ].
  split; [exact Hin | exact Hout].
Defined.
